(** * K-Medians (pyclustering/cluster/kmedians.py): a shallow embedding

    The class [kmedians] keeps four private attributes (the dataset, the
    clusters, the medians and the tolerance).  Its methods are embedded as
    computations in a state-and-exception monad over a record holding these
    attributes.  The coordinates and the distances are exact rationals ([Q]).
    The tolerance is a float, as the constructor documents it
    ([tolerance (double)]): a real number, an infinity or not a number.  Its
    product with itself, the stop condition of [process], is the binary64
    product: rounded to nearest, ties to even, and infinite when it
    overflows.

    The two functions imported from [pyclustering.support]
    ([euclidean_distance_sqrt] and [geometric_median]) are not part of the
    file; they are parameters of the development ([Section Engine]), and a
    concrete version of each, written from the documentation, is used to run
    the model on examples.

    A second embedding of the same methods ([Module Store]) keeps the Python
    lists as objects in a store, with references between them; it is there to
    say which objects the constructor and [process] write to, and that the
    outcome depends on the values in the lists only
    ([Module StoreRefinement]). *)

From Stdlib Require Import QArith Qpower ZArith List Lia Bool Arith Permutation Sorted.
Import ListNotations.

Local Open Scope nat_scope.

(** ** Python values, exceptions, results *)

(** A point is a list of coordinates; [len(point)] is its dimension. *)
Definition point := list Q.

(** The exceptions the module can end with.  [NameError] is the one that
    [process] raises itself (dimension mismatch).  [IndexError] comes from
    list subscripts, [ValueError] from [max] on an empty list, and
    [SupportError] stands for whatever is raised inside a function of
    [pyclustering.support].  [TypeError] is for an operation on a value that
    is not a list; it occurs only where values are untyped (the model with
    object identities, [Module Store]). *)
Inductive exception : Type :=
| NameError
| IndexError
| ValueError
| TypeError
| SupportError.

Inductive result (A : Type) : Type :=
| Ok (a : A)
| Raise (e : exception).
Arguments Ok {A} a.
Arguments Raise {A} e.

Definition rbind {A B : Type} (r : result A) (k : A -> result B) : result B :=
  match r with
  | Ok a => k a
  | Raise e => Raise e
  end.

Declare Scope result_scope.
Delimit Scope result_scope with result.
Notation "x <- c ;; k" := (rbind c (fun x => k))
  (at level 61, c at next level, right associativity) : result_scope.

(** A call into [pyclustering.support]: [None] is an exception raised there. *)
Definition support {A : Type} (o : option A) : result A :=
  match o with
  | Some a => Ok a
  | None => Raise SupportError
  end.

(** [l[i]] for a non-negative index produced by [range]. *)
Definition getitem {A : Type} (l : list A) (i : nat) : result A :=
  match nth_error l i with
  | Some x => Ok x
  | None => Raise IndexError
  end.

(** Python's index normalisation for [l[i]] with a signed index: a negative
    [i] counts from the end, and anything outside the list is an
    [IndexError]. *)
Definition normalize_index (len : nat) (i : Z) : result nat :=
  let j := (if i <? 0 then i + Z.of_nat len else i)%Z in
  if ((0 <=? j) && (j <? Z.of_nat len))%Z then Ok (Z.to_nat j) else Raise IndexError.

(** Replace the element at position [i] by its image under [f]
    (the list is unchanged when [i] is out of range). *)
Fixpoint update_at {A : Type} (l : list A) (i : nat) (f : A -> A) : list A :=
  match l, i with
  | [], _ => []
  | x :: t, O => f x :: t
  | x :: t, S i' => x :: update_at t i' f
  end.

(** [for x in xs: acc = body(acc, x)], stopping at the first exception. *)
Fixpoint for_each {A S : Type} (xs : list A) (body : S -> A -> result S) (acc : S) : result S :=
  match xs with
  | [] => Ok acc
  | x :: t =>
      match body acc x with
      | Ok acc' => for_each t body acc'
      | Raise e => Raise e
      end
  end.

(** [[f(x) for x in xs]], stopping at the first exception. *)
Fixpoint comprehension {A B : Type} (f : A -> result B) (xs : list A) : result (list B) :=
  match xs with
  | [] => Ok []
  | x :: t =>
      match f x with
      | Ok y =>
          match comprehension f t with
          | Ok ys => Ok (y :: ys)
          | Raise e => Raise e
          end
      | Raise e => Raise e
      end
  end.

(** [range(n)] *)
Definition range (n : nat) : list nat := seq 0 n.

(** Comparisons of floats, as booleans. *)
Definition Qlt_bool (x y : Q) : bool :=
  match (x ?= y)%Q with
  | Lt => true
  | _ => false
  end.

(** [max(xs)] on a list of floats: the first greatest element, and a
    [ValueError] on the empty list. *)
Definition py_max (xs : list Q) : result Q :=
  match xs with
  | [] => Raise ValueError
  | x :: t => Ok (fold_left (fun best y => if Qlt_bool best y then y else best) t x)
  end.

(** The value of [changes]: a float, or [float('inf')]. *)
Inductive changes_t : Type :=
| Inf
| Finite (q : Q).

(** A float as the tolerance and the stop condition can be: a real number,
    an infinity, or not a number.  [Real q] is the float of value [q]; the
    product below rounds, so it is a binary64 number again. *)
Inductive float : Type :=
| Real (q : Q)
| PlusInfinity
| MinusInfinity
| NotANumber.

(** The greatest [e] with [2 ^ e <= a], for a positive [a]. *)
Definition floor_log2 (a : Q) : Z :=
  let e := (Z.log2 (Qnum a) - Z.log2 (Zpos (Qden a)))%Z in
  if Qle_bool (Qpower 2 e) a then e else (e - 1)%Z.

(** The integer nearest to a non-negative [m], the even one of two that are
    equally near. *)
Definition round_half_even (m : Q) : Z :=
  let p := Qnum m in
  let d := Zpos (Qden m) in
  let n := (p / d)%Z in
  match (2 * (p mod d) ?= d)%Z with
  | Lt => n
  | Gt => (n + 1)%Z
  | Eq => if Z.even n then n else (n + 1)%Z
  end.

(** The binary64 number nearest to a positive [a] (53 significant bits, the
    least exponent -1022, ties to even), or [None] when that is [2 ^ 1024]
    or more: the overflow. *)
Definition binary64_magnitude (a : Q) : option Q :=
  let e := Z.max (floor_log2 a) (-1022) in
  let ulp := Qpower 2 (e - 52) in
  let r := (inject_Z (round_half_even (a / ulp)) * ulp)%Q in
  if Qle_bool (Qpower 2 1024) r then None else Some r.

(** Rounding of a real number to a float (the sign of a zero is left out). *)
Definition binary64 (q : Q) : float :=
  match (q ?= 0)%Q with
  | Eq => Real 0
  | Gt => match binary64_magnitude q with
          | Some r => Real r
          | None => PlusInfinity
          end
  | Lt => match binary64_magnitude (- q) with
          | Some r => Real (- r)
          | None => MinusInfinity
          end
  end.

(** The sign of an infinity times a real number. *)
Definition infinity_times (positive : bool) (x : Q) : float :=
  match (x ?= 0)%Q with
  | Eq => NotANumber
  | Gt => if positive then PlusInfinity else MinusInfinity
  | Lt => if positive then MinusInfinity else PlusInfinity
  end.

(** [a * b] on floats. *)
Definition float_mul (a b : float) : float :=
  match a, b with
  | NotANumber, _ | _, NotANumber => NotANumber
  | Real x, Real y => binary64 (x * y)
  | Real x, PlusInfinity | PlusInfinity, Real x => infinity_times true x
  | Real x, MinusInfinity | MinusInfinity, Real x => infinity_times false x
  | PlusInfinity, PlusInfinity | MinusInfinity, MinusInfinity => PlusInfinity
  | PlusInfinity, MinusInfinity | MinusInfinity, PlusInfinity => MinusInfinity
  end.

(** [- a] on floats. *)
Definition float_opp (a : float) : float :=
  match a with
  | Real x => Real (- x)
  | PlusInfinity => MinusInfinity
  | MinusInfinity => PlusInfinity
  | NotANumber => NotANumber
  end.

(** [changes > stop_condition]: false when the stop condition is not a
    number or is plus infinity, even for [changes = float('inf')]. *)
Definition exceeds (changes : changes_t) (stop_condition : float) : bool :=
  match stop_condition with
  | NotANumber => false
  | PlusInfinity => false
  | MinusInfinity => true
  | Real s =>
      match changes with
      | Inf => true
      | Finite c => Qlt_bool s c
      end
  end.
Arguments exceeds : simpl never.

(** ** The engine: attributes and the method monad *)

Record kmedians : Type := mk_kmedians {
  __pointer_data : list point;
  __clusters : list (list nat);
  __medians : list point;
  __tolerance : float
}.

(** A method body: it reads and writes the attributes of [self] and either
    returns a value or raises; the attributes written before an exception
    stay written. *)
Definition M (A : Type) : Type := kmedians -> result A * kmedians.

Definition ret {A : Type} (a : A) : M A := fun self => (Ok a, self).

Definition bind {A B : Type} (c : M A) (k : A -> M B) : M B :=
  fun self =>
    match c self with
    | (Ok a, self') => k a self'
    | (Raise e, self') => (Raise e, self')
    end.

Definition raise {A : Type} (e : exception) : M A := fun self => (Raise e, self).

Definition lift {A : Type} (r : result A) : M A := fun self => (r, self).

Definition attr {A : Type} (field : kmedians -> A) : M A := fun self => (Ok (field self), self).

Definition set_clusters (v : list (list nat)) : M unit :=
  fun self => (Ok tt, mk_kmedians (__pointer_data self) v (__medians self) (__tolerance self)).

Definition set_medians (v : list point) : M unit :=
  fun self => (Ok tt, mk_kmedians (__pointer_data self) (__clusters self) v (__tolerance self)).

(** The engine [self] with another tolerance, and with other clusters. *)
Definition with_tolerance (tolerance : float) (self : kmedians) : kmedians :=
  mk_kmedians (__pointer_data self) (__clusters self) (__medians self) tolerance.

Definition with_clusters (clusters : list (list nat)) (self : kmedians) : kmedians :=
  mk_kmedians (__pointer_data self) clusters (__medians self) (__tolerance self).

Declare Scope method_scope.
Delimit Scope method_scope with method.
Notation "x <- c ;; k" := (bind c (fun x => k))
  (at level 61, c at next level, right associativity) : method_scope.
Notation "c ;;; k" := (bind c (fun _ => k))
  (at level 61, right associativity) : method_scope.

(** [l[i] = x] for an index produced by [range]. *)
Definition setitem {A : Type} (l : list A) (i : nat) (x : A) : result (list A) :=
  if i <? length l then Ok (update_at l i (fun _ => x)) else Raise IndexError.

(** What a call of [process] can end with: a normal return or an exception,
    each with the attributes as the call left them.  The [while] loop has no
    bound, so the model takes a number of iterations it may spend ([fuel]),
    and [None] says that this number did not suffice. *)
Definition run (A : Type) : Type := option (result A * kmedians).

Section Engine.

(** The collaborators from [pyclustering.support]. *)
Variable euclidean_distance_sqrt : point -> point -> option Q.
Variable geometric_median : list point -> list nat -> option nat.

(** [__init__]: [initial_centers[:]] is a copy with the same elements. *)
Definition init (data : list point) (initial_centers : list point) (tolerance : float) : kmedians :=
  {| __pointer_data := data;
     __clusters := [];
     __medians := initial_centers;
     __tolerance := tolerance |}.

Definition get_clusters (self : kmedians) : list (list nat) := __clusters self.

Definition get_centers (self : kmedians) : list point := __medians self.

(** *** [__update_clusters] *)

(** Body of the inner loop; [optim] is the pair [(index_optim, dist_optim)].
    The test [index is 0] holds exactly for the index 0 (small integers are
    unique objects). *)
Definition nearest_body (data : list point) (medians : list point) (index_point : nat)
    (optim : Z * Q) (index : nat) : result (Z * Q) :=
  (p <- getitem data index_point ;;
   m <- getitem medians index ;;
   dist <- support (euclidean_distance_sqrt p m) ;;
   if Qlt_bool dist (snd optim) || (index =? 0)
   then Ok (Z.of_nat index, dist)
   else Ok optim)%result.

(** Body of the outer loop: the inner loop starts from
    [index_optim = -1], [dist_optim = 0.0]; then
    [clusters[index_optim].append(index_point)]. *)
Definition assign_point (data : list point) (medians : list point)
    (clusters : list (list nat)) (index_point : nat) : result (list (list nat)) :=
  (optim <- for_each (range (length medians)) (nearest_body data medians index_point) ((-1)%Z, 0%Q) ;;
   j <- normalize_index (length clusters) (fst optim) ;;
   Ok (update_at clusters j (fun cluster => cluster ++ [index_point])))%result.

Definition update_clusters : M (list (list nat)) :=
  (medians <- attr __medians ;;
   data <- attr __pointer_data ;;
   lift (for_each (range (length data)) (assign_point data medians)
           (map (fun _ => []) (range (length medians)))))%method.

(** *** [__update_medians] *)

Definition median_body (data : list point) (clusters : list (list nat))
    (medians : list point) (index : nat) : result (list point) :=
  (cluster <- getitem clusters index ;;
   meadian_index <- support (geometric_median data cluster) ;;
   p <- getitem data meadian_index ;;
   setitem medians index p)%result.

Definition update_medians : M (list point) :=
  (clusters <- attr __clusters ;;
   data <- attr __pointer_data ;;
   lift (for_each (range (length clusters)) (median_body data clusters)
           (map (fun _ => []) (range (length clusters)))))%method.

(** *** [process] *)

(** The list comprehension under [max]. *)
Definition displacements (medians updated_centers : list point) : result (list Q) :=
  comprehension
    (fun index =>
       (old <- getitem medians index ;;
        new <- getitem updated_centers index ;;
        support (euclidean_distance_sqrt old new))%result)
    (range (length medians)).

(** One pass through the body of the [while] loop; the value is the new
    [changes]. *)
Definition iteration : M Q :=
  (clusters <- update_clusters ;;
   set_clusters clusters ;;;
   updated_centers <- update_medians ;;
   medians <- attr __medians ;;
   changes <- lift (ds <- displacements medians updated_centers ;; py_max ds)%result ;;
   set_medians updated_centers ;;;
   ret changes)%method.

Fixpoint process_loop (fuel : nat) (changes : changes_t) (stop_condition : float)
    (self : kmedians) : run unit :=
  if exceeds changes stop_condition then
    match fuel with
    | O => None
    | S fuel' =>
        match iteration self with
        | (Ok changes', self') => process_loop fuel' (Finite changes') stop_condition self'
        | (Raise e, self') => Some (Raise e, self')
        end
    end
  else Some (Ok tt, self).

(** The dimension check: [len(data[0]) != len(medians[0])]. *)
Definition check_dimension : M unit :=
  (data <- attr __pointer_data ;;
   p <- lift (getitem data 0) ;;
   medians <- attr __medians ;;
   m <- lift (getitem medians 0) ;;
   if negb (length p =? length m) then raise NameError else ret tt)%method.

Definition process (fuel : nat) (self : kmedians) : run unit :=
  let changes := Inf in
  let stop_condition := float_mul (__tolerance self) (__tolerance self) in
  match check_dimension self with
  | (Ok _, self') => process_loop fuel changes stop_condition self'
  | (Raise e, self') => Some (Raise e, self')
  end.

End Engine.

(** ** The collaborators, from their documentation *)

(** Modelled from the spec: [euclidean_distance_sqrt] of
    [pyclustering.support] is not in the file.  It is the sum of the squared
    per-dimension differences of two points of equal dimension, and it fails
    on points of different dimensions. *)
Definition squared_differences (a b : point) : Q :=
  fold_left Qplus (map (fun ab => (fst ab - snd ab) * (fst ab - snd ab))%Q (combine a b)) 0%Q.

(** Modelled from the spec: the squared Euclidean distance of
    [pyclustering.support], defined between points of equal dimension. *)
Definition euclidean_distance_sqrt (a b : point) : option Q :=
  if length a =? length b then Some (squared_differences a b) else None.

(** Modelled from the spec: [geometric_median] of [pyclustering.support] is
    not in the file.  Among the given indexes it returns one whose point has
    the least sum of distances to the points of all the given indexes (the
    first such index); it has no answer for an empty list of indexes or for
    an index outside the dataset.  The distance summed is the squared one. *)
Definition distance_sum (data : list point) (indexes : list nat) (candidate : nat) : option Q :=
  match nth_error data candidate with
  | None => None
  | Some pc =>
      fold_left
        (fun acc index =>
           match acc, nth_error data index with
           | Some s, Some p =>
               match euclidean_distance_sqrt pc p with
               | Some d => Some (s + d)%Q
               | None => None
               end
           | _, _ => None
           end)
        indexes (Some 0%Q)
  end.

(** Modelled from the spec: one candidate of [geometric_median]; it replaces
    the best one so far when its sum of distances is strictly smaller. *)
Definition median_step (data : list point) (indexes : list nat)
    (best : option (option (nat * Q))) (candidate : nat) : option (option (nat * Q)) :=
  match best, distance_sum data indexes candidate with
  | Some (Some (index_median, distance)), Some s =>
      if Qlt_bool s distance then Some (Some (candidate, s)) else best
  | Some None, Some s => Some (Some (candidate, s))
  | _, _ => None
  end.

(** Modelled from the spec: the geometric-median selector of
    [pyclustering.support], on a dataset and a list of indexes into it. *)
Definition geometric_median (data : list point) (indexes : list nat) : option nat :=
  match fold_left (median_step data indexes) indexes (Some None) with
  | Some (Some (index_median, _)) => Some index_median
  | _ => None
  end.

(** ** Sample data *)

(** The eight points of two well separated squares. *)
Definition sample_squares : list point :=
  [[0; 0]; [0; 1]; [1; 0]; [1; 1]; [10; 10]; [10; 11]; [11; 10]; [11; 11]]%Q.

(** Six points on a line. *)
Definition sample_line : list point :=
  [[0]; [1]; [2]; [4]; [5]; [6]]%Q.

(** ** Notions used to state the properties *)

Section Notions.

Variable dist : point -> point -> option Q.

(** Distance from a point to prototype number [index]. *)
Definition distance_to (p : point) (medians : list point) (index : nat) : option Q :=
  match nth_error medians index with
  | Some m => dist p m
  | None => None
  end.

(** Among the prototypes [0 .. bound-1], prototype [c] is at distance [dc]
    from [p], no prototype is nearer, and every earlier one is strictly
    farther: [c] is the first prototype at the minimal distance. *)
Definition first_nearest (p : point) (medians : list point) (bound c : nat) (dc : Q) : Prop :=
  c < bound /\
  distance_to p medians c = Some dc /\
  forall j dj, j < bound -> distance_to p medians j = Some dj ->
               (dc <= dj)%Q /\ (j < c -> (dc < dj)%Q).

(** State of the inner loop after the prototypes [0 .. s-1]. *)
Definition nearest_inv (data medians : list point) (index_point s : nat) (optim : Z * Q) : Prop :=
  (s = 0 /\ optim = ((-1)%Z, 0%Q)) \/
  (exists c p, nth_error data index_point = Some p /\
               fst optim = Z.of_nat c /\
               first_nearest p medians s c (snd optim)).

(** State of the outer loop after the points [0 .. n-1]. *)
Definition assigned_inv (data medians : list point) (n : nat) (clusters : list (list nat)) : Prop :=
  length clusters = length medians /\
  Permutation (concat clusters) (seq 0 n) /\
  (forall c cluster, nth_error clusters c = Some cluster -> StronglySorted lt cluster) /\
  (forall c cluster index_point,
      nth_error clusters c = Some cluster -> In index_point cluster ->
      exists p dc, nth_error data index_point = Some p /\
                   first_nearest p medians (length medians) c dc).

(** [changes] is the greatest of the squared distances between the old and
    the new prototype of the same index: it bounds each of them and is one
    of them. *)
Definition max_displacement (medians updated_centers : list point) (changes : Q) : Prop :=
  (forall index old new d,
      nth_error medians index = Some old ->
      nth_error updated_centers index = Some new ->
      dist old new = Some d -> (d <= changes)%Q) /\
  (exists index old new,
      nth_error medians index = Some old /\
      nth_error updated_centers index = Some new /\
      dist old new = Some changes).

(** The [K] clusters are a strict partition of the indexes [0 .. N-1]:
    their concatenation is a rearrangement of [range(N)] (so no index is
    repeated or left out), every index lies in exactly one cluster, and
    each cluster is in ascending order. *)
Definition strict_partition (N K : nat) (clusters : list (list nat)) : Prop :=
  length clusters = K /\
  Permutation (concat clusters) (range N) /\
  (forall index_point, index_point < N ->
     exists c, (c < K /\ In index_point (nth c clusters [])) /\
               forall c', c' < K /\ In index_point (nth c' clusters []) -> c' = c) /\
  Forall (StronglySorted lt) clusters.

Variable median : list point -> list nat -> option nat.

(** State of the loop of [__update_medians] after the clusters [0 .. n-1]. *)
Definition medians_inv (data : list point) (clusters : list (list nat))
    (n : nat) (medians : list point) : Prop :=
  length medians = length clusters /\
  forall index cluster,
    index < n -> nth_error clusters index = Some cluster ->
    exists meadian_index p,
      median data cluster = Some meadian_index /\
      nth_error data meadian_index = Some p /\
      nth_error medians index = Some p.

(** [n] passes through the body of the [while] loop, after each of which
    the loop goes on ([changes > stop_condition]); the value is the engine
    after the last of them. *)
Fixpoint passes (n : nat) (stop_condition : float) (self : kmedians) : option kmedians :=
  match n with
  | O => Some self
  | S n' =>
      match iteration dist median self with
      | (Ok changes, self') =>
          if exceeds (Finite changes) stop_condition
          then passes n' stop_condition self'
          else None
      | (Raise _, _) => None
      end
  end.

End Notions.

(** ** The engine over a store of list objects

    The model above works on values.  To speak of which list objects a
    method writes to, the same methods are embedded here over a store: every
    Python list is an object with an address, attributes and list elements
    hold references, [append] and item assignment write to the object they
    are applied to, and a list display, a comprehension or a slice creates a
    new object. *)

Module Store.

Inductive value : Type :=
| NoneValue
| Float (q : Q)
| Int (n : nat)
| Ref (address : nat).

(** The list objects, by address; a new object gets the next address. *)
Definition store : Type := list (list value).

Record kmedians : Type := mk_kmedians {
  __pointer_data : value;
  __clusters : value;
  __medians : value;
  __tolerance : float
}.

(** A method body runs on the attributes of [self] and on the store. *)
Definition state : Type := (kmedians * store)%type.

Definition M (A : Type) : Type := state -> result A * state.

Definition ret {A : Type} (a : A) : M A := fun s => (Ok a, s).

Definition bind {A B : Type} (c : M A) (k : A -> M B) : M B :=
  fun s =>
    match c s with
    | (Ok a, s') => k a s'
    | (Raise e, s') => (Raise e, s')
    end.

Definition raise {A : Type} (e : exception) : M A := fun s => (Raise e, s).

Definition lift {A : Type} (r : result A) : M A := fun s => (r, s).

Notation "x <- c ;; k" := (bind c (fun x => k))
  (at level 61, c at next level, right associativity).

Definition attr {A : Type} (field : kmedians -> A) : M A :=
  fun s => (Ok (field (fst s)), s).

Definition set_pointer_data (v : value) : M unit :=
  fun s => (Ok tt,
            (mk_kmedians v (__clusters (fst s)) (__medians (fst s)) (__tolerance (fst s)),
             snd s)).

Definition set_tolerance (t : float) : M unit :=
  fun s => (Ok tt,
            (mk_kmedians (__pointer_data (fst s)) (__clusters (fst s)) (__medians (fst s)) t,
             snd s)).

Definition set_clusters (v : value) : M unit :=
  fun s => (Ok tt,
            (mk_kmedians (__pointer_data (fst s)) v (__medians (fst s)) (__tolerance (fst s)),
             snd s)).

Definition set_medians (v : value) : M unit :=
  fun s => (Ok tt,
            (mk_kmedians (__pointer_data (fst s)) (__clusters (fst s)) v (__tolerance (fst s)),
             snd s)).

(** A new list object with the given elements. *)
Definition alloc (elements : list value) : M value :=
  fun s => (Ok (Ref (length (snd s))), (fst s, snd s ++ [elements])).

(** The elements of the list object that [v] refers to. *)
Definition load (v : value) : M (list value) :=
  fun s =>
    match v with
    | Ref address =>
        match nth_error (snd s) address with
        | Some elements => (Ok elements, s)
        | None => (Raise TypeError, s)
        end
    | _ => (Raise TypeError, s)
    end.

(** Replace the elements of the list object that [v] refers to. *)
Definition save (v : value) (elements : list value) : M unit :=
  fun s =>
    match v with
    | Ref address =>
        if address <? length (snd s)
        then (Ok tt, (fst s, update_at (snd s) address (fun _ => elements)))
        else (Raise TypeError, s)
    | _ => (Raise TypeError, s)
    end.

(** [len(v)] *)
Definition len (v : value) : M nat :=
  elements <- load v ;; ret (length elements).

(** [v[i]] for an index from [range] *)
Definition item (v : value) (i : nat) : M value :=
  elements <- load v ;; lift (getitem elements i).

(** [v[i]] for a signed index *)
Definition item_signed (v : value) (i : Z) : M value :=
  elements <- load v ;;
  j <- lift (normalize_index (length elements) i) ;;
  lift (getitem elements j).

(** [v.append(x)] *)
Definition append (v : value) (x : value) : M unit :=
  elements <- load v ;; save v (elements ++ [x]).

(** [v[i] = x] *)
Definition assign_item (v : value) (i : nat) (x : value) : M unit :=
  elements <- load v ;;
  elements' <- lift (setitem elements i x) ;;
  save v elements'.

(** [v[:]] *)
Definition slice_copy (v : value) : M value :=
  elements <- load v ;; alloc elements.

(** [for x in xs: acc = body(acc, x)] *)
Fixpoint loop {A S : Type} (xs : list A) (body : S -> A -> M S) (acc : S) : M S :=
  match xs with
  | [] => ret acc
  | x :: t => acc' <- body acc x ;; loop t body acc'
  end.

(** The elements of [[f(x) for x in xs]] *)
Fixpoint collect {A B : Type} (f : A -> M B) (xs : list A) : M (list B) :=
  match xs with
  | [] => ret []
  | x :: t => y <- f x ;; ys <- collect f t ;; ret (y :: ys)
  end.

Section Engine.

(** The collaborators read the store and write nothing. *)
Variable support_distance : store -> value -> value -> option Q.
Variable support_median : store -> value -> value -> option nat.

Definition call {A : Type} (f : store -> option A) : M A :=
  fun s => (support (f (snd s)), s).

(** The attributes as the class body sets them. *)
Definition class_attributes : kmedians :=
  {| __pointer_data := NoneValue;
     __clusters := NoneValue;
     __medians := NoneValue;
     __tolerance := Real 0 |}.

(** [__init__]; the caller passes references. *)
Definition __init__ (data initial_centers : value) (tolerance : float) : M unit :=
  _ <- set_pointer_data data ;;
  clusters <- alloc [] ;;
  _ <- set_clusters clusters ;;
  medians <- slice_copy initial_centers ;;
  _ <- set_medians medians ;;
  set_tolerance tolerance.

(** [kmedians(data, initial_centers, tolerance)] from the store [h]. *)
Definition init (data initial_centers : value) (tolerance : float) (h : store) : result unit * state :=
  __init__ data initial_centers tolerance (class_attributes, h).

Definition get_clusters (self : kmedians) : value := __clusters self.

Definition get_centers (self : kmedians) : value := __medians self.

(** [[[] for i in range(n)]]: the elements, then the list itself. *)
Definition empty_lists (n : nat) : M value :=
  elements <- collect (fun _ => alloc []) (range n) ;;
  alloc elements.

Definition nearest_body (index_point : nat) (optim : Z * Q) (index : nat) : M (Z * Q) :=
  data <- attr __pointer_data ;;
  p <- item data index_point ;;
  medians <- attr __medians ;;
  m <- item medians index ;;
  dist <- call (fun h => support_distance h p m) ;;
  if Qlt_bool dist (snd optim) || (index =? 0)
  then ret (Z.of_nat index, dist)
  else ret optim.

Definition assign_point (clusters : value) (_ : unit) (index_point : nat) : M unit :=
  medians <- attr __medians ;;
  K <- len medians ;;
  optim <- loop (range K) (nearest_body index_point) ((-1)%Z, 0%Q) ;;
  cluster <- item_signed clusters (fst optim) ;;
  append cluster (Int index_point).

Definition update_clusters : M value :=
  medians <- attr __medians ;;
  K <- len medians ;;
  clusters <- empty_lists K ;;
  data <- attr __pointer_data ;;
  N <- len data ;;
  _ <- loop (range N) (assign_point clusters) tt ;;
  ret clusters.

Definition median_body (medians : value) (_ : unit) (index : nat) : M unit :=
  data <- attr __pointer_data ;;
  clusters <- attr __clusters ;;
  cluster <- item clusters index ;;
  meadian_index <- call (fun h => support_median h data cluster) ;;
  p <- item data meadian_index ;;
  assign_item medians index p.

Definition update_medians : M value :=
  clusters <- attr __clusters ;;
  K <- len clusters ;;
  medians <- empty_lists K ;;
  _ <- loop (range K) (median_body medians) tt ;;
  ret medians.

Definition displacement (updated_centers : value) (index : nat) : M Q :=
  medians <- attr __medians ;;
  old <- item medians index ;;
  new <- item updated_centers index ;;
  call (fun h => support_distance h old new).

Definition iteration : M Q :=
  clusters <- update_clusters ;;
  _ <- set_clusters clusters ;;
  updated_centers <- update_medians ;;
  medians <- attr __medians ;;
  K <- len medians ;;
  ds <- collect (displacement updated_centers) (range K) ;;
  _ <- alloc (map Float ds) ;;
  changes <- lift (py_max ds) ;;
  _ <- set_medians updated_centers ;;
  ret changes.

Fixpoint process_loop (fuel : nat) (changes : changes_t) (stop_condition : float)
    (s : state) : option (result unit * state) :=
  if exceeds changes stop_condition then
    match fuel with
    | O => None
    | S fuel' =>
        match iteration s with
        | (Ok changes', s') => process_loop fuel' (Finite changes') stop_condition s'
        | (Raise e, s') => Some (Raise e, s')
        end
    end
  else Some (Ok tt, s).

Definition check_dimension : M unit :=
  data <- attr __pointer_data ;;
  p <- item data 0 ;;
  dimension <- len p ;;
  medians <- attr __medians ;;
  m <- item medians 0 ;;
  dimension' <- len m ;;
  if negb (dimension =? dimension') then raise NameError else ret tt.

Definition process (fuel : nat) (s : state) : option (result unit * state) :=
  let changes := Inf in
  let stop_condition := float_mul (__tolerance (fst s)) (__tolerance (fst s)) in
  match check_dimension s with
  | (Ok _, s') => process_loop fuel changes stop_condition s'
  | (Raise e, s') => Some (Raise e, s')
  end.

End Engine.

(** *** Reading values back from the store *)

Definition as_float (v : value) : option Q :=
  match v with Float q => Some q | _ => None end.

Definition as_int (v : value) : option nat :=
  match v with Int n => Some n | _ => None end.

Fixpoint all_some {A : Type} (l : list (option A)) : option (list A) :=
  match l with
  | [] => Some []
  | Some x :: t => option_map (cons x) (all_some t)
  | None :: _ => None
  end.

Definition elements_of (h : store) (v : value) : option (list value) :=
  match v with Ref address => nth_error h address | _ => None end.

Definition point_of (h : store) (v : value) : option point :=
  match elements_of h v with
  | Some elements => all_some (map as_float elements)
  | None => None
  end.

Definition points_of (h : store) (v : value) : option (list point) :=
  match elements_of h v with
  | Some elements => all_some (map (point_of h) elements)
  | None => None
  end.

Definition indexes_of (h : store) (v : value) : option (list nat) :=
  match elements_of h v with
  | Some elements => all_some (map as_int elements)
  | None => None
  end.

Definition clusters_of (h : store) (v : value) : option (list (list nat)) :=
  match elements_of h v with
  | Some elements => all_some (map (indexes_of h) elements)
  | None => None
  end.

(** Modelled from the spec: [euclidean_distance_sqrt] of
    [pyclustering.support] on two references to points; it reads the
    coordinates and writes nothing. *)
Definition distance_on (h : store) (a b : value) : option Q :=
  match point_of h a, point_of h b with
  | Some p, Some q => euclidean_distance_sqrt p q
  | _, _ => None
  end.

(** Modelled from the spec: [geometric_median] of [pyclustering.support] on
    references to the dataset and to a list of indexes; it reads them and
    writes nothing. *)
Definition median_on (h : store) (data indexes : value) : option nat :=
  match points_of h data, indexes_of h indexes with
  | Some points, Some l => geometric_median points l
  | _, _ => None
  end.

(** A list of points as the caller builds it: one object per point, then
    the list of their references. *)
Definition alloc_points (points : list point) : M value :=
  elements <- collect (fun p => alloc (map Float p)) points ;;
  alloc elements.

(** The store of a caller that has built the eight points of
    [sample_squares] (the list is at address 8) and the initial centers
    [[0, 0]] and [[1, 1]] (the list is at address 11). *)
Definition sample_store : store :=
  Eval vm_compute in
    snd (snd (alloc_points [[0; 0]; [1; 1]]%Q
                (snd (alloc_points sample_squares (class_attributes, []))))).

(** Every object of [h] is in [h'], at its address and with its elements:
    [h'] is [h] followed by new objects. *)
Definition preserved (h h' : store) : Prop := exists fresh, h' = h ++ fresh.

(** A computation that leaves the attributes and the store as they are. *)
Definition readonly {A : Type} (c : M A) : Prop := forall s, snd (c s) = s.

(** From a state in [pre], the computation [c] ends in a state in
    [post a] when it returns [a] and in a state in [exc] when it raises. *)
Definition triple {A : Type} (pre : state -> Prop) (c : M A)
    (post : A -> state -> Prop) (exc : state -> Prop) : Prop :=
  forall s, pre s ->
    match c s with
    | (Ok a, s') => post a s'
    | (Raise _, s') => exc s'
    end.

(** A computation that leaves the attributes [__pointer_data] and
    [__tolerance] as they are. *)
Definition stable {A : Type} (c : M A) : Prop :=
  forall s,
    __pointer_data (fst (snd (c s))) = __pointer_data (fst s) /\
    __tolerance (fst (snd (c s))) = __tolerance (fst s).

(** A computation that assigns no attribute of [self]. *)
Definition keeps_self {A : Type} (c : M A) : Prop :=
  forall s, fst (snd (c s)) = fst s.

(** The objects of [base] are untouched in the state [s]. *)
Definition over (base : store) (s : state) : Prop := preserved base (snd s).

(** [over base], and the list object at [address] holds references to
    objects that are not in [base] and come before [address]. *)
Definition owns (base : store) (address : nat) (elements : list value) (s : state) : Prop :=
  over base s /\
  length base <= address /\
  nth_error (snd s) address = Some elements /\
  forall x, In x elements -> exists j, x = Ref j /\ length base <= j < address.

(** State of the loop of [__update_medians] with the indexes [rest] still to
    do: the attributes are those of [self0], the objects of [base] are
    untouched, and the new list at [address] has [K] elements of which those
    already assigned are elements of the dataset list [data_elements]. *)
Definition filling (base : store) (self0 : kmedians) (data_elements : list value)
    (address K : nat) (rest : list nat) (s : state) : Prop :=
  (over base s /\ fst s = self0) /\
  exists elements,
    nth_error (snd s) address = Some elements /\
    length elements = K /\
    rest = seq (K - length rest) (length rest) /\
    length rest <= K /\
    forall j y, j < K - length rest -> nth_error elements j = Some y -> In y data_elements.

(** What a pass of [process] leaves: the objects of [base] untouched, the
    dataset attribute as it was, and in [__clusters] and [__medians] two list
    objects that are not in [base], the second one holding elements of the
    dataset list only. *)
Definition handed_out (base : store) (data : value) (data_elements : list value)
    (s : state) : Prop :=
  over base s /\
  __pointer_data (fst s) = data /\
  exists clusters_address medians_address elements,
    __clusters (fst s) = Ref clusters_address /\
    __medians (fst s) = Ref medians_address /\
    length base <= clusters_address < length (snd s) /\
    length base <= medians_address < length (snd s) /\
    clusters_address <> medians_address /\
    nth_error (snd s) medians_address = Some elements /\
    forall x, In x elements -> In x data_elements.

End Store.

(** ** The two embeddings side by side *)

(** The attributes of the engine in the state [s] over the store read back
    as the attributes of the engine [a] over values. *)
Definition represents (s : Store.state) (a : kmedians) : Prop :=
  Store.points_of (snd s) (Store.__pointer_data (fst s)) = Some (__pointer_data a) /\
  Store.clusters_of (snd s) (Store.__clusters (fst s)) = Some (__clusters a) /\
  Store.points_of (snd s) (Store.__medians (fst s)) = Some (__medians a) /\
  Store.__tolerance (fst s) = __tolerance a.

(** The list of clusters that [__update_clusters] builds: [K] new list
    objects from the address [lo] on, holding the indexes of the clusters,
    and after them the list of their references. *)
Definition clusters_at (lo : nat) (clusters : list (list nat)) (h : Store.store) : Prop :=
  nth_error h (lo + length clusters) = Some (map Store.Ref (seq lo (length clusters))) /\
  forall j cluster,
    nth_error clusters j = Some cluster ->
    nth_error h (lo + j) = Some (map Store.Int cluster).

(** The list of medians that [__update_medians] fills: its elements are
    other objects, and they read back as the points [medians]. *)
Definition medians_at (address : nat) (medians : list point) (h : Store.store) : Prop :=
  exists elements,
    nth_error h address = Some elements /\
    Forall2 (fun x p => x <> Store.Ref address /\ Store.point_of h x = Some p)
            elements medians.

(** Two runs that correspond: both out of fuel, or both with the same
    outcome and states that correspond. *)
Definition corresponds (base : Store.store) (run_store : option (result unit * Store.state))
    (run_values : option (result unit * kmedians)) : Prop :=
  match run_store, run_values with
  | Some (r, s'), Some (r', a') =>
      r = r' /\ represents s' a' /\ Store.preserved base (snd s')
  | None, None => True
  | _, _ => False
  end.

(** ** Runs of the model *)

(** Two squares, one initial center in each: the clusters are the squares. *)
Example run_two_squares :
  process euclidean_distance_sqrt geometric_median 3
    (init sample_squares [[0; 0]; [10; 10]]%Q (Real (1 # 4)))
  = Some (Ok tt,
          {| __pointer_data := sample_squares;
             __clusters := [[0; 1; 2; 3]; [4; 5; 6; 7]];
             __medians := [[0; 0]; [10; 10]]%Q;
             __tolerance := Real (1 # 4) |}).
Proof. vm_compute. reflexivity. Qed.

(** A single center: one cluster with all the points, around a point of the
    dataset. *)
Example run_single_cluster :
  process euclidean_distance_sqrt geometric_median 3
    (init sample_squares [[0; 0]]%Q (Real (1 # 4)))
  = Some (Ok tt,
          {| __pointer_data := sample_squares;
             __clusters := [[0; 1; 2; 3; 4; 5; 6; 7]];
             __medians := [[1; 1]]%Q;
             __tolerance := Real (1 # 4) |}).
Proof. vm_compute. reflexivity. Qed.

(** Points of dimension 2 and a center of dimension 3: the check fails,
    whatever the fuel, and the engine is as built. *)
Example run_dimension_mismatch :
  process euclidean_distance_sqrt geometric_median 0
    (init sample_squares [[0; 0; 0]]%Q (Real (1 # 4)))
  = Some (Raise NameError, init sample_squares [[0; 0; 0]]%Q (Real (1 # 4))).
Proof. vm_compute. reflexivity. Qed.

(** No center at all: the subscript in the check fails before anything else. *)
Example run_no_center :
  process euclidean_distance_sqrt geometric_median 3 (init sample_squares [] (Real (1 # 4)))
  = Some (Raise IndexError, init sample_squares [] (Real (1 # 4))).
Proof. vm_compute. reflexivity. Qed.

(** The point [[2]] is at squared distance 4 from both [[0]] and [[4]]; it
    goes to the first of them. *)
Example assignment_tie :
  fst (update_clusters euclidean_distance_sqrt (init sample_line [[0]; [4]]%Q (Real 3)))
  = Ok [[0; 1; 2]; [3; 4; 5]].
Proof. vm_compute. reflexivity. Qed.

(** The float 0.1 is [3602879701896397 / 2 ^ 55]; its float product with
    itself is [0.010000000000000002], which is above its exact square. *)
Example tolerance_product_rounds :
  exists stop,
    float_mul (Real (3602879701896397 # 36028797018963968))
              (Real (3602879701896397 # 36028797018963968)) = Real stop /\
    (stop == 1441151880758559 # 144115188075855872)%Q /\
    ((3602879701896397 # 36028797018963968) * (3602879701896397 # 36028797018963968)
     < stop)%Q.
Proof. eexists. split; [vm_compute; reflexivity | split; reflexivity]. Qed.

(** The float product of [2 ^ 600] with itself overflows, and that of
    [2 ^ -600] with itself is zero. *)
Example tolerance_product_overflows :
  float_mul (Real (inject_Z (2 ^ 600))) (Real (inject_Z (2 ^ 600))) = PlusInfinity.
Proof. vm_compute. reflexivity. Qed.

Example tolerance_product_underflows :
  exists stop,
    float_mul (Real (Qpower 2 (-600))) (Real (Qpower 2 (-600))) = Real stop /\
    (stop == 0)%Q.
Proof. eexists. split; [vm_compute; reflexivity | reflexivity]. Qed.

(** With an infinite tolerance, or one that is not a number, [process]
    returns at once: not even [float('inf')] is above the stop condition. *)
Example run_infinite_tolerance :
  process euclidean_distance_sqrt geometric_median 0
    (init sample_squares [[0; 0]; [10; 10]]%Q PlusInfinity)
  = Some (Ok tt, init sample_squares [[0; 0]; [10; 10]]%Q PlusInfinity).
Proof. vm_compute. reflexivity. Qed.

Example run_nan_tolerance :
  process euclidean_distance_sqrt geometric_median 0
    (init sample_squares [[0; 0]; [10; 10]]%Q NotANumber)
  = Some (Ok tt, init sample_squares [[0; 0]; [10; 10]]%Q NotANumber).
Proof. vm_compute. reflexivity. Qed.

(** The loop does not stop within the fuel it is given: no outcome. *)
Example run_out_of_fuel :
  process euclidean_distance_sqrt geometric_median 1
    (init sample_squares [[0; 0]; [1; 1]]%Q (Real (1 # 4))) = None.
Proof. vm_compute. reflexivity. Qed.

(** The model over the store computes the same clusters and centers as the
    model over values (here from [sample_store], whose initial centers are
    [[0, 0]] and [[1, 1]]). *)
Example store_run_agrees :
  match Store.init (Store.Ref 8) (Store.Ref 11) (Real (1 # 4)) Store.sample_store with
  | (Ok _, s1) =>
      match Store.process Store.distance_on Store.median_on 3 s1 with
      | Some (Ok _, (self, h)) =>
          Some (Store.clusters_of h (Store.get_clusters self),
                Store.points_of h (Store.get_centers self))
      | _ => None
      end
  | _ => None
  end
  = match process euclidean_distance_sqrt geometric_median 3
            (init sample_squares [[0; 0]; [1; 1]]%Q (Real (1 # 4))) with
    | Some (Ok _, self) => Some (Some (get_clusters self), Some (get_centers self))
    | _ => None
    end.
Proof. vm_compute. reflexivity. Qed.

(** ** Facts on the Python primitives *)

Lemma Qlt_bool_true (x y : Q) : Qlt_bool x y = true <-> (x < y)%Q.
Proof.
  unfold Qlt_bool. rewrite Qlt_alt.
  destruct (x ?= y)%Q; split; congruence.
Qed.

Lemma Qlt_bool_false (x y : Q) : Qlt_bool x y = false <-> (y <= x)%Q.
Proof.
  split; intro H.
  - apply Qnot_lt_le. intro Hlt. apply Qlt_bool_true in Hlt. congruence.
  - destruct (Qlt_bool x y) eqn:E; [|reflexivity].
    apply Qlt_bool_true in E. exfalso. exact (Qlt_not_le _ _ E H).
Qed.

(** ** Facts on floats *)

(** Not even [float('inf')] exceeds a stop condition that is plus infinity
    or not a number. *)
Lemma exceeds_Inf_false stop :
  exceeds Inf stop = false <-> stop = PlusInfinity \/ stop = NotANumber.
Proof.
  destruct stop; unfold exceeds; split; auto; try discriminate;
    intros [H | H]; discriminate.
Qed.

Lemma exceeds_Inf_Real s : exceeds Inf (Real s) = true.
Proof. reflexivity. Qed.

Lemma exceeds_Finite_Real c s : exceeds (Finite c) (Real s) = Qlt_bool s c.
Proof. reflexivity. Qed.

Lemma round_half_even_nonneg m : (0 <= m)%Q -> (0 <= round_half_even m)%Z.
Proof.
  intro Hm. unfold round_half_even.
  assert (Hp : (0 <= Qnum m)%Z).
  { unfold Qle in Hm. simpl in Hm. lia. }
  assert (Hn : (0 <= Qnum m / Zpos (Qden m))%Z) by (apply Z.div_pos; lia).
  destruct (2 * (Qnum m mod Zpos (Qden m)) ?= Zpos (Qden m))%Z; [|lia|lia].
  destruct (Z.even _); lia.
Qed.

Lemma Qpower_2_pos z : (0 < Qpower 2 z)%Q.
Proof. apply Qpower_0_lt. reflexivity. Qed.

Lemma binary64_magnitude_nonneg a r :
  (0 < a)%Q -> binary64_magnitude a = Some r -> (0 <= r)%Q.
Proof.
  intros Ha. unfold binary64_magnitude.
  set (ulp := Qpower 2 _). set (n := round_half_even _).
  destruct (Qle_bool _ _); [discriminate|].
  intro H. inversion H. subst r.
  apply Qmult_le_0_compat; [|apply Qlt_le_weak, Qpower_2_pos].
  assert (Hn : (0 <= n)%Z).
  { apply round_half_even_nonneg. unfold Qdiv.
    apply Qmult_le_0_compat; [now apply Qlt_le_weak|].
    apply Qinv_le_0_compat, Qlt_le_weak, Qpower_2_pos. }
  unfold Qle. simpl. lia.
Qed.

(** Rounding keeps the sign. *)
Lemma binary64_nonneg q :
  (0 <= q)%Q ->
  binary64 q = PlusInfinity \/ exists s, binary64 q = Real s /\ (0 <= s)%Q.
Proof.
  intro Hq. unfold binary64.
  destruct (q ?= 0)%Q eqn:Hc.
  - right. exists 0%Q. split; [reflexivity | apply Qle_refl].
  - apply Qlt_alt in Hc. exfalso. apply (Qlt_irrefl q).
    eapply Qlt_le_trans; eauto.
  - apply Qgt_alt in Hc.
    destruct (binary64_magnitude q) as [r|] eqn:Hr; auto.
    right. exists r. split; auto. eapply binary64_magnitude_nonneg; eauto.
Qed.

(** The product of a float with itself is not a number, plus infinity, or a
    real number that is not negative. *)
Lemma float_mul_square t :
  float_mul t t = NotANumber \/ float_mul t t = PlusInfinity \/
  exists s, float_mul t t = Real s /\ (0 <= s)%Q.
Proof.
  destruct t as [x| | |]; simpl; auto.
  right. apply binary64_nonneg.
  unfold Qle, Qmult. simpl. nia.
Qed.

Lemma float_mul_opp_opp t : float_mul (float_opp t) (float_opp t) = float_mul t t.
Proof.
  destruct t as [x| | |]; simpl; auto.
  f_equal. unfold Qmult, Qopp. simpl. f_equal. lia.
Qed.

(** A displacement of zero exceeds no product of a float with itself. *)
Lemma square_not_exceeded (z : Q) (t : float) :
  (z == 0)%Q -> exceeds (Finite z) (float_mul t t) = false.
Proof.
  intro Hz.
  destruct (float_mul_square t) as [-> | [-> | (s & -> & Hs)]]; auto.
  rewrite exceeds_Finite_Real. unfold Qlt_bool.
  destruct (s ?= z)%Q eqn:Hc; auto.
  apply Qlt_alt in Hc. rewrite Hz in Hc. exfalso.
  apply (Qlt_irrefl s). eapply Qlt_le_trans; eauto.
Qed.

(** *** How far the float product is from the exact one *)

Section FloatBounds.

Local Open Scope Q_scope.

Lemma two_not_zero : ~ (2 == 0)%Q.
Proof. discriminate. Qed.

Lemma Qpower_2_Z (k : Z) : (0 <= k)%Z -> inject_Z (2 ^ k) == 2 ^ k.
Proof. intro Hk. now rewrite Zpower_Qpower. Qed.

(** [floor_log2 a] is the exponent of the binade of [a]. *)
Lemma floor_log2_spec (a : Q) :
  0 < a -> 2 ^ floor_log2 a <= a /\ a < 2 ^ (floor_log2 a + 1).
Proof.
  intro Ha. destruct a as [n d].
  assert (Hn : (0 < n)%Z) by (unfold Qlt in Ha; simpl in Ha; lia).
  pose proof (Z.log2_spec n Hn) as [Hn1 Hn2].
  pose proof (Z.log2_spec (Zpos d) (Pos2Z.is_pos d)) as [Hd1 Hd2].
  pose proof (Z.log2_nonneg n) as Hln.
  pose proof (Z.log2_nonneg (Zpos d)) as Hld.
  set (ln := Z.log2 n) in *. set (ld := Z.log2 (Zpos d)) in *.
  assert (Hlow : 2 ^ (ln - ld - 1) < n # d).
  { replace (ln - ld - 1)%Z with (ln - (ld + 1))%Z by lia.
    rewrite Qpower_minus by exact two_not_zero.
    rewrite <- !Qpower_2_Z by lia.
    rewrite (Qmake_Qdiv n d).
    apply Qlt_shift_div_l; [unfold Qlt, inject_Z; simpl; lia|].
    unfold Qdiv. rewrite <- Qmult_assoc, (Qmult_comm (/ _)), Qmult_assoc.
    apply Qlt_shift_div_r; [unfold Qlt, inject_Z; simpl; lia|].
    rewrite <- !inject_Z_mult, <- Zlt_Qlt. nia. }
  assert (Hhigh : n # d < 2 ^ (ln - ld + 1)).
  { replace (ln - ld + 1)%Z with (ln + 1 - ld)%Z by lia.
    rewrite Qpower_minus by exact two_not_zero.
    rewrite <- !Qpower_2_Z by lia.
    rewrite (Qmake_Qdiv n d).
    apply Qlt_shift_div_r; [unfold Qlt, inject_Z; simpl; lia|].
    unfold Qdiv. rewrite <- Qmult_assoc, (Qmult_comm (/ _)), Qmult_assoc.
    apply Qlt_shift_div_l; [unfold Qlt, inject_Z; simpl; lia|].
    rewrite <- !inject_Z_mult, <- Zlt_Qlt. nia. }
  unfold floor_log2. cbn [Qnum Qden]. fold ln ld.
  destruct (Qle_bool (2 ^ (ln - ld)) (n # d)) eqn:Htest.
  - apply Qle_bool_iff in Htest. split; assumption.
  - assert (Hlt : n # d < 2 ^ (ln - ld)).
    { apply Qnot_le_lt. intro H. apply Qle_bool_iff in H. congruence. }
    replace (ln - ld - 1 + 1)%Z with (ln - ld)%Z by lia.
    split; [now apply Qlt_le_weak | exact Hlt].
Qed.

(** [round_half_even] is within one half of its argument, and not below
    an integer that its argument is not below. *)
Lemma round_half_even_spec (m : Q) :
  2 * m - 1 <= 2 * inject_Z (round_half_even m) /\
  2 * inject_Z (round_half_even m) <= 2 * m + 1.
Proof.
  destruct m as [p d]. unfold round_half_even. cbn [Qnum Qden].
  pose proof (Z.div_mod p (Zpos d) ltac:(lia)) as Hdm.
  pose proof (Z.mod_pos_bound p (Zpos d) ltac:(lia)) as Hr.
  set (n := (p / Zpos d)%Z) in *. set (r := (p mod Zpos d)%Z) in *.
  clearbody n r.
  assert (Hcases : forall k : Z,
            (2 * p - Zpos d <= 2 * k * Zpos d)%Z -> (2 * k * Zpos d <= 2 * p + Zpos d)%Z ->
            2 * (p # d) - 1 <= 2 * inject_Z k /\ 2 * inject_Z k <= 2 * (p # d) + 1).
  { intros k H1 H2. unfold Qle, Qmult, Qminus, Qplus, Qopp, inject_Z.
    cbn [Qnum Qden]. rewrite ?Pos2Z.inj_mul. split; nia. }
  pose proof (Pos2Z.is_pos d) as HD.
  set (D := Zpos d) in *. clearbody D. subst p.
  destruct (2 * r ?= D)%Z eqn:Hc.
  - apply Z.compare_eq in Hc.
    destruct (Z.even n); apply Hcases; lia.
  - rewrite Z.compare_lt_iff in Hc. apply Hcases; lia.
  - rewrite Z.compare_gt_iff in Hc. apply Hcases; lia.
Qed.

Lemma round_half_even_ge (m : Q) (k : Z) :
  inject_Z k <= m -> (k <= round_half_even m)%Z.
Proof.
  destruct m as [p d]. unfold round_half_even. cbn [Qnum Qden]. intro Hk.
  assert (Hkp : (k * Zpos d <= p)%Z).
  { unfold Qle, inject_Z in Hk. cbn [Qnum Qden] in Hk. lia. }
  assert (Hn : (k <= p / Zpos d)%Z) by (apply Z.div_le_lower_bound; lia).
  destruct (2 * (p mod Zpos d) ?= Zpos d)%Z; [|lia|lia].
  destruct (Z.even _); lia.
Qed.

(** The two sides of rounding: the result is an integer number of units in
    the last place, within half a unit of the argument, and not below a
    multiple of the unit that the argument is not below. *)
Lemma binary64_magnitude_spec (a : Q) :
  0 < a ->
  exists (n : Z),
    let ulp := 2 ^ (Z.max (floor_log2 a) (-1022) - 52) in
    let r := inject_Z n * ulp in
    binary64_magnitude a = (if Qle_bool (2 ^ 1024) r then None else Some r) /\
    2 * a - ulp <= 2 * r /\ 2 * r <= 2 * a + ulp /\
    forall k : Z, inject_Z k * ulp <= a -> inject_Z k * ulp <= r.
Proof.
  intro Ha. unfold binary64_magnitude.
  set (ulp := 2 ^ (Z.max (floor_log2 a) (-1022) - 52)).
  assert (Hulp : 0 < ulp) by apply Qpower_2_pos.
  exists (round_half_even (a / ulp)). cbv zeta.
  split; [reflexivity|].
  destruct (round_half_even_spec (a / ulp)) as [Hlo Hhi].
  set (n := inject_Z (round_half_even (a / ulp))) in *.
  assert (Hau : a / ulp * ulp == a).
  { unfold Qdiv. rewrite <- Qmult_assoc, (Qmult_comm (/ ulp)), Qmult_inv_r; [ring|].
    intro H. rewrite H in Hulp. discriminate. }
  split; [|split].
  - apply Qmult_le_compat_r with (z := ulp) in Hlo; [|now apply Qlt_le_weak].
    setoid_replace (2 * a - ulp) with ((2 * (a / ulp) - 1) * ulp)
      by (rewrite <- Hau at 1; ring).
    setoid_replace (2 * (n * ulp)) with (2 * n * ulp) by ring.
    exact Hlo.
  - apply Qmult_le_compat_r with (z := ulp) in Hhi; [|now apply Qlt_le_weak].
    setoid_replace (2 * a + ulp) with ((2 * (a / ulp) + 1) * ulp)
      by (rewrite <- Hau at 1; ring).
    setoid_replace (2 * (n * ulp)) with (2 * n * ulp) by ring.
    exact Hhi.
  - intros k Hk. apply Qmult_le_compat_r; [|now apply Qlt_le_weak].
    unfold n. rewrite <- Zle_Qle. apply round_half_even_ge.
    apply Qle_shift_div_l; assumption.
Qed.

Lemma Qle_bool_false (x y : Q) : Qle_bool x y = false <-> y < x.
Proof.
  split; intro H.
  - apply Qnot_le_lt. intro Hle. apply Qle_bool_iff in Hle. congruence.
  - destruct (Qle_bool x y) eqn:E; [|reflexivity].
    apply Qle_bool_iff in E. exfalso. exact (Qlt_not_le _ _ H E).
Qed.

(** A number of at least [2 ^ 1024] overflows. *)
Lemma binary64_magnitude_overflow (a : Q) :
  2 ^ 1024 <= a -> binary64_magnitude a = None.
Proof.
  intro Hbig.
  assert (Ha : 0 < a).
  { eapply Qlt_le_trans; [|exact Hbig]. apply Qpower_2_pos. }
  destruct (floor_log2_spec a Ha) as [Hlow Hhigh].
  assert (Hfl : (1024 <= floor_log2 a)%Z).
  { assert (H : (1024 < floor_log2 a + 1)%Z); [|lia].
    apply Qpower_lt_compat_l_inv with (q := 2); [|reflexivity].
    eapply Qle_lt_trans; eauto. }
  destruct (binary64_magnitude_spec a Ha) as (n & Hrun & _ & _ & Hge).
  cbv zeta in *. rewrite Hrun.
  replace (Z.max (floor_log2 a) (-1022)) with (floor_log2 a) in * by lia.
  set (ulp := 2 ^ (floor_log2 a - 52)) in *.
  assert (Hr : 2 ^ 1024 <= inject_Z n * ulp).
  { apply Qle_trans with (2 ^ floor_log2 a).
    - apply Qpower_le_compat_l; [lia | discriminate].
    - assert (Hk : inject_Z (2 ^ 52) * ulp == 2 ^ floor_log2 a).
      { unfold ulp. rewrite Qpower_2_Z by lia.
        rewrite <- Qpower_plus by exact two_not_zero.
        now replace (52 + (floor_log2 a - 52))%Z with (floor_log2 a) by lia. }
      rewrite <- Hk. apply Hge. now rewrite Hk. }
  apply Qle_bool_iff in Hr. now rewrite Hr.
Qed.

(** A positive number of at most [2 ^ 1023] rounds to a finite number. *)
Lemma binary64_magnitude_finite (a : Q) :
  0 < a -> a <= 2 ^ 1023 ->
  exists r,
    binary64_magnitude a = Some r /\ 0 <= r /\
    (2 ^ (-1022) <= a ->
     (1 - 2 ^ (-53)) * a <= r /\ r <= (1 + 2 ^ (-53)) * a).
Proof.
  intros Ha Hsmall.
  destruct (floor_log2_spec a Ha) as [Hlow Hhigh].
  destruct (binary64_magnitude_spec a Ha) as (n & Hrun & Hlo & Hhi & _).
  cbv zeta in *.
  set (ulp := 2 ^ (Z.max (floor_log2 a) (-1022) - 52)) in *.
  set (r := inject_Z n * ulp) in *.
  assert (Hulp : 0 < ulp) by apply Qpower_2_pos.
  assert (Hulp1 : ulp <= a + 1).
  { destruct (Z.max_spec (floor_log2 a) (-1022)) as [[_ He] | [_ He]]; unfold ulp; rewrite He.
    - apply Qle_trans with (2 ^ 0).
      + apply Qpower_le_compat_l; [lia | discriminate].
      + simpl (2 ^ 0). rewrite <- (Qplus_0_l 1) at 1.
        apply Qplus_le_compat; [now apply Qlt_le_weak | apply Qle_refl].
    - apply Qle_trans with (2 ^ floor_log2 a).
      + apply Qpower_le_compat_l; [lia | discriminate].
      + apply Qle_trans with a; auto.
        rewrite <- (Qplus_0_r a) at 1.
        apply Qplus_le_compat; [apply Qle_refl | discriminate]. }
  assert (Hfin : r < 2 ^ 1024).
  { assert (H2r : 2 * r < 2 * 2 ^ 1024).
    { eapply Qle_lt_trans; [exact Hhi|].
      apply Qle_lt_trans with (2 * a + (a + 1)).
      - apply Qplus_le_compat; [apply Qle_refl | exact Hulp1].
      - apply Qle_lt_trans with (2 * 2 ^ 1023 + (2 ^ 1023 + 1)).
        + apply Qplus_le_compat; [|apply Qplus_le_compat; [exact Hsmall | apply Qle_refl]].
          apply Qmult_le_l; [reflexivity | exact Hsmall].
        + reflexivity. }
    apply Qmult_lt_l in H2r; [exact H2r | reflexivity]. }
  exists r. split; [|split].
  - rewrite Hrun. apply Qle_bool_false in Hfin. now rewrite Hfin.
  - apply Qmult_le_0_compat; [|now apply Qlt_le_weak].
    assert (Hn : (0 <= n)%Z).
    { destruct (Z.le_gt_cases 0 n) as [H | H]; [exact H | exfalso].
      assert (Hneg : 2 * r <= 2 * (inject_Z (-1) * ulp)).
      { apply Qmult_le_l; [reflexivity|]. unfold r.
        apply Qmult_le_compat_r; [|now apply Qlt_le_weak].
        rewrite <- Zle_Qle. lia. }
      assert (Hc : 2 * a - ulp <= 2 * (inject_Z (-1) * ulp)) by (eapply Qle_trans; eauto).
      assert (Hc' : 2 * a + ulp <= 0).
      { setoid_replace (2 * a + ulp) with (2 * a - ulp - 2 * (inject_Z (-1) * ulp))
          by (simpl (inject_Z (-1)); ring).
        setoid_replace 0 with (2 * (inject_Z (-1) * ulp) - 2 * (inject_Z (-1) * ulp)) by ring.
        apply Qplus_le_compat; [exact Hc | apply Qle_refl]. }
      apply (Qlt_not_le _ _ (Qlt_trans 0 ulp (2 * a + ulp) Hulp ltac:(
               rewrite <- (Qplus_0_l ulp) at 1; apply Qplus_lt_le_compat;
               [apply (Qmult_lt_0_compat 2 a); [reflexivity | exact Ha] | apply Qle_refl]))).
      exact Hc'. }
    change 0 with (inject_Z 0). now rewrite <- Zle_Qle.
  - intro Hnormal.
    assert (Hfl : (-1022 <= floor_log2 a)%Z).
    { assert (H : (-1022 < floor_log2 a + 1)%Z); [|lia].
      apply Qpower_lt_compat_l_inv with (q := 2); [|reflexivity].
      eapply Qle_lt_trans; eauto. }
    assert (Hu : ulp <= 2 * 2 ^ (-53) * a).
    { unfold ulp. replace (Z.max (floor_log2 a) (-1022)) with (floor_log2 a) by lia.
      replace (floor_log2 a - 52)%Z with (-52 + floor_log2 a)%Z by lia.
      rewrite Qpower_plus by exact two_not_zero.
      setoid_replace (2 * 2 ^ (-53)) with (2 ^ (-52)) by reflexivity.
      apply Qmult_le_l; [apply Qpower_2_pos | exact Hlow]. }
    split.
    + apply Qmult_le_l with (z := 2); [reflexivity|].
      eapply Qle_trans; [|exact Hlo].
      setoid_replace (2 * ((1 - 2 ^ (-53)) * a)) with (2 * a - 2 * 2 ^ (-53) * a) by ring.
      apply Qplus_le_compat; [apply Qle_refl|]. now apply Qopp_le_compat.
    + apply Qmult_le_l with (z := 2); [reflexivity|].
      eapply Qle_trans; [exact Hhi|].
      setoid_replace (2 * ((1 + 2 ^ (-53)) * a)) with (2 * a + 2 * 2 ^ (-53) * a) by ring.
      apply Qplus_le_compat; [apply Qle_refl | exact Hu].
Qed.

End FloatBounds.

Lemma Qsquare_nonneg (x : Q) : (0 <= x * x)%Q.
Proof. unfold Qle, Qmult. simpl. nia. Qed.

(** The float product of a real tolerance with itself, when the exact
    square is at most [2 ^ 1023]: a real number that is not negative and,
    above the subnormal range, within one part in [2 ^ 53] of the square. *)
Lemma float_mul_square_finite (x : Q) :
  (x * x <= 2 ^ 1023)%Q ->
  exists s,
    float_mul (Real x) (Real x) = Real s /\ (0 <= s)%Q /\
    (2 ^ (-1022) <= x * x ->
     (1 - 2 ^ (-53)) * (x * x) <= s /\ s <= (1 + 2 ^ (-53)) * (x * x))%Q.
Proof.
  intro Hsmall. cbn [float_mul]. unfold binary64.
  destruct (x * x ?= 0)%Q eqn:Hc.
  - exists 0%Q. split; [reflexivity | split; [apply Qle_refl|]].
    intro Hn. exfalso. apply Qeq_alt in Hc. rewrite Hc in Hn.
    exact (Qlt_not_le _ _ (Qpower_2_pos (-1022)) Hn).
  - exfalso. apply Qlt_alt in Hc. exact (Qlt_not_le _ _ Hc (Qsquare_nonneg x)).
  - apply Qgt_alt in Hc.
    destruct (binary64_magnitude_finite (x * x) Hc Hsmall) as (r & -> & Hr & Hacc).
    exists r. auto.
Qed.

(** When the exact square is [2 ^ 1024] or more, the product is infinite. *)
Lemma float_mul_square_overflow (x : Q) :
  (2 ^ 1024 <= x * x)%Q -> float_mul (Real x) (Real x) = PlusInfinity.
Proof.
  intro Hbig. cbn [float_mul]. unfold binary64.
  assert (Hpos : (0 < x * x)%Q).
  { eapply Qlt_le_trans; [|exact Hbig]. apply Qpower_2_pos. }
  apply Qgt_alt in Hpos. rewrite Hpos.
  now rewrite (binary64_magnitude_overflow (x * x) Hbig).
Qed.

(** ** Facts on lists *)

Lemma length_update_at {A : Type} (l : list A) (i : nat) (f : A -> A) :
  length (update_at l i f) = length l.
Proof.
  revert i. induction l as [|x t IH]; intros [|i]; simpl; auto.
Qed.

Lemma nth_error_update_at_eq {A : Type} (l : list A) (i : nat) (f : A -> A) :
  nth_error (update_at l i f) i = option_map f (nth_error l i).
Proof.
  revert i. induction l as [|x t IH]; intros [|i]; simpl; auto.
Qed.

Lemma nth_error_update_at_ne {A : Type} (l : list A) (i j : nat) (f : A -> A) :
  i <> j -> nth_error (update_at l i f) j = nth_error l j.
Proof.
  revert i j. induction l as [|x t IH]; intros [|i] [|j] Hne; simpl; auto.
  congruence.
Qed.

Lemma concat_update_at_append (l : list (list nat)) (i x : nat) :
  i < length l ->
  Permutation (concat (update_at l i (fun c => c ++ [x]))) (x :: concat l).
Proof.
  revert i. induction l as [|c t IH]; intros [|i] Hi; simpl in *; try lia.
  - rewrite <- app_assoc. simpl.
    symmetry. apply Permutation_middle.
  - rewrite (IH i) by lia.
    symmetry. apply (Permutation_middle c (concat t) x).
Qed.

Lemma normalize_index_Ok (len : nat) (i : Z) (j : nat) :
  normalize_index len i = Ok j ->
  j < len /\ (Z.of_nat j = i \/ (i < 0)%Z).
Proof.
  unfold normalize_index.
  destruct (i <? 0)%Z eqn:Hneg;
    destruct ((0 <=? _)%Z && (_ <? _)%Z) eqn:Hin; try discriminate;
    intro H; inversion H; subst; clear H;
    apply andb_prop in Hin; destruct Hin as [H0 H1];
    apply Z.leb_le in H0; apply Z.ltb_lt in H1.
  - apply Z.ltb_lt in Hneg. split; [lia | right; lia].
  - split; [lia | left; lia].
Qed.

Lemma normalize_index_nat (len c : nat) :
  c < len -> normalize_index len (Z.of_nat c) = Ok c.
Proof.
  intro H. unfold normalize_index.
  replace (Z.of_nat c <? 0)%Z with false by (symmetry; apply Z.ltb_ge; lia).
  replace (0 <=? Z.of_nat c)%Z with true by (symmetry; apply Z.leb_le; lia).
  replace (Z.of_nat c <? Z.of_nat len)%Z with true by (symmetry; apply Z.ltb_lt; lia).
  simpl. now rewrite Nat2Z.id.
Qed.

(** Loops over [range]: an invariant indexed by the number of completed
    passes, for a loop that completes... *)
Lemma for_each_seq_partial {St : Type} (body : St -> nat -> result St) (I : nat -> St -> Prop) :
  forall n a acc acc',
    I a acc ->
    (forall i s s', a <= i < a + n -> I i s -> body s i = Ok s' -> I (1 + i) s') ->
    for_each (seq a n) body acc = Ok acc' ->
    I (a + n) acc'.
Proof.
  induction n as [|n IH]; intros a acc acc' H0 Hstep Hrun; simpl in Hrun.
  - inversion Hrun; subst. now rewrite Nat.add_0_r.
  - destruct (body acc a) as [s1|e] eqn:Hb; [|discriminate].
    replace (a + S n) with (S a + n) by lia.
    apply (IH (S a) s1 acc'); auto.
    + apply (Hstep a acc s1); auto. lia.
    + intros i s s' Hi. apply Hstep. lia.
Qed.

(** ... and for a loop each of whose passes is shown to complete. *)
Lemma for_each_seq_total {St : Type} (body : St -> nat -> result St) (I : nat -> St -> Prop) :
  forall n a acc,
    I a acc ->
    (forall i s, a <= i < a + n -> I i s -> exists s', body s i = Ok s' /\ I (1 + i) s') ->
    exists acc', for_each (seq a n) body acc = Ok acc' /\ I (a + n) acc'.
Proof.
  induction n as [|n IH]; intros a acc H0 Hstep; simpl.
  - exists acc. now rewrite Nat.add_0_r.
  - destruct (Hstep a acc) as [s1 [Hb H1]]; auto; [lia|].
    rewrite Hb. replace (a + S n) with (S a + n) by lia.
    apply IH; auto.
    intros i s Hi. apply Hstep. lia.
Qed.

Lemma getitem_Ok {A : Type} (l : list A) (i : nat) (x : A) :
  getitem l i = Ok x <-> nth_error l i = Some x.
Proof.
  unfold getitem. destruct (nth_error l i); split; intro H; inversion H; auto.
Qed.

Lemma support_Ok {A : Type} (o : option A) (x : A) :
  support o = Ok x <-> o = Some x.
Proof.
  destruct o; simpl; split; intro H; inversion H; auto.
Qed.

Lemma rbind_Ok {A B : Type} (r : result A) (k : A -> result B) (b : B) :
  rbind r k = Ok b <-> exists a, r = Ok a /\ k a = Ok b.
Proof.
  destruct r; simpl; split.
  - intro H. eauto.
  - intros [a' [Ha Hk]]. inversion Ha; subst. auto.
  - discriminate.
  - intros [a' [Ha _]]. discriminate.
Qed.

Lemma concat_empties {A : Type} (n a : nat) :
  concat (map (fun _ : nat => @nil A) (seq a n)) = [].
Proof.
  revert a. induction n as [|n IH]; intro a; simpl; auto.
Qed.

Lemma nth_error_empties {A : Type} (n a c : nat) (l : list A) :
  nth_error (map (fun _ : nat => @nil A) (seq a n)) c = Some l -> l = [].
Proof.
  revert a c. induction n as [|n IH]; intros a [|c] H; simpl in H; try discriminate.
  - now inversion H.
  - eauto.
Qed.

Lemma StronglySorted_snoc (l : list nat) (n : nat) :
  StronglySorted lt l -> (forall x, In x l -> x < n) -> StronglySorted lt (l ++ [n]).
Proof.
  induction 1 as [|x t Ht IH Hx]; intro Hb; simpl.
  - repeat constructor.
  - constructor.
    + apply IH. intros y Hy. apply Hb. now right.
    + apply Forall_app. split; auto.
      constructor; [|constructor]. apply Hb. now left.
Qed.

Lemma In_concat_nth_error {A : Type} (ls : list (list A)) (c : nat) (l : list A) (x : A) :
  nth_error ls c = Some l -> In x l -> In x (concat ls).
Proof.
  intros Hc Hx. apply in_concat. exists l. split; auto.
  eapply nth_error_In; eauto.
Qed.

Lemma NoDup_app_disjoint {A : Type} (l1 l2 : list A) (x : A) :
  NoDup (l1 ++ l2) -> In x l1 -> In x l2 -> False.
Proof.
  induction l1 as [|a t IH]; simpl; intros Hnd H1 H2; auto.
  inversion Hnd as [|? ? Hnotin Hrest]; subst.
  destruct H1 as [->|H1].
  - apply Hnotin. apply in_or_app. now right.
  - now apply IH.
Qed.

(** In a family of lists whose concatenation has no duplicates, an element
    lies in one member only. *)
Lemma NoDup_concat_unique {A : Type} (ls : list (list A)) :
  NoDup (concat ls) ->
  forall c1 c2 l1 l2 x,
    nth_error ls c1 = Some l1 -> nth_error ls c2 = Some l2 ->
    In x l1 -> In x l2 -> c1 = c2.
Proof.
  induction ls as [|l t IH]; intros Hnd c1 c2 l1 l2 x H1 H2 Hx1 Hx2.
  - destruct c1; discriminate.
  - simpl in Hnd. apply NoDup_app_remove_l in Hnd as Ht.
    destruct c1 as [|c1], c2 as [|c2]; simpl in H1, H2; auto.
    + inversion H1; subst. exfalso.
      apply (NoDup_app_disjoint _ _ x Hnd); auto.
      eapply In_concat_nth_error; eauto.
    + inversion H2; subst. exfalso.
      apply (NoDup_app_disjoint _ _ x Hnd); auto.
      eapply In_concat_nth_error; eauto.
    + f_equal. eapply IH; eauto.
Qed.

(** ** The assignment step *)

Section Assignment.

Variable dist : point -> point -> option Q.

Lemma first_nearest_unique p medians bound c1 d1 c2 d2 :
  first_nearest dist p medians bound c1 d1 ->
  first_nearest dist p medians bound c2 d2 ->
  c1 = c2.
Proof.
  intros (Hb1 & Hd1 & Hmin1) (Hb2 & Hd2 & Hmin2).
  destruct (Nat.lt_trichotomy c1 c2) as [Hlt | [Heq | Hgt]]; auto; exfalso.
  - destruct (Hmin2 c1 d1 Hb1 Hd1) as [_ Hs]. specialize (Hs Hlt).
    destruct (Hmin1 c2 d2 Hb2 Hd2) as [Hle _].
    exact (Qlt_not_le _ _ Hs Hle).
  - destruct (Hmin1 c2 d2 Hb2 Hd2) as [_ Hs]. specialize (Hs Hgt).
    destruct (Hmin2 c1 d1 Hb1 Hd1) as [Hle _].
    exact (Qlt_not_le _ _ Hs Hle).
Qed.

Lemma nearest_body_inv data medians index_point i optim optim' :
  nearest_inv dist data medians index_point i optim ->
  nearest_body dist data medians index_point optim i = Ok optim' ->
  nearest_inv dist data medians index_point (1 + i) optim'.
Proof.
  intros Hinv Hbody. unfold nearest_body in Hbody.
  apply rbind_Ok in Hbody as (p & Hp & Hbody). apply getitem_Ok in Hp.
  apply rbind_Ok in Hbody as (m & Hm & Hbody). apply getitem_Ok in Hm.
  apply rbind_Ok in Hbody as (d & Hd & Hbody). apply support_Ok in Hd.
  assert (Hdi : distance_to dist p medians i = Some d)
    by (unfold distance_to; now rewrite Hm).
  right.
  destruct (Qlt_bool d (snd optim) || (i =? 0)) eqn:Htest;
    inversion Hbody; subst optim'; clear Hbody.
  - (* the prototype [i] becomes the best one *)
    exists i, p. simpl. split; [auto | split; [auto | split; [lia | split; [auto|]]]].
    intros j dj Hj Hdj.
    destruct (Nat.eq_dec j i) as [->|Hne].
    + rewrite Hdi in Hdj. inversion Hdj; subst. split; [apply Qle_refl | lia].
    + destruct Hinv as [[-> _] | (c & p' & Hp' & _ & _ & _ & Hmin)]; [lia|].
      rewrite Hp in Hp'. inversion Hp'; subst p'.
      apply orb_prop in Htest. destruct Htest as [Hlt | Hz].
      * apply Qlt_bool_true in Hlt.
        destruct (Hmin j dj) as [Hle _]; auto; [lia|].
        assert (Hs : (d < dj)%Q) by (eapply Qlt_le_trans; eauto).
        split; [now apply Qlt_le_weak | auto].
      * apply Nat.eqb_eq in Hz. lia.
  - (* the best prototype so far stays *)
    apply orb_false_elim in Htest. destruct Htest as [Hge Hnz].
    apply Qlt_bool_false in Hge. apply Nat.eqb_neq in Hnz.
    destruct Hinv as [[-> _] | (c & p' & Hp' & Hc & Hcb & Hdc & Hmin)]; [lia|].
    rewrite Hp in Hp'. inversion Hp'; subst p'.
    exists c, p. split; [auto | split; [auto | split; [lia | split; [auto|]]]].
    intros j dj Hj Hdj.
    destruct (Nat.eq_dec j i) as [->|Hne].
    + rewrite Hdi in Hdj. inversion Hdj; subst. split; [exact Hge | lia].
    + apply (Hmin j dj); auto. lia.
Qed.

Lemma nearest_loop_inv data medians index_point optim :
  for_each (range (length medians)) (nearest_body dist data medians index_point)
           ((-1)%Z, 0%Q) = Ok optim ->
  nearest_inv dist data medians index_point (length medians) optim.
Proof.
  intro Hrun.
  apply (for_each_seq_partial (nearest_body dist data medians index_point)
           (nearest_inv dist data medians index_point)
           (length medians) 0 ((-1)%Z, 0%Q) optim); auto.
  - left. auto.
  - intros i s s' _. apply nearest_body_inv.
Qed.

(** The inner loop completes when the distance from the point to every
    prototype is defined. *)
Lemma nearest_loop_total data medians index_point p :
  nth_error data index_point = Some p ->
  (forall m, In m medians -> exists d, dist p m = Some d) ->
  exists optim,
    for_each (range (length medians)) (nearest_body dist data medians index_point)
             ((-1)%Z, 0%Q) = Ok optim.
Proof.
  intros Hp Hdef.
  destruct (for_each_seq_total (nearest_body dist data medians index_point)
              (fun _ _ => True) (length medians) 0 ((-1)%Z, 0%Q)) as (optim & Hrun & _); auto.
  - intros i s [_ Hi] _. simpl in Hi.
    destruct (nth_error medians i) as [m|] eqn:Hm;
      [|apply nth_error_None in Hm; lia].
    destruct (Hdef m) as [d Hd]; [eapply nth_error_In; eauto|].
    unfold nearest_body, getitem. rewrite Hp, Hm. simpl. rewrite Hd. simpl.
    destruct (Qlt_bool d (snd s) || (i =? 0)); eauto.
  - eauto.
Qed.

(** One pass of the outer loop appends the point to the cluster of its
    first nearest prototype. *)
Lemma assign_point_Ok data medians clusters index_point clusters' :
  length clusters = length medians ->
  assign_point dist data medians clusters index_point = Ok clusters' ->
  exists c p dc,
    nth_error data index_point = Some p /\
    first_nearest dist p medians (length medians) c dc /\
    clusters' = update_at clusters c (fun cluster => cluster ++ [index_point]).
Proof.
  intros Hlen Hrun. unfold assign_point in Hrun.
  apply rbind_Ok in Hrun as (optim & Hloop & Hrun).
  apply rbind_Ok in Hrun as (j & Hj & Hrun).
  inversion Hrun; subst clusters'; clear Hrun.
  apply normalize_index_Ok in Hj as [Hjlt Hj].
  apply nearest_loop_inv in Hloop.
  destruct Hloop as [[Hz _] | (c & p & Hp & Hc & Hfirst)]; [lia|].
  exists c, p, (snd optim). split; [auto | split; [auto|]].
  rewrite Hc in Hj. destruct Hj as [Hj | Hj]; [|lia].
  apply Nat2Z.inj in Hj. now subst.
Qed.

Lemma assign_point_total data medians clusters index_point p :
  length clusters = length medians ->
  medians <> [] ->
  nth_error data index_point = Some p ->
  (forall m, In m medians -> exists d, dist p m = Some d) ->
  exists clusters', assign_point dist data medians clusters index_point = Ok clusters'.
Proof.
  intros Hlen Hne Hp Hdef.
  destruct (nearest_loop_total data medians index_point p Hp Hdef) as [optim Hloop].
  unfold assign_point. rewrite Hloop. simpl.
  apply nearest_loop_inv in Hloop.
  destruct Hloop as [[Hz _] | (c & p' & _ & Hc & Hb & _)].
  - destruct medians; [congruence | discriminate].
  - rewrite Hc, normalize_index_nat by lia. simpl. eauto.
Qed.

End Assignment.

Section AssignmentLoop.

Variable dist : point -> point -> option Q.

Lemma assigned_inv_init data medians :
  assigned_inv dist data medians 0 (map (fun _ => []) (range (length medians))).
Proof.
  unfold assigned_inv, range. split; [|split; [|split]].
  - now rewrite length_map, length_seq.
  - rewrite concat_empties. simpl. constructor.
  - intros c cluster Hc. apply nth_error_empties in Hc. subst. constructor.
  - intros c cluster ip Hc Hin. apply nth_error_empties in Hc. subst. destruct Hin.
Qed.

Lemma assigned_inv_step data medians n clusters clusters' :
  assigned_inv dist data medians n clusters ->
  assign_point dist data medians clusters n = Ok clusters' ->
  assigned_inv dist data medians (1 + n) clusters'.
Proof.
  intros (Hlen & Hperm & Hsorted & Hnear) Hrun.
  destruct (assign_point_Ok dist _ _ _ _ _ Hlen Hrun)
    as (c & p & dc & Hp & Hfirst & ->).
  assert (Hc : c < length clusters) by (rewrite Hlen; apply Hfirst).
  assert (Hbelow : forall c' cluster x,
             nth_error clusters c' = Some cluster -> In x cluster -> x < n).
  { intros c' cluster x Hc' Hx.
    assert (Hin : In x (seq 0 n)).
    { eapply Permutation_in; [exact Hperm|]. eapply In_concat_nth_error; eauto. }
    apply in_seq in Hin. lia. }
  split; [|split; [|split]].
  - now rewrite length_update_at.
  - rewrite concat_update_at_append by exact Hc.
    change (1 + n) with (S n). rewrite seq_S. simpl.
    rewrite <- Permutation_cons_append. now constructor.
  - intros c' cluster Hc'.
    destruct (Nat.eq_dec c c') as [<-|Hne].
    + rewrite nth_error_update_at_eq in Hc'.
      destruct (nth_error clusters c) as [old|] eqn:Hold; [|discriminate].
      simpl in Hc'. inversion Hc'; subst cluster.
      apply StronglySorted_snoc; eauto.
    + rewrite nth_error_update_at_ne in Hc' by exact Hne. eauto.
  - intros c' cluster ip Hc' Hin.
    destruct (Nat.eq_dec c c') as [<-|Hne].
    + rewrite nth_error_update_at_eq in Hc'.
      destruct (nth_error clusters c) as [old|] eqn:Hold; [|discriminate].
      simpl in Hc'. inversion Hc'; subst cluster.
      apply in_app_or in Hin. destruct Hin as [Hin | [<- | []]]; eauto.
    + rewrite nth_error_update_at_ne in Hc' by exact Hne. eauto.
Qed.

(** [__update_clusters] leaves the attributes as they are. *)
Lemma update_clusters_frame self : snd (update_clusters dist self) = self.
Proof. reflexivity. Qed.

Lemma update_clusters_inv self clusters self' :
  update_clusters dist self = (Ok clusters, self') ->
  assigned_inv dist (__pointer_data self) (__medians self)
               (length (__pointer_data self)) clusters.
Proof.
  unfold update_clusters, bind, attr, lift. intro Hrun.
  injection Hrun as Hloop _.
  apply (for_each_seq_partial
           (assign_point dist (__pointer_data self) (__medians self))
           (assigned_inv dist (__pointer_data self) (__medians self))
           (length (__pointer_data self)) 0
           (map (fun _ => []) (range (length (__medians self)))) clusters); auto.
  - apply assigned_inv_init.
  - intros i s s' _. apply assigned_inv_step.
Qed.

(** The assignment step completes when there is a prototype and the
    distance from every point to every prototype is defined. *)
Lemma update_clusters_total self :
  __medians self <> [] ->
  (forall p m, In p (__pointer_data self) -> In m (__medians self) ->
               exists d, dist p m = Some d) ->
  exists clusters, update_clusters dist self = (Ok clusters, self).
Proof.
  intros Hne Hdef. unfold update_clusters, bind, attr, lift.
  destruct (for_each_seq_total
              (assign_point dist (__pointer_data self) (__medians self))
              (fun _ clusters => length clusters = length (__medians self))
              (length (__pointer_data self)) 0
              (map (fun _ => []) (range (length (__medians self)))))
    as (clusters & Hrun & _).
  - unfold range. now rewrite length_map, length_seq.
  - intros i s [_ Hi] Hlen. simpl in Hi.
    destruct (nth_error (__pointer_data self) i) as [p|] eqn:Hp;
      [|apply nth_error_None in Hp; lia].
    destruct (assign_point_total dist (__pointer_data self) (__medians self) s i p)
      as [s' Hs']; auto.
    { intros m Hm. apply Hdef; auto. eapply nth_error_In; eauto. }
    exists s'. split; auto.
    destruct (assign_point_Ok dist _ _ _ _ _ Hlen Hs') as (c & _ & _ & _ & _ & ->).
    now rewrite length_update_at.
  - exists clusters. cbv beta iota. unfold range in *. now rewrite Hrun.
Qed.

End AssignmentLoop.

(** ** The update step *)

Lemma setitem_Ok {A : Type} (l : list A) (i : nat) (x : A) (l' : list A) :
  setitem l i x = Ok l' ->
  length l' = length l /\
  nth_error l' i = Some x /\
  (forall j, j <> i -> nth_error l' j = nth_error l j).
Proof.
  unfold setitem. destruct (i <? length l) eqn:Hi; [|discriminate].
  apply Nat.ltb_lt in Hi. intro H. inversion H; subst; clear H.
  split; [apply length_update_at | split].
  - rewrite nth_error_update_at_eq.
    destruct (nth_error l i) eqn:E; auto.
    apply nth_error_None in E. lia.
  - intros j Hj. apply nth_error_update_at_ne. congruence.
Qed.

Section Update.

Variable median : list point -> list nat -> option nat.

Lemma median_body_inv data clusters n medians medians' :
  medians_inv median data clusters n medians ->
  median_body median data clusters medians n = Ok medians' ->
  medians_inv median data clusters (1 + n) medians'.
Proof.
  intros [Hlen Hdone] Hbody. unfold median_body in Hbody.
  apply rbind_Ok in Hbody as (cluster & Hc & Hbody). apply getitem_Ok in Hc.
  apply rbind_Ok in Hbody as (mi & Hmi & Hbody). apply support_Ok in Hmi.
  apply rbind_Ok in Hbody as (p & Hp & Hbody). apply getitem_Ok in Hp.
  apply setitem_Ok in Hbody as (Hlen' & Hn & Hother).
  split; [congruence|].
  intros index cluster' Hindex Hc'.
  destruct (Nat.eq_dec index n) as [->|Hne].
  - rewrite Hc in Hc'. inversion Hc'; subst cluster'. eauto.
  - destruct (Hdone index cluster') as (mi' & p' & ? & ? & ?); auto; [lia|].
    exists mi', p'. rewrite Hother by exact Hne. auto.
Qed.

(** [__update_medians] leaves the attributes as they are. *)
Lemma update_medians_frame self : snd (update_medians median self) = self.
Proof. reflexivity. Qed.

Lemma update_medians_inv self medians self' :
  update_medians median self = (Ok medians, self') ->
  medians_inv median (__pointer_data self) (__clusters self) (length (__clusters self)) medians.
Proof.
  unfold update_medians, bind, attr, lift. intro Hrun.
  injection Hrun as Hloop _.
  apply (for_each_seq_partial
           (median_body median (__pointer_data self) (__clusters self))
           (medians_inv median (__pointer_data self) (__clusters self))
           (length (__clusters self)) 0
           (map (fun _ => []) (range (length (__clusters self)))) medians); auto.
  - split; [unfold range; now rewrite length_map, length_seq | intros; lia].
  - intros i s s' _. apply median_body_inv.
Qed.

(** The update step completes when the collaborator answers, for every
    cluster, with an index of the dataset. *)
Lemma update_medians_total self :
  (forall cluster, In cluster (__clusters self) ->
     exists meadian_index,
       median (__pointer_data self) cluster = Some meadian_index /\
       meadian_index < length (__pointer_data self)) ->
  exists medians, update_medians median self = (Ok medians, self).
Proof.
  intros Hdef. unfold update_medians, bind, attr, lift.
  destruct (for_each_seq_total
              (median_body median (__pointer_data self) (__clusters self))
              (fun _ medians => length medians = length (__clusters self))
              (length (__clusters self)) 0
              (map (fun _ => []) (range (length (__clusters self)))))
    as (medians & Hrun & _).
  - unfold range. now rewrite length_map, length_seq.
  - intros i s [_ Hi] Hlen. simpl in Hi.
    destruct (nth_error (__clusters self) i) as [cluster|] eqn:Hc;
      [|apply nth_error_None in Hc; lia].
    destruct (Hdef cluster) as (mi & Hmi & Hlt); [eapply nth_error_In; eauto|].
    destruct (nth_error (__pointer_data self) mi) as [p|] eqn:Hp;
      [|apply nth_error_None in Hp; lia].
    unfold median_body, getitem, setitem. rewrite Hc. simpl. rewrite Hmi. simpl.
    rewrite Hp. simpl.
    replace (i <? length s) with true by (symmetry; apply Nat.ltb_lt; lia).
    eexists. split; [reflexivity|]. now rewrite length_update_at.
  - exists medians. cbv beta iota. unfold range in *. now rewrite Hrun.
Qed.

End Update.

(** ** The convergence loop *)

Lemma fold_max_spec (t : list Q) (x : Q) :
  let r := fold_left (fun best y => if Qlt_bool best y then y else best) t x in
  In r (x :: t) /\ forall y, In y (x :: t) -> (y <= r)%Q.
Proof.
  revert x. induction t as [|z t IH]; intro x; simpl.
  - split; [now left | intros y [<-|[]]; apply Qle_refl].
  - destruct (Qlt_bool x z) eqn:Hxz.
    + apply Qlt_bool_true in Hxz.
      destruct (IH z) as [Hin Hmax]. simpl in Hin, Hmax. split.
      * destruct Hin as [Hin | Hin]; auto.
      * intros y [<- | [<- | Hy]]; auto.
        apply Qle_trans with z; [now apply Qlt_le_weak | auto].
    + apply Qlt_bool_false in Hxz.
      destruct (IH x) as [Hin Hmax]. simpl in Hin, Hmax. split.
      * destruct Hin as [Hin | Hin]; auto.
      * intros y [<- | [<- | Hy]]; auto.
        apply Qle_trans with x; auto.
Qed.

Lemma py_max_Ok (xs : list Q) (c : Q) :
  py_max xs = Ok c -> In c xs /\ forall y, In y xs -> (y <= c)%Q.
Proof.
  destruct xs as [|x t]; simpl; [discriminate|].
  intro H. inversion H; subst; clear H. apply fold_max_spec.
Qed.

Lemma comprehension_Ok {A B : Type} (f : A -> result B) (xs : list A) (ys : list B) :
  comprehension f xs = Ok ys -> Forall2 (fun x y => f x = Ok y) xs ys.
Proof.
  revert ys. induction xs as [|x t IH]; simpl; intros ys H.
  - inversion H. constructor.
  - destruct (f x) as [y|] eqn:Hx; [|discriminate].
    destruct (comprehension f t) as [ys'|]; [|discriminate].
    inversion H; subst. constructor; auto.
Qed.

Lemma Forall2_In_r {A B : Type} (R : A -> B -> Prop) (xs : list A) (ys : list B) (y : B) :
  Forall2 R xs ys -> In y ys -> exists x, In x xs /\ R x y.
Proof.
  induction 1 as [|x y' xs ys Hxy _ IH]; simpl; intros Hin; [contradiction|].
  destruct Hin as [<- | Hin].
  - exists x. auto.
  - destruct (IH Hin) as (x' & ? & ?). exists x'. auto.
Qed.

Lemma Forall2_In_l {A B : Type} (R : A -> B -> Prop) (xs : list A) (ys : list B) (x : A) :
  Forall2 R xs ys -> In x xs -> exists y, In y ys /\ R x y.
Proof.
  induction 1 as [|x' y xs ys Hxy _ IH]; simpl; intros Hin; [contradiction|].
  destruct Hin as [<- | Hin].
  - exists y. auto.
  - destruct (IH Hin) as (y' & ? & ?). exists y'. auto.
Qed.

Section Loop.

Variable dist : point -> point -> option Q.
Variable median : list point -> list nat -> option nat.

(** [max] over the displacements is their greatest value. *)
Lemma displacements_max medians updated_centers ds changes :
  displacements dist medians updated_centers = Ok ds ->
  py_max ds = Ok changes ->
  max_displacement dist medians updated_centers changes.
Proof.
  intros Hds Hmax. unfold displacements in Hds.
  apply comprehension_Ok in Hds. apply py_max_Ok in Hmax as [Hin Hle].
  split.
  - intros index old new d Hold Hnew Hd.
    assert (Hidx : In index (range (length medians))).
    { apply in_seq. split; [lia|]. simpl. apply nth_error_Some. congruence. }
    destruct (Forall2_In_l _ _ _ _ Hds Hidx) as (y & Hy & Hf).
    unfold getitem in Hf. rewrite Hold, Hnew in Hf. simpl in Hf.
    rewrite Hd in Hf. simpl in Hf. inversion Hf; subst. auto.
  - destruct (Forall2_In_r _ _ _ _ Hds Hin) as (index & _ & Hf).
    apply rbind_Ok in Hf as (old & Hold & Hf). apply getitem_Ok in Hold.
    apply rbind_Ok in Hf as (new & Hnew & Hf). apply getitem_Ok in Hnew.
    apply support_Ok in Hf. eauto 6.
Qed.

(** What a completed pass of the loop body has done. *)
Lemma iteration_Ok self changes self' :
  iteration dist median self = (Ok changes, self') ->
  exists clusters updated_centers ds,
    update_clusters dist self = (Ok clusters, self) /\
    update_medians median
      (mk_kmedians (__pointer_data self) clusters (__medians self) (__tolerance self))
    = (Ok updated_centers,
       mk_kmedians (__pointer_data self) clusters (__medians self) (__tolerance self)) /\
    displacements dist (__medians self) updated_centers = Ok ds /\
    py_max ds = Ok changes /\
    self' = mk_kmedians (__pointer_data self) clusters updated_centers (__tolerance self).
Proof.
  unfold iteration, bind. intro Hrun.
  pose proof (update_clusters_frame dist self) as Hf1.
  destruct (update_clusters dist self) as [[clusters|e] s1] eqn:Huc;
    simpl in Hf1; subst s1; [|discriminate].
  unfold set_clusters in Hrun.
  set (self1 := mk_kmedians _ clusters _ _) in *.
  pose proof (update_medians_frame median self1) as Hf2.
  destruct (update_medians median self1) as [[updated|e] s2] eqn:Hum;
    simpl in Hf2; subst s2; [|discriminate].
  unfold attr, lift in Hrun. simpl in Hrun.
  destruct (displacements dist (__medians self) updated) as [ds|e] eqn:Hds;
    simpl in Hrun; [|discriminate].
  destruct (py_max ds) as [c|e] eqn:Hmax; [|discriminate].
  unfold set_medians, ret in Hrun. simpl in Hrun.
  inversion Hrun; subst. exists clusters, updated, ds. auto.
Qed.

(** A pass that raises leaves the medians, the dataset and the tolerance as
    they were; the clusters are the old ones or freshly assigned ones. *)
Lemma iteration_Raise self e self' :
  iteration dist median self = (Raise e, self') ->
  __pointer_data self' = __pointer_data self /\
  __medians self' = __medians self /\
  __tolerance self' = __tolerance self /\
  (self' = self \/ length (__clusters self') = length (__medians self)).
Proof.
  unfold iteration, bind. intro Hrun.
  pose proof (update_clusters_frame dist self) as Hf1.
  destruct (update_clusters dist self) as [[clusters|e1] s1] eqn:Huc;
    simpl in Hf1; subst s1.
  - apply update_clusters_inv in Huc as (Hlen & _).
    unfold set_clusters in Hrun.
    set (self1 := mk_kmedians _ clusters _ _) in *.
    pose proof (update_medians_frame median self1) as Hf2.
    destruct (update_medians median self1) as [[updated|e2] s2] eqn:Hum;
      simpl in Hf2; subst s2.
    + unfold attr, lift in Hrun. simpl in Hrun.
      destruct (displacements dist (__medians self) updated) as [ds|e3];
        simpl in Hrun.
      * destruct (py_max ds) as [c|e4]; simpl in Hrun; inversion Hrun; subst; simpl; auto.
      * inversion Hrun; subst; simpl; auto.
    + inversion Hrun; subst; simpl; auto.
  - inversion Hrun; subst. auto.
Qed.

Lemma passes_snoc n stop_condition self self_n changes self' :
  passes dist median n stop_condition self = Some self_n ->
  iteration dist median self_n = (Ok changes, self') ->
  exceeds (Finite changes) stop_condition = true ->
  passes dist median (S n) stop_condition self = Some self'.
Proof.
  revert self. induction n as [|n IH]; intros self Hp Hit Hex.
  - simpl in Hp. inversion Hp; subst. simpl. now rewrite Hit, Hex.
  - simpl in Hp. change (passes dist median (S (S n)) stop_condition self)
      with (match iteration dist median self with
            | (Ok c, s1) => if exceeds (Finite c) stop_condition
                            then passes dist median (S n) stop_condition s1 else None
            | (Raise _, _) => None
            end).
    destruct (iteration dist median self) as [[c|e] s1]; [|discriminate].
    destruct (exceeds (Finite c) stop_condition); [|discriminate].
    now apply IH.
Qed.

(** The loop returns after some passes that each left [changes] above the
    stop condition and a last one that did not. *)
Lemma process_loop_returns fuel changes stop_condition self self' :
  process_loop dist median fuel changes stop_condition self = Some (Ok tt, self') <->
  (exceeds changes stop_condition = false /\ self' = self) \/
  (exceeds changes stop_condition = true /\
   exists n self_n last,
     n < fuel /\
     passes dist median n stop_condition self = Some self_n /\
     iteration dist median self_n = (Ok last, self') /\
     exceeds (Finite last) stop_condition = false).
Proof.
  revert changes self. induction fuel as [|fuel IH]; intros changes self; simpl.
  - destruct (exceeds changes stop_condition); split.
    + discriminate.
    + intros [[? _] | (_ & n & ? & ? & ? & _)]; [discriminate | lia].
    + intro H. inversion H. auto.
    + intros [[_ ->] | [? _]]; [reflexivity | discriminate].
  - destruct (exceeds changes stop_condition); split.
    + destruct (iteration dist median self) as [[c|e] s1] eqn:Hit; [|discriminate].
      intro Hrun. apply IH in Hrun. right. split; auto.
      destruct Hrun as [[Hstop ->] | (Hgo & n & self_n & last & Hn & Hp & Hlast & Hstop)].
      * exists 0, self, c. simpl. repeat split; auto. lia.
      * exists (S n), self_n, last. simpl. rewrite Hit, Hgo. repeat split; auto. lia.
    + intros [[? _] | (_ & n & self_n & last & Hn & Hp & Hlast & Hstop)]; [discriminate|].
      destruct n as [|n]; simpl in Hp.
      * inversion Hp; subst self_n. rewrite Hlast. apply IH. auto.
      * destruct (iteration dist median self) as [[c|e] s1]; [|discriminate].
        destruct (exceeds (Finite c) stop_condition) eqn:Hgo; [|discriminate].
        apply IH. right. split; auto.
        exists n, self_n, last. repeat split; auto. lia.
    + intro H. inversion H. auto.
    + intros [[_ ->] | [? _]]; [reflexivity | discriminate].
Qed.

(** More fuel does not change the outcome of a loop that has one. *)
Lemma process_loop_fuel fuel fuel' changes stop_condition self r :
  fuel <= fuel' ->
  process_loop dist median fuel changes stop_condition self = Some r ->
  process_loop dist median fuel' changes stop_condition self = Some r.
Proof.
  revert fuel' changes self. induction fuel as [|fuel IH]; intros fuel' changes self Hle; simpl.
  - destruct (exceeds changes stop_condition) eqn:Hgo; [discriminate|].
    intro H. destruct fuel'; simpl; now rewrite Hgo.
  - destruct fuel' as [|fuel']; [lia|]. simpl.
    destruct (exceeds changes stop_condition); auto.
    destruct (iteration dist median self) as [[c|e] s1]; auto.
    apply IH. lia.
Qed.

(** *** No [NameError] from the loop *)

Lemma for_each_no_NameError {A St : Type} (xs : list A) (body : St -> A -> result St) :
  (forall s x, body s x <> Raise NameError) ->
  forall acc, for_each xs body acc <> Raise NameError.
Proof.
  intro Hbody. induction xs as [|x t IH]; intro acc; simpl; [discriminate|].
  destruct (body acc x) as [s|e] eqn:Hb; auto.
  intro H. inversion H; subst. exact (Hbody _ _ Hb).
Qed.

Lemma comprehension_no_NameError {A B : Type} (f : A -> result B) (xs : list A) :
  (forall x, f x <> Raise NameError) ->
  comprehension f xs <> Raise NameError.
Proof.
  intro Hf. induction xs as [|x t IH]; simpl; [discriminate|].
  destruct (f x) as [y|e] eqn:Hx.
  - destruct (comprehension f t) as [ys|e]; [discriminate|].
    intro H. inversion H; subst. now apply IH.
  - intro H. inversion H; subst. exact (Hf _ Hx).
Qed.

Lemma nearest_body_no_NameError data medians index_point optim index :
  nearest_body dist data medians index_point optim index <> Raise NameError.
Proof.
  unfold nearest_body, getitem, support.
  destruct (nth_error data index_point); simpl; [|discriminate].
  destruct (nth_error medians index); simpl; [|discriminate].
  destruct (dist _ _); simpl; [|discriminate].
  destruct (_ || _); discriminate.
Qed.

Lemma assign_point_no_NameError data medians clusters index_point :
  assign_point dist data medians clusters index_point <> Raise NameError.
Proof.
  unfold assign_point.
  pose proof (for_each_no_NameError (range (length medians)) _
                (nearest_body_no_NameError data medians index_point) ((-1)%Z, 0%Q)) as H.
  destruct (for_each _ _ _) as [optim|e]; simpl; [|congruence].
  unfold normalize_index.
  destruct (_ && _)%Z; simpl; discriminate.
Qed.

Lemma median_body_no_NameError data clusters medians index :
  median_body median data clusters medians index <> Raise NameError.
Proof.
  unfold median_body, getitem, support, setitem.
  destruct (nth_error clusters index); simpl; [|discriminate].
  destruct (median _ _); simpl; [|discriminate].
  destruct (nth_error data _); simpl; [|discriminate].
  destruct (_ <? _); discriminate.
Qed.

Lemma displacements_no_NameError medians updated_centers :
  displacements dist medians updated_centers <> Raise NameError.
Proof.
  apply comprehension_no_NameError. intro index. unfold getitem, support.
  destruct (nth_error medians index); simpl; [|discriminate].
  destruct (nth_error updated_centers index); simpl; [|discriminate].
  destruct (dist _ _); discriminate.
Qed.

Lemma iteration_no_NameError self self' :
  iteration dist median self <> (Raise NameError, self').
Proof.
  unfold iteration, bind, update_clusters, update_medians, attr, lift, set_clusters,
    set_medians, ret. simpl.
  pose proof (for_each_no_NameError (range (length (__pointer_data self))) _
                (assign_point_no_NameError (__pointer_data self) (__medians self))
                (map (fun _ => []) (range (length (__medians self))))) as H1.
  destruct (for_each _ _ _) as [clusters|e1]; simpl; [|congruence].
  pose proof (for_each_no_NameError (range (length clusters)) _
                (median_body_no_NameError (__pointer_data self) clusters)
                (map (fun _ => []) (range (length clusters)))) as H2.
  destruct (for_each _ _ _) as [updated|e2]; simpl; [|congruence].
  pose proof (displacements_no_NameError (__medians self) updated) as H3.
  destruct (displacements _ _ _) as [ds|e3]; simpl; [|congruence].
  destruct ds; simpl; discriminate.
Qed.

Lemma process_loop_no_NameError fuel changes stop_condition self self' :
  process_loop dist median fuel changes stop_condition self <> Some (Raise NameError, self').
Proof.
  revert changes self. induction fuel as [|fuel IH]; intros changes self; simpl.
  - destruct (exceeds _ _); discriminate.
  - destruct (exceeds _ _); [|discriminate].
    destruct (iteration dist median self) as [[c|e] s1] eqn:Hit; auto.
    intro H. inversion H; subst. exact (iteration_no_NameError _ _ Hit).
Qed.

End Loop.

(** ** Properties of the assignment step *)

Lemma In_nth_iff {A : Type} (ls : list (list A)) (c : nat) (x : A) :
  In x (nth c ls []) <-> exists l, nth_error ls c = Some l /\ In x l.
Proof.
  split.
  - intro Hin. destruct (nth_error ls c) as [l|] eqn:Hc.
    + exists l. split; auto. now rewrite (nth_error_nth _ _ _ Hc) in Hin.
    + apply nth_error_None in Hc. rewrite nth_overflow in Hin by exact Hc. destruct Hin.
  - intros (l & Hc & Hin). now rewrite (nth_error_nth _ _ _ Hc).
Qed.

Lemma assigned_inv_partition dist data medians clusters :
  assigned_inv dist data medians (length data) clusters ->
  strict_partition (length data) (length medians) clusters.
Proof.
  intros (Hlen & Hperm & Hsorted & _).
  assert (Hnd : NoDup (concat clusters)).
  { eapply Permutation_NoDup; [symmetry; exact Hperm | apply seq_NoDup]. }
  split; [exact Hlen | split; [exact Hperm | split]].
  - intros ip Hip.
    assert (Hin : In ip (concat clusters)).
    { eapply Permutation_in; [symmetry; exact Hperm|]. apply in_seq. lia. }
    apply in_concat in Hin as (cluster & Hcl & Hin).
    apply In_nth_error in Hcl as (c & Hc).
    exists c. split.
    + split.
      * rewrite <- Hlen. apply nth_error_Some. congruence.
      * apply In_nth_iff. eauto.
    + intros c' [_ Hin']. apply In_nth_iff in Hin' as (cluster' & Hc' & Hin').
      eapply (NoDup_concat_unique clusters Hnd); eauto.
  - apply Forall_forall. intros cluster Hcl.
    apply In_nth_error in Hcl as (c & Hc). eauto.
Qed.

Lemma Qeq_not_lt (x y : Q) : (x == y)%Q -> ~ (y < x)%Q.
Proof.
  intros Heq Hlt. rewrite Heq in Hlt. exact (Qlt_irrefl _ Hlt).
Qed.

(** C1: for a dataset and a non-empty sequence of prototypes of matching
    dimension (so that the distance collaborator answers on every pair), the
    assignment step completes, leaves the engine as it is, and puts every
    dataset index into the cluster of the first prototype at the minimal
    squared distance: a point is in cluster [c] exactly when no prototype is
    nearer than prototype [c] and every prototype before [c] is strictly
    farther.  In particular a point at equal distance from the prototypes
    [i < j] is never put into cluster [j], and it is put into cluster [i]
    when that distance is the least one and [i] is the first prototype at
    it. *)
Theorem C1_assignment_first_nearest :
  forall (dist : point -> point -> option Q) (self : kmedians),
    __medians self <> [] ->
    (forall p m, In p (__pointer_data self) -> In m (__medians self) ->
                 length p = length m) ->
    (forall p m, length p = length m -> exists d, dist p m = Some d) ->
    exists clusters,
      update_clusters dist self = (Ok clusters, self) /\
      forall index_point p,
        nth_error (__pointer_data self) index_point = Some p ->
        (forall c,
            In index_point (nth c clusters []) <->
            exists dc, first_nearest dist p (__medians self) (length (__medians self)) c dc) /\
        (forall i j di dj,
            i < j ->
            distance_to dist p (__medians self) i = Some di ->
            distance_to dist p (__medians self) j = Some dj ->
            (di == dj)%Q ->
            ~ In index_point (nth j clusters []) /\
            ((forall k dk, distance_to dist p (__medians self) k = Some dk ->
                           (di <= dk)%Q /\ (k < i -> (di < dk)%Q)) ->
             In index_point (nth i clusters []))).
Proof.
  intros dist self Hne Hdim Hcontract.
  destruct (update_clusters_total dist self Hne) as [clusters Hrun].
  { intros p m Hp Hm. apply Hcontract. now apply Hdim. }
  exists clusters. split; [exact Hrun|].
  pose proof (update_clusters_inv dist _ _ _ Hrun) as Hinv.
  pose proof (assigned_inv_partition _ _ _ _ Hinv) as (_ & _ & Hone & _).
  destruct Hinv as (Hlen & Hperm & Hsorted & Hnear).
  intros ip p Hp.
  assert (Hfwd : forall c, In ip (nth c clusters []) ->
            exists dc, first_nearest dist p (__medians self) (length (__medians self)) c dc).
  { intros c Hin. apply In_nth_iff in Hin as (cluster & Hc & Hin).
    destruct (Hnear c cluster ip Hc Hin) as (p' & dc & Hp' & Hfirst).
    rewrite Hp in Hp'. inversion Hp'; subst p'. eauto. }
  split.
  - intro c. split; [apply Hfwd|].
    intros [dc Hfirst].
    destruct (Hone ip) as (c0 & [Hc0 Hin0] & _).
    { apply nth_error_Some. congruence. }
    destruct (Hfwd c0 Hin0) as [dc0 Hfirst0].
    now rewrite (first_nearest_unique dist _ _ _ _ _ _ _ Hfirst Hfirst0).
  - intros i j di dj Hij Hdi Hdj Heq. split.
    + intro Hin.
      destruct (Hfwd j Hin) as (dc & Hj & Hdc & Hmin).
      rewrite Hdj in Hdc. inversion Hdc; subst dc.
      destruct (Hmin i di) as [_ Hstrict]; auto; [lia|].
      exact (Qeq_not_lt _ _ Heq (Hstrict Hij)).
    + intro Hbest.
      assert (Hi : i < length (__medians self)).
      { unfold distance_to in Hdi.
        destruct (nth_error (__medians self) i) eqn:E; [|discriminate].
        apply nth_error_Some. congruence. }
      destruct (Hone ip) as (c0 & [Hc0 Hin0] & _).
      { apply nth_error_Some. congruence. }
      destruct (Hfwd c0 Hin0) as [dc0 Hfirst0].
      assert (Hfirst : first_nearest dist p (__medians self) (length (__medians self)) i di).
      { split; [exact Hi | split; [exact Hdi|]]. intros k dk _ Hk. now apply Hbest. }
      now rewrite (first_nearest_unique dist _ _ _ _ _ _ _ Hfirst Hfirst0).
Qed.

Lemma euclidean_distance_sqrt_defined (p m : point) :
  length p = length m -> exists d, euclidean_distance_sqrt p m = Some d.
Proof.
  intro H. unfold euclidean_distance_sqrt. rewrite H, Nat.eqb_refl. eauto.
Qed.

Lemma C1_witness :
  exists clusters,
    update_clusters euclidean_distance_sqrt
      (init sample_squares [[0; 0]; [10; 10]]%Q (Real (1 # 4)))
    = (Ok clusters, init sample_squares [[0; 0]; [10; 10]]%Q (Real (1 # 4))) /\
    forall index_point p,
      nth_error sample_squares index_point = Some p ->
      (forall c,
          In index_point (nth c clusters []) <->
          exists dc, first_nearest euclidean_distance_sqrt p [[0; 0]; [10; 10]]%Q 2 c dc) /\
      (forall i j di dj,
          i < j ->
          distance_to euclidean_distance_sqrt p [[0; 0]; [10; 10]]%Q i = Some di ->
          distance_to euclidean_distance_sqrt p [[0; 0]; [10; 10]]%Q j = Some dj ->
          (di == dj)%Q ->
          ~ In index_point (nth j clusters []) /\
          ((forall k dk,
               distance_to euclidean_distance_sqrt p [[0; 0]; [10; 10]]%Q k = Some dk ->
               (di <= dk)%Q /\ (k < i -> (di < dk)%Q)) ->
           In index_point (nth i clusters []))).
Proof.
  apply (C1_assignment_first_nearest euclidean_distance_sqrt
           (init sample_squares [[0; 0]; [10; 10]]%Q (Real (1 # 4)))).
  - simpl. discriminate.
  - simpl. intros p m Hp Hm.
    repeat (destruct Hp as [<- | Hp]; [destruct Hm as [<- | [<- | []]]; reflexivity|]).
    destruct Hp.
  - exact euclidean_distance_sqrt_defined.
Defined.

(** ** Properties of the loop *)

Section LoopProperties.

Variable dist : point -> point -> option Q.
Variable median : list point -> list nat -> option nat.

(** A completed pass keeps the dataset, the tolerance and the number of
    prototypes; the clusters it stores are a strict partition and the
    prototypes it stores are points of the dataset. *)
Lemma iteration_Ok_state self changes self' :
  iteration dist median self = (Ok changes, self') ->
  __pointer_data self' = __pointer_data self /\
  __tolerance self' = __tolerance self /\
  length (__medians self') = length (__medians self) /\
  strict_partition (length (__pointer_data self)) (length (__medians self))
                   (__clusters self') /\
  (forall m, In m (__medians self') -> In m (__pointer_data self)).
Proof.
  intro Hit. apply iteration_Ok in Hit
    as (clusters & updated & ds & Huc & Hum & _ & _ & ->). simpl.
  apply update_clusters_inv in Huc.
  apply update_medians_inv in Hum as [Hlen Hdone]. simpl in Hlen, Hdone.
  pose proof (assigned_inv_partition _ _ _ _ Huc) as Hpart.
  destruct Huc as (Hlenc & _).
  repeat split; try apply Hpart; try congruence.
  intros m Hm. apply In_nth_error in Hm as (index & Hindex).
  assert (Hlt : index < length clusters).
  { rewrite <- Hlen. apply nth_error_Some. congruence. }
  destruct (nth_error clusters index) as [cluster|] eqn:Hc;
    [|apply nth_error_None in Hc; lia].
  destruct (Hdone index cluster Hlt Hc) as (mi & p & _ & Hp & Hm).
  rewrite Hindex in Hm. inversion Hm; subst. eapply nth_error_In; eauto.
Qed.

Lemma passes_state n stop_condition self self_n :
  passes dist median n stop_condition self = Some self_n ->
  __pointer_data self_n = __pointer_data self /\
  __tolerance self_n = __tolerance self /\
  length (__medians self_n) = length (__medians self).
Proof.
  revert self. induction n as [|n IH]; intros self Hp; simpl in Hp.
  - inversion Hp; subst. auto.
  - destruct (iteration dist median self) as [[c|e] s1] eqn:Hit; [|discriminate].
    destruct (exceeds (Finite c) stop_condition); [|discriminate].
    apply iteration_Ok_state in Hit as (Hd & Ht & Hl & _).
    apply IH in Hp as (Hd' & Ht' & Hl'). repeat split; congruence.
Qed.

(** The passes before the last one, one by one. *)
Lemma passes_prefix n stop_condition self self_n :
  passes dist median n stop_condition self = Some self_n ->
  forall k, k < n ->
    exists e_k changes e_k',
      passes dist median k stop_condition self = Some e_k /\
      iteration dist median e_k = (Ok changes, e_k') /\
      exceeds (Finite changes) stop_condition = true /\
      passes dist median (S k) stop_condition self = Some e_k'.
Proof.
  revert self. induction n as [|n IH]; intros self Hp k Hk; [lia|].
  simpl in Hp.
  destruct (iteration dist median self) as [[c|e] s1] eqn:Hit; [|discriminate].
  destruct (exceeds (Finite c) stop_condition) eqn:Hgo; [|discriminate].
  destruct k as [|k].
  - exists self, c, s1. simpl. rewrite Hit, Hgo.
    repeat split; auto.
  - destruct (IH s1 Hp k) as (e_k & ch & e_k' & Hk1 & Hk2 & Hk3 & Hk4); [lia|].
    exists e_k, ch, e_k'. repeat split; auto.
    + simpl. now rewrite Hit, Hgo.
    + change (passes dist median (S (S k)) stop_condition self)
        with (match iteration dist median self with
              | (Ok c, s1) => if exceeds (Finite c) stop_condition
                              then passes dist median (S k) stop_condition s1 else None
              | (Raise _, _) => None
              end).
      now rewrite Hit, Hgo.
Qed.

(** The dimension check touches no attribute; what it ends with tells
    about the first point and the first prototype. *)
Lemma check_dimension_cases self :
  (check_dimension self = (Ok tt, self) /\
   exists p m, nth_error (__pointer_data self) 0 = Some p /\
               nth_error (__medians self) 0 = Some m /\
               length p = length m) \/
  (check_dimension self = (Raise NameError, self) /\
   exists p m, nth_error (__pointer_data self) 0 = Some p /\
               nth_error (__medians self) 0 = Some m /\
               length p <> length m) \/
  (check_dimension self = (Raise IndexError, self) /\
   (__pointer_data self = [] \/ __medians self = [])).
Proof.
  unfold check_dimension, bind, attr, lift, getitem, raise, ret.
  destruct (__pointer_data self) as [|p data]; simpl; auto.
  destruct (__medians self) as [|m medians]; simpl; auto.
  destruct (length p =? length m) eqn:Hlen; simpl.
  - left. apply Nat.eqb_eq in Hlen. eauto 6.
  - right. left. apply Nat.eqb_neq in Hlen. eauto 6.
Qed.

(** A call that returns has passed the check and left the loop: at once,
    with the engine as it was, when even [float('inf')] does not exceed the
    stop condition, and after a last pass otherwise. *)
Lemma process_returns fuel self self' :
  process dist median fuel self = Some (Ok tt, self') ->
  check_dimension self = (Ok tt, self) /\
  ((exceeds Inf (float_mul (__tolerance self) (__tolerance self)) = false /\
    self' = self) \/
   (exceeds Inf (float_mul (__tolerance self) (__tolerance self)) = true /\
    exists n self_n last,
      n < fuel /\
      passes dist median n (float_mul (__tolerance self) (__tolerance self)) self
      = Some self_n /\
      iteration dist median self_n = (Ok last, self') /\
      exceeds (Finite last) (float_mul (__tolerance self) (__tolerance self)) = false)).
Proof.
  unfold process. intro Hrun.
  destruct (check_dimension_cases self) as [[Hc _] | [[Hc _] | [Hc _]]];
    rewrite Hc in Hrun; try discriminate.
  split; auto.
  apply process_loop_returns in Hrun as [[Hgo ->] | [Hgo H]]; auto.
Qed.

(** When the product of the tolerance with itself is a real number, a call
    that returns has made at least one pass: some passes that each left
    [changes] above the product, and a last one that did not. *)
Lemma process_returns_passes fuel self self' stop :
  float_mul (__tolerance self) (__tolerance self) = Real stop ->
  process dist median fuel self = Some (Ok tt, self') ->
  check_dimension self = (Ok tt, self) /\
  exists n self_n last,
    n < fuel /\
    passes dist median n (Real stop) self = Some self_n /\
    iteration dist median self_n = (Ok last, self') /\
    (last <= stop)%Q.
Proof.
  intros Hstop Hrun.
  apply process_returns in Hrun as [Hc Hrun]. split; [exact Hc|].
  rewrite Hstop in Hrun.
  destruct Hrun as [[Hgo _] | (_ & n & self_n & last & Hn & Hp & Hit & Hlast)];
    [discriminate|].
  exists n, self_n, last. repeat split; auto.
  now apply Qlt_bool_false.
Qed.

(** When the product of the tolerance with itself is plus infinity or not a
    number, a call that passes the check returns at once, whatever the fuel,
    with the engine as it was. *)
Lemma process_at_once fuel self :
  float_mul (__tolerance self) (__tolerance self) = PlusInfinity \/
  float_mul (__tolerance self) (__tolerance self) = NotANumber ->
  check_dimension self = (Ok tt, self) ->
  process dist median fuel self = Some (Ok tt, self).
Proof.
  intros Hstop Hc. unfold process. rewrite Hc.
  apply exceeds_Inf_false in Hstop.
  destruct fuel; simpl; now rewrite Hstop.
Qed.

Lemma process_returns_at_once fuel self self' :
  float_mul (__tolerance self) (__tolerance self) = PlusInfinity \/
  float_mul (__tolerance self) (__tolerance self) = NotANumber ->
  process dist median fuel self = Some (Ok tt, self') ->
  self' = self.
Proof.
  intros Hstop Hrun.
  apply process_returns in Hrun as [_ [[_ H] | [Hgo _]]]; [exact H|].
  apply exceeds_Inf_false in Hstop. congruence.
Qed.

End LoopProperties.

(** The clusters of an engine on which [process] has returned after a
    pass. *)
Lemma process_returns_partition dist median fuel self self' stop :
  float_mul (__tolerance self) (__tolerance self) = Real stop ->
  process dist median fuel self = Some (Ok tt, self') ->
  strict_partition (length (__pointer_data self)) (length (__medians self))
                   (__clusters self').
Proof.
  intros Hstop Hrun.
  destruct (process_returns_passes dist median fuel self self' stop Hstop Hrun)
    as (_ & n & self_n & last & _ & Hp & Hit & _).
  apply passes_state in Hp as (Hd & _ & Hl).
  apply iteration_Ok_state in Hit as (_ & _ & _ & Hpart & _).
  now rewrite <- Hd, <- Hl.
Qed.

(** The claim of a partition after every returning [process] fails for a
    tolerance whose product with itself overflows: with the tolerance
    [2 ^ 600] the stop condition is plus infinity, [process] returns without
    a pass, and the engine just built still holds no cluster for its eight
    points and two prototypes. *)
Lemma C2_counterexample :
  process euclidean_distance_sqrt geometric_median 0
    (init sample_squares [[0; 0]; [10; 10]]%Q (Real (inject_Z (2 ^ 600))))
  = Some (Ok tt, init sample_squares [[0; 0]; [10; 10]]%Q (Real (inject_Z (2 ^ 600)))) /\
  ~ strict_partition 8 2
      (get_clusters (init sample_squares [[0; 0]; [10; 10]]%Q (Real (inject_Z (2 ^ 600))))).
Proof.
  split; [vm_compute; reflexivity|].
  intros [Hlen _]. simpl in Hlen. discriminate.
Qed.

(** C2 (amended): after a completed assignment step the clusters are a
    strict partition of the dataset indexes [0 .. N-1] into as many clusters
    as there are prototypes, each cluster in ascending order; and so are the
    clusters of an engine on which [process] has returned, when the float
    product of the tolerance with itself is a real number.  When that product
    is plus infinity or not a number, [process] returns without an assignment
    step and the engine is as it was. *)
Theorem C2_strict_partition :
  forall (dist : point -> point -> option Q)
         (median : list point -> list nat -> option nat)
         (fuel : nat) (self self1 self2 : kmedians) (clusters : list (list nat)),
    (update_clusters dist self = (Ok clusters, self1) ->
     strict_partition (length (__pointer_data self)) (length (__medians self)) clusters) /\
    (process dist median fuel self = Some (Ok tt, self2) ->
     ((exists stop, float_mul (__tolerance self) (__tolerance self) = Real stop) ->
      strict_partition (length (__pointer_data self)) (length (__medians self))
                       (get_clusters self2)) /\
     (float_mul (__tolerance self) (__tolerance self) = PlusInfinity \/
      float_mul (__tolerance self) (__tolerance self) = NotANumber ->
      self2 = self)).
Proof.
  intros dist median fuel self self1 self2 clusters. split.
  - intro Hrun. apply assigned_inv_partition with (dist := dist).
    eapply update_clusters_inv; eauto.
  - intro Hrun. split.
    + intros [stop Hstop]. unfold get_clusters.
      eapply process_returns_partition; eauto.
    + intro Hstop. eapply process_returns_at_once; eauto.
Qed.

Lemma C2_witness :
  strict_partition 8 2 [[0; 1; 2; 3]; [4; 5; 6; 7]] /\
  strict_partition 8 2
    (get_clusters
       (mk_kmedians sample_squares [[0; 1; 2; 3]; [4; 5; 6; 7]] [[0; 0]; [10; 10]]%Q (Real (1 # 4)))) /\
  init sample_squares [[0; 0]; [10; 10]]%Q PlusInfinity
  = init sample_squares [[0; 0]; [10; 10]]%Q PlusInfinity.
Proof.
  split; [|split].
  - apply (C2_strict_partition euclidean_distance_sqrt geometric_median 0
             (init sample_squares [[0; 0]; [10; 10]]%Q (Real (1 # 4)))
             (init sample_squares [[0; 0]; [10; 10]]%Q (Real (1 # 4)))
             (init sample_squares [[0; 0]; [10; 10]]%Q (Real (1 # 4)))
             [[0; 1; 2; 3]; [4; 5; 6; 7]]).
    vm_compute. reflexivity.
  - apply (C2_strict_partition euclidean_distance_sqrt geometric_median 5
             (init sample_squares [[0; 0]; [10; 10]]%Q (Real (1 # 4)))
             (init sample_squares [[0; 0]; [10; 10]]%Q (Real (1 # 4)))
             (mk_kmedians sample_squares [[0; 1; 2; 3]; [4; 5; 6; 7]] [[0; 0]; [10; 10]]%Q (Real (1 # 4)))
             [[0; 1; 2; 3]; [4; 5; 6; 7]]).
    + vm_compute. reflexivity.
    + eexists. vm_compute. reflexivity.
  - apply (C2_strict_partition euclidean_distance_sqrt geometric_median 0
             (init sample_squares [[0; 0]; [10; 10]]%Q PlusInfinity)
             (init sample_squares [[0; 0]; [10; 10]]%Q PlusInfinity)
             (init sample_squares [[0; 0]; [10; 10]]%Q PlusInfinity)
             []).
    + vm_compute. reflexivity.
    + left. reflexivity.
Defined.

(** C3: [process] ends with the dimension-mismatch error ([NameError])
    exactly when the first point of the dataset and the first prototype have
    different lengths.  The amount of fuel plays no role (the check comes
    before the loop), and no other condition leads to this error. *)
Theorem C3_dimension_mismatch_iff :
  forall (dist : point -> point -> option Q)
         (median : list point -> list nat -> option nat)
         (fuel : nat) (self : kmedians),
    (exists self', process dist median fuel self = Some (Raise NameError, self')) <->
    (exists p m, nth_error (__pointer_data self) 0 = Some p /\
                 nth_error (__medians self) 0 = Some m /\
                 length p <> length m).
Proof.
  intros dist median fuel self. unfold process.
  destruct (check_dimension_cases self)
    as [(Hc & p & m & Hp & Hm & Hlen) | [(Hc & Hmis) | (Hc & Hempty)]];
    rewrite Hc; split.
  - intros [self' Hrun]. exfalso.
    exact (process_loop_no_NameError dist median _ _ _ _ _ Hrun).
  - intros (p' & m' & Hp' & Hm' & Hne). congruence.
  - intros _. exact Hmis.
  - intros _. eauto.
  - intros [self' Hrun]. discriminate.
  - intros (p & m & Hp & Hm & _).
    destruct Hempty as [He | He]; rewrite He in *; discriminate.
Qed.

(** C9: a call of [process] that ends with the dimension-mismatch error
    leaves the engine as it found it, so [get_clusters] and [get_centers]
    answer as before the call; on an engine just built they answer the empty
    list of clusters and the initial centers. *)
Theorem C9_mismatch_keeps_state :
  forall (dist : point -> point -> option Q)
         (median : list point -> list nat -> option nat)
         (fuel : nat) (self self' : kmedians),
    process dist median fuel self = Some (Raise NameError, self') ->
    self' = self /\
    get_clusters self' = get_clusters self /\
    get_centers self' = get_centers self /\
    (forall data initial_centers tolerance,
        self = init data initial_centers tolerance ->
        get_clusters self' = [] /\ get_centers self' = initial_centers).
Proof.
  intros dist median fuel self self' Hrun.
  assert (Heq : self' = self).
  { unfold process in Hrun.
    destruct (check_dimension_cases self) as [[Hc _] | [[Hc _] | [Hc _]]];
      rewrite Hc in Hrun.
    - exfalso. exact (process_loop_no_NameError dist median _ _ _ _ _ Hrun).
    - now inversion Hrun.
    - discriminate. }
  subst self'. repeat split; auto; intros; subst; reflexivity.
Qed.

Lemma C9_witness :
  let self := init sample_squares [[0; 0; 0]]%Q (Real (1 # 4)) in
  self = self /\
  get_clusters self = get_clusters self /\
  get_centers self = get_centers self /\
  (forall data initial_centers tolerance,
      self = init data initial_centers tolerance ->
      get_clusters self = [] /\ get_centers self = initial_centers).
Proof.
  apply (C9_mismatch_keeps_state euclidean_distance_sqrt geometric_median 3
           (init sample_squares [[0; 0; 0]]%Q (Real (1 # 4)))
           (init sample_squares [[0; 0; 0]]%Q (Real (1 # 4)))).
  vm_compute. reflexivity.
Defined.

Lemma process_loop_centers_length dist median fuel changes stop_condition self r self' :
  process_loop dist median fuel changes stop_condition self = Some (r, self') ->
  length (__medians self') = length (__medians self).
Proof.
  revert changes self. induction fuel as [|fuel IH]; intros changes self; simpl.
  - destruct (exceeds _ _); [discriminate|]. intro H. now inversion H.
  - destruct (exceeds _ _); [|intro H; now inversion H].
    destruct (iteration dist median self) as [[c|e] s1] eqn:Hit.
    + intro Hrun. apply IH in Hrun.
      apply iteration_Ok_state in Hit as (_ & _ & Hl & _). congruence.
    + intro H. inversion H; subst.
      apply iteration_Raise in Hit as (_ & Hm & _). now rewrite Hm.
Qed.

(** The claim of alignment fails right after construction: the engine holds
    two centers and no cluster.  It also fails after a call of [process]
    that returns without a pass, as with the tolerance [2 ^ 600], whose
    product with itself overflows. *)
Lemma C6_counterexample :
  ~ (length (get_clusters (init sample_squares [[0; 0]; [10; 10]]%Q (Real (1 # 4))))
     = length (get_centers (init sample_squares [[0; 0]; [10; 10]]%Q (Real (1 # 4)))) /\
     length (get_centers (init sample_squares [[0; 0]; [10; 10]]%Q (Real (1 # 4)))) = 2) /\
  exists self',
    process euclidean_distance_sqrt geometric_median 0
      (init sample_squares [[0; 0]; [10; 10]]%Q (Real (inject_Z (2 ^ 600))))
    = Some (Ok tt, self') /\
    length (get_clusters self') <> length (get_centers self').
Proof.
  split.
  - simpl. intros [H _]. discriminate.
  - eexists. split; [vm_compute; reflexivity | simpl; discriminate].
Qed.

(** C6 (amended): an engine built with [K] initial centers holds [K] centers
    and an empty list of clusters; a call of [process], however it ends,
    keeps the number of centers; after a call that returns, the number of
    clusters equals the number of centers when the float product of the
    tolerance with itself is a real number, and the clusters are those held
    before the call when that product is plus infinity or not a number. *)
Theorem C6_alignment_after_process :
  forall (dist : point -> point -> option Q)
         (median : list point -> list nat -> option nat)
         (data : list point) (initial_centers : list point) (tolerance : float)
         (fuel : nat) (self : kmedians) (r : result unit) (self' : kmedians),
    (get_clusters (init data initial_centers tolerance) = [] /\
     length (get_centers (init data initial_centers tolerance)) = length initial_centers) /\
    (process dist median fuel self = Some (r, self') ->
     length (get_centers self') = length (get_centers self) /\
     (r = Ok tt ->
      ((exists stop, float_mul (__tolerance self) (__tolerance self) = Real stop) ->
       length (get_clusters self') = length (get_centers self') /\
       length (get_centers self') = length (get_centers self)) /\
      (float_mul (__tolerance self) (__tolerance self) = PlusInfinity \/
       float_mul (__tolerance self) (__tolerance self) = NotANumber ->
       get_clusters self' = get_clusters self))).
Proof.
  intros dist median data ic tol fuel self r self'. split; [split; reflexivity|].
  intro Hrun.
  assert (Hlen : length (get_centers self') = length (get_centers self)).
  { unfold process in Hrun.
    destruct (check_dimension_cases self) as [[Hc _] | [[Hc _] | [Hc _]]];
      rewrite Hc in Hrun.
    - eapply process_loop_centers_length; eauto.
    - now inversion Hrun.
    - now inversion Hrun. }
  split; [exact Hlen|].
  intros ->. split.
  - intros [stop Hstop]. split; [|exact Hlen].
    destruct (process_returns_partition dist median fuel self self' stop Hstop Hrun)
      as [Hk _].
    unfold get_clusters, get_centers in *. congruence.
  - intro Hstop.
    now rewrite (process_returns_at_once dist median fuel self self' Hstop Hrun).
Qed.

Lemma C6_witness :
  (get_clusters (init sample_squares [[0; 0]; [10; 10]]%Q (Real (1 # 4))) = [] /\
   length (get_centers (init sample_squares [[0; 0]; [10; 10]]%Q (Real (1 # 4)))) = 2) /\
  length [[0; 0]; [10; 10]]%Q = 2 /\
  length [[0; 1; 2; 3]; [4; 5; 6; 7]] = length [[0; 0]; [10; 10]]%Q /\
  length [[0; 0]; [10; 10]]%Q = 2.
Proof.
  pose proof (C6_alignment_after_process euclidean_distance_sqrt geometric_median
                sample_squares [[0; 0]; [10; 10]]%Q (Real (1 # 4)) 4
                (init sample_squares [[0; 0]; [10; 10]]%Q (Real (1 # 4))) (Ok tt)
                (mk_kmedians sample_squares [[0; 1; 2; 3]; [4; 5; 6; 7]]
                             [[0; 0]; [10; 10]]%Q (Real (1 # 4)))) as [Hinit Hrun].
  split; [exact Hinit|].
  destruct Hrun as [Hlen Hok]; [vm_compute; reflexivity|].
  split; [exact Hlen|].
  destruct (Hok eq_refl) as [Hreal _].
  apply Hreal. eexists. vm_compute. reflexivity.
Defined.

(** The claim that the loop ends on the first pass whose [changes] is not
    above the square of the tolerance fails for a tolerance whose product
    with itself overflows: with the tolerance [2 ^ 600] the stop condition is
    plus infinity, [process] returns although no pass was made, and the
    engine it returns (without clusters) is the outcome of no pass at all. *)
Lemma C4_counterexample :
  process euclidean_distance_sqrt geometric_median 0
    (init sample_squares [[0; 0]; [1; 1]]%Q (Real (inject_Z (2 ^ 600))))
  = Some (Ok tt, init sample_squares [[0; 0]; [1; 1]]%Q (Real (inject_Z (2 ^ 600)))) /\
  ~ (exists self_n last,
       iteration euclidean_distance_sqrt geometric_median self_n
       = (Ok last, init sample_squares [[0; 0]; [1; 1]]%Q (Real (inject_Z (2 ^ 600))))).
Proof.
  split; [vm_compute; reflexivity|].
  intros (self_n & last & Hit).
  apply iteration_Ok_state in Hit as (_ & _ & Hl & [Hk _] & _).
  simpl in Hk, Hl. rewrite <- Hl in Hk. discriminate.
Qed.

(** The stop condition is the rounded product, not the exact square: with
    the tolerance 0.1 (the float [3602879701896397 / 2 ^ 55]) the loop is
    left with a value of [changes] that is above the exact square of the
    tolerance. *)
Example loop_left_above_exact_square :
  exists changes,
    ((3602879701896397 # 36028797018963968) * (3602879701896397 # 36028797018963968)
     < changes)%Q /\
    process_loop euclidean_distance_sqrt geometric_median 0 (Finite changes)
      (float_mul (Real (3602879701896397 # 36028797018963968))
                 (Real (3602879701896397 # 36028797018963968)))
      (init sample_squares [[0; 0]; [1; 1]]%Q (Real (3602879701896397 # 36028797018963968)))
    = Some (Ok tt,
            init sample_squares [[0; 0]; [1; 1]]%Q
                 (Real (3602879701896397 # 36028797018963968))).
Proof.
  exists (1441151880758559 # 144115188075855872)%Q.
  split; [reflexivity | vm_compute; reflexivity].
Qed.

(** C4 (amended): the stop condition is the float product of the tolerance
    with itself.  When it is plus infinity or not a number, a call of
    [process] that returns has made no pass and left the engine as it was.
    When it is a real number, a call that returns has made some passes
    through the loop body, after each of which [changes] was above the stop
    condition, and a last pass after which it was not.  In every pass
    [changes] is the greatest squared distance between the old and the new
    prototype of the same index, over all the prototypes, the new prototypes
    being those of the update step on the freshly assigned clusters, stored
    as the engine's prototypes when the pass ends. *)
Theorem C4_convergence_loop :
  forall (dist : point -> point -> option Q)
         (median : list point -> list nat -> option nat)
         (fuel : nat) (self self' : kmedians),
    process dist median fuel self = Some (Ok tt, self') ->
    (((float_mul (__tolerance self) (__tolerance self) = PlusInfinity \/
       float_mul (__tolerance self) (__tolerance self) = NotANumber) /\
      self' = self) \/
     (exists stop n self_n last,
        float_mul (__tolerance self) (__tolerance self) = Real stop /\
        n < fuel /\
        passes dist median n (Real stop) self = Some self_n /\
        (forall k, k < n ->
           exists e_k changes e_k',
             passes dist median k (Real stop) self = Some e_k /\
             iteration dist median e_k = (Ok changes, e_k') /\
             (stop < changes)%Q /\
             passes dist median (S k) (Real stop) self = Some e_k') /\
        iteration dist median self_n = (Ok last, self') /\
        (last <= stop)%Q)) /\
    (forall e changes e',
        iteration dist median e = (Ok changes, e') ->
        exists clusters,
          update_clusters dist e = (Ok clusters, e) /\
          update_medians median
            (mk_kmedians (__pointer_data e) clusters (__medians e) (__tolerance e))
          = (Ok (get_centers e'),
             mk_kmedians (__pointer_data e) clusters (__medians e) (__tolerance e)) /\
          get_clusters e' = clusters /\
          length (get_centers e') = length (get_centers e) /\
          max_displacement dist (get_centers e) (get_centers e') changes).
Proof.
  intros dist median fuel self self' Hrun. split.
  - destruct (float_mul_square (__tolerance self)) as [Hnan | [Hinf | (stop & Hstop & _)]].
    + left. split; auto. eapply process_returns_at_once; eauto.
    + left. split; auto. eapply process_returns_at_once; eauto.
    + right.
      destruct (process_returns_passes dist median fuel self self' stop Hstop Hrun)
        as (_ & n & self_n & last & Hn & Hp & Hit & Hlast).
      exists stop, n, self_n, last.
      split; [exact Hstop | split; [exact Hn | split; [exact Hp | split; [|split; auto]]]].
      intros k Hk.
      destruct (passes_prefix dist median n (Real stop) self self_n Hp k Hk)
        as (e_k & changes & e_k' & H1 & H2 & H3 & H4).
      exists e_k, changes, e_k'. repeat split; auto.
      now apply Qlt_bool_true.
  - intros e changes e' He.
    pose proof (iteration_Ok_state dist median _ _ _ He) as (_ & _ & Hl & _).
    apply iteration_Ok in He as (clusters & updated & ds & Huc & Hum & Hds & Hmax & ->).
    exists clusters. simpl. repeat split; auto.
    + intros index old new d. eapply displacements_max; eauto.
    + eapply displacements_max; eauto.
Qed.

(** C5: when the clusters are non-empty lists of dataset indexes and the
    geometric-median collaborator answers on each of them with one of its
    indexes, the update step completes, leaves the engine (the clusters in
    particular) as it is, and returns one prototype per cluster: the dataset
    point at the index the collaborator gave for that cluster. *)
Theorem C5_update_medians :
  forall (median : list point -> list nat -> option nat) (self : kmedians),
    (forall cluster, In cluster (__clusters self) ->
       cluster <> [] /\
       forall index_point, In index_point cluster -> index_point < length (__pointer_data self)) ->
    (forall cluster, In cluster (__clusters self) -> cluster <> [] ->
       exists meadian_index,
         median (__pointer_data self) cluster = Some meadian_index /\
         In meadian_index cluster) ->
    exists medians,
      update_medians median self = (Ok medians, self) /\
      length medians = length (__clusters self) /\
      forall index cluster,
        nth_error (__clusters self) index = Some cluster ->
        exists meadian_index p,
          median (__pointer_data self) cluster = Some meadian_index /\
          nth_error (__pointer_data self) meadian_index = Some p /\
          nth_error medians index = Some p /\
          In p (__pointer_data self).
Proof.
  intros median self Hclusters Hcontract.
  destruct (update_medians_total median self) as [medians Hrun].
  { intros cluster Hin. destruct (Hclusters cluster Hin) as [Hne Hidx].
    destruct (Hcontract cluster Hin Hne) as (mi & Hmi & Hmem). eauto. }
  exists medians. split; [exact Hrun|].
  apply update_medians_inv in Hrun as [Hlen Hdone]. split; [exact Hlen|].
  intros index cluster Hc.
  destruct (Hdone index cluster) as (mi & p & Hmi & Hp & Hm); auto.
  { apply nth_error_Some. congruence. }
  exists mi, p. repeat split; auto. eapply nth_error_In; eauto.
Qed.

Lemma C4_witness :
  (((float_mul (Real (1 # 4)) (Real (1 # 4)) = PlusInfinity \/
     float_mul (Real (1 # 4)) (Real (1 # 4)) = NotANumber) /\
    mk_kmedians sample_squares [[0; 1; 2; 3]; [4; 5; 6; 7]] [[0; 0]; [10; 10]]%Q (Real (1 # 4))
    = init sample_squares [[0; 0]; [1; 1]]%Q (Real (1 # 4))) \/
   (exists stop n self_n last,
      float_mul (Real (1 # 4)) (Real (1 # 4)) = Real stop /\
      n < 5 /\
      passes euclidean_distance_sqrt geometric_median n (Real stop)
        (init sample_squares [[0; 0]; [1; 1]]%Q (Real (1 # 4))) = Some self_n /\
      (forall k, k < n ->
         exists e_k changes e_k',
           passes euclidean_distance_sqrt geometric_median k (Real stop)
             (init sample_squares [[0; 0]; [1; 1]]%Q (Real (1 # 4))) = Some e_k /\
           iteration euclidean_distance_sqrt geometric_median e_k = (Ok changes, e_k') /\
           (stop < changes)%Q /\
           passes euclidean_distance_sqrt geometric_median (S k) (Real stop)
             (init sample_squares [[0; 0]; [1; 1]]%Q (Real (1 # 4))) = Some e_k') /\
      iteration euclidean_distance_sqrt geometric_median self_n
      = (Ok last,
         mk_kmedians sample_squares [[0; 1; 2; 3]; [4; 5; 6; 7]] [[0; 0]; [10; 10]]%Q
                     (Real (1 # 4))) /\
      (last <= stop)%Q)) /\
  (forall e changes e',
      iteration euclidean_distance_sqrt geometric_median e = (Ok changes, e') ->
      exists clusters,
        update_clusters euclidean_distance_sqrt e = (Ok clusters, e) /\
        update_medians geometric_median
          (mk_kmedians (__pointer_data e) clusters (__medians e) (__tolerance e))
        = (Ok (get_centers e'),
           mk_kmedians (__pointer_data e) clusters (__medians e) (__tolerance e)) /\
        get_clusters e' = clusters /\
        length (get_centers e') = length (get_centers e) /\
        max_displacement euclidean_distance_sqrt (get_centers e) (get_centers e') changes).
Proof.
  apply (C4_convergence_loop euclidean_distance_sqrt geometric_median 5
           (init sample_squares [[0; 0]; [1; 1]]%Q (Real (1 # 4)))
           (mk_kmedians sample_squares [[0; 1; 2; 3]; [4; 5; 6; 7]]
                        [[0; 0]; [10; 10]]%Q (Real (1 # 4)))).
  vm_compute. reflexivity.
Defined.

Lemma C5_witness :
  exists medians,
    update_medians geometric_median
      (mk_kmedians sample_squares [[0; 1; 2]; [3; 4; 5; 6; 7]] [[0; 0]; [1; 1]]%Q (Real (1 # 4)))
    = (Ok medians,
       mk_kmedians sample_squares [[0; 1; 2]; [3; 4; 5; 6; 7]] [[0; 0]; [1; 1]]%Q (Real (1 # 4))) /\
    length medians = 2 /\
    forall index cluster,
      nth_error [[0; 1; 2]; [3; 4; 5; 6; 7]] index = Some cluster ->
      exists meadian_index p,
        geometric_median sample_squares cluster = Some meadian_index /\
        nth_error sample_squares meadian_index = Some p /\
        nth_error medians index = Some p /\
        In p sample_squares.
Proof.
  apply (C5_update_medians geometric_median
           (mk_kmedians sample_squares [[0; 1; 2]; [3; 4; 5; 6; 7]] [[0; 0]; [1; 1]]%Q (Real (1 # 4)))).
  - simpl. intros cluster [<- | [<- | []]]; (split; [discriminate|]);
      simpl; intros i Hi; repeat (destruct Hi as [<- | Hi]; [lia|]); destruct Hi.
  - simpl. intros cluster [<- | [<- | []]] _.
    + exists 0. split; [vm_compute; reflexivity | simpl; auto].
    + exists 4. split; [vm_compute; reflexivity | simpl; auto].
Defined.

(** ** A second call of [process] *)

(** On the six points of [sample_line] with initial centers [[0]], [[1]] and
    tolerance 3, the first call stops after one pass (the second center moved
    from [[1]] to [[4]], a squared distance of 9, which is not above 3 * 3);
    a second call reassigns the points to the moved centers and moves both
    centers again. *)
Lemma C8_counterexample :
  exists self1 self2,
    process euclidean_distance_sqrt geometric_median 2
      (init sample_line [[0]; [1]]%Q (Real 3)) = Some (Ok tt, self1) /\
    process euclidean_distance_sqrt geometric_median 2 self1 = Some (Ok tt, self2) /\
    get_clusters self1 = [[0]; [1; 2; 3; 4; 5]] /\
    get_clusters self2 = [[0; 1; 2]; [3; 4; 5]] /\
    get_clusters self2 <> get_clusters self1 /\
    get_centers self2 <> get_centers self1.
Proof.
  exists (mk_kmedians sample_line [[0]; [1; 2; 3; 4; 5]] [[0]; [4]]%Q (Real 3)).
  exists (mk_kmedians sample_line [[0; 1; 2]; [3; 4; 5]] [[1]; [5]]%Q (Real 3)).
  repeat split; try (vm_compute; reflexivity); vm_compute; discriminate.
Qed.

Lemma comprehension_zero (dist : point -> point -> option Q) (medians : list point)
    (indexes : list nat) :
  (forall p, In p medians -> exists z, dist p p = Some z /\ (z == 0)%Q) ->
  (forall index, In index indexes -> index < length medians) ->
  exists ds,
    comprehension
      (fun index =>
         (old <- getitem medians index ;;
          new <- getitem medians index ;;
          support (dist old new))%result) indexes = Ok ds /\
    length ds = length indexes /\
    forall d, In d ds -> (d == 0)%Q.
Proof.
  intros Hzero.
  set (f := fun index => (old <- getitem medians index ;;
                          new <- getitem medians index ;;
                          support (dist old new))%result).
  induction indexes as [|index t IH]; intro Hidx; simpl.
  - exists []. repeat split; auto. intros d [].
  - destruct IH as (ds & Hds & Hlen & Hall).
    { intros i Hi. apply Hidx. now right. }
    destruct (nth_error medians index) as [p|] eqn:Hp.
    + destruct (Hzero p) as (z & Hz & Hz0); [eapply nth_error_In; eauto|].
      assert (Hf : f index = Ok z).
      { unfold f, getitem. rewrite Hp. simpl. now rewrite Hz. }
      rewrite Hf, Hds.
      exists (z :: ds). repeat split; simpl; auto.
      intros d [<- | Hd]; auto.
    + apply nth_error_None in Hp. specialize (Hidx index (or_introl eq_refl)). lia.
Qed.

(** A pass from an engine whose centers the previous pass did not move
    changes nothing. *)
Lemma iteration_fixed dist median self_n last self1 :
  iteration dist median self_n = (Ok last, self1) ->
  get_centers self_n = get_centers self1 ->
  (forall p, In p (__pointer_data self1) -> exists z, dist p p = Some z /\ (z == 0)%Q) ->
  exists changes,
    iteration dist median self1 = (Ok changes, self1) /\ (changes == 0)%Q.
Proof.
  intros Hit Hsame Hzero.
  pose proof (iteration_Ok_state dist median _ _ _ Hit) as (Hd & _ & _ & _ & Hmem).
  apply iteration_Ok in Hit
    as (clusters & updated & ds & Huc & Hum & Hds & Hmax & ->).
  unfold get_centers in Hsame. simpl in *. rewrite Hsame in *.
  destruct (comprehension_zero dist updated (range (length updated)))
    as (ds0 & Hds0 & Hlen0 & Hall0).
  { intros p Hp. apply Hzero. auto. }
  { intros index Hindex. apply in_seq in Hindex. lia. }
  assert (Hne : ds0 <> []).
  { apply comprehension_Ok in Hds. apply Forall2_length in Hds.
    unfold range in Hds, Hlen0. rewrite length_seq in Hds, Hlen0.
    destruct ds as [|d ds]; [discriminate|].
    destruct ds0; [simpl in *; congruence | discriminate]. }
  destruct (py_max ds0) as [c|e] eqn:Hc; [|destruct ds0; [congruence | discriminate]].
  exists c. split.
  - unfold iteration, bind.
    assert (Huc1 : update_clusters dist
                     (mk_kmedians (__pointer_data self_n) clusters updated (__tolerance self_n))
                   = (Ok clusters,
                      mk_kmedians (__pointer_data self_n) clusters updated (__tolerance self_n))).
    { unfold update_clusters, bind, attr, lift in *. simpl.
      injection Huc as Huc. rewrite Hsame in Huc. now rewrite Huc. }
    rewrite Huc1. unfold set_clusters.
    cbn [__pointer_data __clusters __medians __tolerance]. rewrite Hum.
    unfold attr, lift, displacements.
    cbn [__pointer_data __clusters __medians __tolerance]. rewrite Hds0.
    cbn [rbind]. rewrite Hc. reflexivity.
  - apply Hall0. apply py_max_Ok in Hc. apply Hc.
Qed.

(** C8 (amended): on an engine on which [process] has returned, if the pass
    that produced the final state moved no prototype (the centers before and
    after it are the same), a second call of [process] ends, with a normal
    return or with the dimension-mismatch error, and leaves the engine, hence
    the answers of [get_clusters] and [get_centers], as they were.  The
    distance collaborator is taken to give 0 from a point to itself. *)
Theorem C8_second_call_fixed_point :
  forall (dist : point -> point -> option Q)
         (median : list point -> list nat -> option nat)
         (fuel n fuel2 : nat) (self self_n self1 : kmedians) (last : Q),
    process dist median fuel self = Some (Ok tt, self1) ->
    passes dist median n (float_mul (__tolerance self) (__tolerance self)) self = Some self_n ->
    iteration dist median self_n = (Ok last, self1) ->
    get_centers self_n = get_centers self1 ->
    (forall p, In p (__pointer_data self1) -> exists z, dist p p = Some z /\ (z == 0)%Q) ->
    exists r,
      process dist median (S fuel2) self1 = Some (r, self1) /\
      (r = Ok tt \/ r = Raise NameError).
Proof.
  intros dist median fuel n fuel2 self self_n self1 last _ _ Hit Hsame Hzero.
  destruct (iteration_fixed dist median _ _ _ Hit Hsame Hzero) as (c & Hfix & Hc0).
  pose proof (iteration_Ok_state dist median _ _ _ Hfix) as (_ & _ & _ & _ & Hmem).
  pose proof (square_not_exceeded c (__tolerance self1) Hc0) as Hstop.
  unfold process.
  destruct (check_dimension_cases self1) as [[Hc _] | [[Hc _] | [Hc Hempty]]];
    rewrite Hc.
  - exists (Ok tt). split; [|now left].
    simpl.
    destruct (exceeds Inf (float_mul (__tolerance self1) (__tolerance self1)));
      [|reflexivity].
    rewrite Hfix.
    destruct fuel2; simpl; now rewrite Hstop.
  - exists (Raise NameError). split; [reflexivity | now right].
  - exfalso.
    apply iteration_Ok in Hfix as (clusters & updated & ds & _ & _ & Hds & Hmax & Heq).
    assert (Hm : __medians self1 <> []).
    { intro He. rewrite He in Hds. unfold displacements in Hds. simpl in Hds.
      inversion Hds; subst. discriminate. }
    destruct Hempty as [He | He]; [|contradiction].
    destruct (__medians self1) as [|m ms] eqn:Hms; [contradiction|].
    specialize (Hmem m (or_introl eq_refl)). rewrite He in Hmem. destruct Hmem.
Qed.

Lemma squared_differences_self (p : point) (acc : Q) :
  (fold_left Qplus
     (map (fun ab => (fst ab - snd ab) * (fst ab - snd ab))%Q (combine p p)) acc == acc)%Q.
Proof.
  revert acc. induction p as [|x t IH]; intro acc; simpl.
  - reflexivity.
  - rewrite IH. ring.
Qed.

Lemma euclidean_distance_sqrt_self (p : point) :
  exists z, euclidean_distance_sqrt p p = Some z /\ (z == 0)%Q.
Proof.
  unfold euclidean_distance_sqrt. rewrite Nat.eqb_refl.
  eexists. split; [reflexivity|]. apply squared_differences_self.
Qed.

Lemma C8_witness :
  exists r,
    process euclidean_distance_sqrt geometric_median 1
      (mk_kmedians sample_squares [[0; 1; 2; 3]; [4; 5; 6; 7]] [[0; 0]; [10; 10]]%Q (Real (1 # 4)))
    = Some (r, mk_kmedians sample_squares [[0; 1; 2; 3]; [4; 5; 6; 7]]
                           [[0; 0]; [10; 10]]%Q (Real (1 # 4))) /\
    (r = Ok tt \/ r = Raise NameError).
Proof.
  apply (C8_second_call_fixed_point euclidean_distance_sqrt geometric_median 3 0 0
           (init sample_squares [[0; 0]; [10; 10]]%Q (Real (1 # 4)))
           (init sample_squares [[0; 0]; [10; 10]]%Q (Real (1 # 4)))
           (mk_kmedians sample_squares [[0; 1; 2; 3]; [4; 5; 6; 7]]
                        [[0; 0]; [10; 10]]%Q (Real (1 # 4)))
           0%Q).
  - vm_compute. reflexivity.
  - vm_compute. reflexivity.
  - vm_compute. reflexivity.
  - reflexivity.
  - intros p _. apply euclidean_distance_sqrt_self.
Defined.

(** ** Which objects the methods write to *)

Lemma update_at_app_r {A : Type} (l1 l2 : list A) (i : nat) (f : A -> A) :
  length l1 <= i ->
  update_at (l1 ++ l2) i f = l1 ++ update_at l2 (i - length l1) f.
Proof.
  revert i. induction l1 as [|x t IH]; intros i Hi; simpl in *.
  - now rewrite Nat.sub_0_r.
  - destruct i as [|i]; [lia|]. simpl. f_equal. apply IH. lia.
Qed.

Module StoreFacts.

Import Store.

Lemma preserved_refl h : preserved h h.
Proof. exists []. now rewrite app_nil_r. Qed.

Lemma preserved_trans h1 h2 h3 : preserved h1 h2 -> preserved h2 h3 -> preserved h1 h3.
Proof.
  intros [f1 ->] [f2 ->]. exists (f1 ++ f2). now rewrite app_assoc.
Qed.

Lemma preserved_lookup h h' address elements :
  preserved h h' -> nth_error h address = Some elements ->
  nth_error h' address = Some elements.
Proof.
  intros [fresh ->] H. rewrite nth_error_app1; auto.
  apply nth_error_Some. congruence.
Qed.

Lemma preserved_length h h' : preserved h h' -> length h <= length h'.
Proof. intros [fresh ->]. rewrite length_app. lia. Qed.

Lemma over_alloc base self h elements :
  over base (self, h) -> over base (self, h ++ [elements]).
Proof.
  unfold over. simpl. intros [fresh ->]. exists (fresh ++ [elements]).
  now rewrite app_assoc.
Qed.

Lemma over_save base self h address f :
  over base (self, h) -> length base <= address ->
  over base (self, update_at h address f).
Proof.
  unfold over. simpl. intros [fresh ->] Hle.
  exists (update_at fresh (address - length base) f).
  now apply update_at_app_r.
Qed.

Lemma over_attributes base self self' h : over base (self, h) -> over base (self', h).
Proof. auto. Qed.

(** *** Rules *)

Lemma triple_ret {A : Type} (P : A -> state -> Prop) (E : state -> Prop) (a : A) :
  triple (P a) (ret a) P E.
Proof. intros s Hs. exact Hs. Qed.

Lemma triple_bind {A B : Type} (P : state -> Prop) (c : M A) (Qm : A -> state -> Prop)
    (k : A -> M B) (R : B -> state -> Prop) (E : state -> Prop) :
  triple P c Qm E ->
  (forall a, triple (Qm a) (k a) R E) ->
  triple P (bind c k) R E.
Proof.
  intros Hc Hk s Hs. unfold bind. specialize (Hc s Hs).
  destruct (c s) as [[a|e] s']; auto.
  apply Hk. exact Hc.
Qed.

Lemma triple_weaken {A : Type} (P P' : state -> Prop) (c : M A)
    (Qp Qp' : A -> state -> Prop) (E E' : state -> Prop) :
  triple P' c Qp' E' ->
  (forall s, P s -> P' s) ->
  (forall a s, Qp' a s -> Qp a s) ->
  (forall s, E' s -> E s) ->
  triple P c Qp E.
Proof.
  intros Hc HP HQ HE s Hs. specialize (Hc s (HP s Hs)).
  destruct (c s) as [[a|e] s']; auto.
Qed.

Lemma triple_exists {A X : Type} (P : X -> state -> Prop) (c : M A)
    (Qp : A -> state -> Prop) (E : state -> Prop) :
  (forall x, triple (P x) c Qp E) ->
  triple (fun s => exists x, P x s) c Qp E.
Proof. intros H s [x Hx]. exact (H x s Hx). Qed.

Lemma triple_pure {A : Type} (fact : Prop) (P : state -> Prop) (c : M A)
    (Qp : A -> state -> Prop) (E : state -> Prop) :
  (fact -> triple P c Qp E) ->
  triple (fun s => fact /\ P s) c Qp E.
Proof. intros H s [Hf Hs]. exact (H Hf s Hs). Qed.

Lemma triple_readonly {A : Type} (P : state -> Prop) (c : M A) :
  readonly c -> triple P c (fun _ => P) P.
Proof.
  intros Hro s Hs. specialize (Hro s).
  destruct (c s) as [[a|e] s']; simpl in Hro; now subst.
Qed.

(** A read-only step in front of a computation. *)
Lemma triple_bind_readonly {A B : Type} (P : state -> Prop) (c : M A)
    (k : A -> M B) (R : B -> state -> Prop) (E : state -> Prop) :
  readonly c ->
  (forall s, P s -> E s) ->
  (forall a, triple P (k a) R E) ->
  triple P (bind c k) R E.
Proof.
  intros Hro HPE Hk.
  apply triple_bind with (Qm := fun _ => P); auto.
  eapply triple_weaken; [apply (triple_readonly P c Hro) | auto ..].
Qed.

Lemma triple_loop {A St : Type} (body : St -> A -> M St) (I : list A -> St -> state -> Prop)
    (E : state -> Prop) :
  (forall x rest acc, triple (I (x :: rest) acc) (body acc x) (fun acc' => I rest acc') E) ->
  forall xs acc, triple (I xs acc) (loop xs body acc) (fun acc' => I [] acc') E.
Proof.
  intros Hbody. induction xs as [|x t IH]; intro acc; simpl.
  - apply triple_ret.
  - eapply triple_bind; [apply Hbody|]. intro acc'. apply IH.
Qed.

Lemma triple_collect {A B : Type} (f : A -> M B) (I : list A -> list B -> state -> Prop)
    (E : state -> Prop) :
  (forall x rest done,
      triple (I (x :: rest) done) (f x) (fun y => I rest (done ++ [y])) E) ->
  forall xs done,
    triple (I xs done) (collect f xs) (fun ys => I [] (done ++ ys)) E.
Proof.
  intros Hf. induction xs as [|x t IH]; intro done; simpl.
  - intros s Hs. simpl. now rewrite app_nil_r.
  - eapply triple_bind; [apply Hf|]. intro y.
    eapply triple_bind; [apply IH|]. intro ys.
    intros s Hs. simpl. now rewrite <- app_assoc in Hs.
Qed.

(** *** Read-only computations *)

Lemma readonly_ret {A : Type} (a : A) : readonly (ret a).
Proof. intro s. reflexivity. Qed.

Lemma readonly_raise {A : Type} (e : exception) : readonly (@raise A e).
Proof. intro s. reflexivity. Qed.

Lemma readonly_lift {A : Type} (r : result A) : readonly (lift r).
Proof. intro s. reflexivity. Qed.

Lemma readonly_attr {A : Type} (field : kmedians -> A) : readonly (attr field).
Proof. intro s. reflexivity. Qed.

Lemma readonly_call {A : Type} (f : store -> option A) : readonly (call f).
Proof. intro s. reflexivity. Qed.

Lemma readonly_load v : readonly (load v).
Proof.
  intro s. unfold load. destruct v; auto.
  destruct (nth_error (snd s) address); auto.
Qed.

Lemma readonly_bind {A B : Type} (c : M A) (k : A -> M B) :
  readonly c -> (forall a, readonly (k a)) -> readonly (bind c k).
Proof.
  intros Hc Hk s. unfold bind. specialize (Hc s).
  destruct (c s) as [[a|e] s']; simpl in Hc; subst; auto.
  apply Hk.
Qed.

Lemma readonly_loop {A St : Type} (xs : list A) (body : St -> A -> M St) (acc : St) :
  (forall acc x, readonly (body acc x)) -> readonly (loop xs body acc).
Proof.
  intro Hbody. revert acc. induction xs as [|x t IH]; intro acc; simpl.
  - apply readonly_ret.
  - apply readonly_bind; auto.
Qed.

Lemma readonly_collect {A B : Type} (f : A -> M B) (xs : list A) :
  (forall x, readonly (f x)) -> readonly (collect f xs).
Proof.
  intro Hf. induction xs as [|x t IH]; simpl.
  - apply readonly_ret.
  - apply readonly_bind; auto. intro y.
    apply readonly_bind; auto. intro ys. apply readonly_ret.
Qed.

Lemma readonly_len v : readonly (len v).
Proof.
  apply readonly_bind; [apply readonly_load | intro; apply readonly_ret].
Qed.

Lemma readonly_item v i : readonly (item v i).
Proof.
  apply readonly_bind; [apply readonly_load | intro; apply readonly_lift].
Qed.

Lemma readonly_item_signed v i : readonly (item_signed v i).
Proof.
  apply readonly_bind; [apply readonly_load | intro].
  apply readonly_bind; [apply readonly_lift | intro; apply readonly_lift].
Qed.

Create HintDb ro discriminated.
#[local] Hint Resolve readonly_ret readonly_raise readonly_lift readonly_attr
  readonly_call readonly_load readonly_len readonly_item readonly_item_signed : ro.

(** A read-only step: the condition at hand carries over. *)
Ltac step_ro :=
  apply triple_bind_readonly; [solve [auto with ro] | | intro].

Lemma owns_over base address elements s : owns base address elements s -> over base s.
Proof. intros [H _]. exact H. Qed.

(** *** Allocation *)

Lemma alloc_over base elements :
  triple (over base) (alloc elements) (fun _ => over base) (over base).
Proof.
  intros [self h] Hs. simpl. now apply over_alloc.
Qed.

(** The empty lists of [[[] for i in range(n)]] and the list holding them
    are new objects. *)
Lemma empty_lists_owns base n :
  triple (over base) (empty_lists n)
         (fun v s => exists address elements,
              v = Ref address /\ owns base address elements s)
         (over base).
Proof.
  unfold empty_lists.
  apply triple_bind with
    (Qm := fun elements s =>
             over base s /\
             forall x, In x elements ->
                       exists j, x = Ref j /\ length base <= j < length (snd s)).
  - eapply triple_weaken.
    + apply (triple_collect (fun _ : nat => alloc [])
               (fun _ done s =>
                  over base s /\
                  forall x, In x done ->
                            exists j, x = Ref j /\ length base <= j < length (snd s))
               (over base)) with (done := []).
      intros x rest done [self h] [Hover Hrefs]. simpl in *. split.
      * now apply over_alloc.
      * intros y Hy. rewrite length_app. simpl.
        apply in_app_or in Hy as [Hy | [<- | []]].
        -- destruct (Hrefs y Hy) as (j & -> & Hj). exists j. split; auto. lia.
        -- exists (length h). split; auto.
           apply preserved_length in Hover. simpl in Hover. lia.
    + intros s Hs. split; [exact Hs | intros x []].
    + intros elements s Hs. exact Hs.
    + auto.
  - intros elements [self h] [Hover Hrefs]. simpl in *.
    exists (length h), elements. split; auto.
    split; [now apply over_alloc | split; [|split]].
    + apply preserved_length in Hover. exact Hover.
    + simpl. rewrite nth_error_app2 by lia. now rewrite Nat.sub_diag.
    + exact Hrefs.
Qed.

(** *** Writes *)

Lemma save_over base address elements :
  length base <= address ->
  triple (over base) (save (Ref address) elements) (fun _ => over base) (over base).
Proof.
  intros Hle [self h] Hs. unfold save. simpl.
  destruct (address <? length h); simpl; auto.
  now apply over_save.
Qed.

Lemma append_owns base address elements j x :
  length base <= j < address ->
  triple (owns base address elements) (append (Ref j) x)
         (fun _ => owns base address elements) (over base).
Proof.
  intros Hj. unfold append.
  step_ro; [apply owns_over|].
  intros [self h] (Hover & Hle & Hat & Hrefs). unfold save. simpl in *.
  destruct (j <? length h); simpl; auto.
  split; [apply over_save; auto; lia | split; [exact Hle | split; [|exact Hrefs]]].
  simpl. rewrite nth_error_update_at_ne by lia. exact Hat.
Qed.

Lemma assign_item_over base address i x :
  length base <= address ->
  triple (over base) (assign_item (Ref address) i x) (fun _ => over base) (over base).
Proof.
  intro Hle. unfold assign_item.
  step_ro; [auto|]. step_ro; [auto|].
  now apply save_over.
Qed.

(** [clusters[index_optim]] is one of the references the list holds. *)
Lemma item_signed_owns base address elements i :
  triple (owns base address elements) (item_signed (Ref address) i)
         (fun v s => owns base address elements s /\ In v elements) (over base).
Proof.
  intros [self h] Hs. pose proof Hs as (Hover & Hle & Hat & Hrefs).
  unfold item_signed, bind, load, lift. simpl in *. rewrite Hat.
  destruct (normalize_index (length elements) i) as [j|e]; simpl; auto.
  unfold getitem. destruct (nth_error elements j) as [v|] eqn:Hv; simpl; auto.
  split; auto. eapply nth_error_In; eauto.
Qed.

(** *** The methods *)

Section Methods.

Variable support_distance : store -> value -> value -> option Q.
Variable support_median : store -> value -> value -> option nat.

Lemma readonly_nearest_body index_point optim index :
  readonly (nearest_body support_distance index_point optim index).
Proof.
  unfold nearest_body.
  repeat (apply readonly_bind; [auto with ro | intro]).
  destruct (_ || _); auto with ro.
Qed.

Lemma assign_point_owns base address elements index_point :
  triple (owns base address elements)
         (assign_point support_distance (Ref address) tt index_point)
         (fun _ => owns base address elements) (over base).
Proof.
  unfold assign_point.
  step_ro; [apply owns_over|]. step_ro; [apply owns_over|].
  apply triple_bind_readonly.
  - apply readonly_loop. intros. apply readonly_nearest_body.
  - apply owns_over.
  - intro optim.
    eapply triple_bind; [apply item_signed_owns|].
    intro cluster. intros s [Howns Hin]. pose proof Howns as (_ & _ & _ & Hrefs).
    destruct (Hrefs cluster Hin) as (j & -> & Hj).
    exact (append_owns base address elements j (Int index_point) Hj s Howns).
Qed.

(** [__update_clusters] writes to the lists it has created only. *)
Lemma update_clusters_over base :
  triple (over base) (update_clusters support_distance) (fun _ => over base) (over base).
Proof.
  unfold update_clusters.
  step_ro; [auto|]. step_ro; [auto|].
  eapply triple_bind; [apply empty_lists_owns|].
  intro clusters.
  apply triple_exists; intro address. apply triple_exists; intro elements.
  apply triple_pure; intros ->.
  step_ro; [apply owns_over|]. step_ro; [apply owns_over|].
  eapply triple_bind.
  - apply (triple_loop (assign_point support_distance (Ref address))
             (fun _ _ => owns base address elements) (over base)).
    intros x rest []. apply assign_point_owns.
  - intros _ s Hs. simpl. eapply owns_over; eauto.
Qed.

Lemma median_body_over base address index :
  length base <= address ->
  triple (over base) (median_body support_median (Ref address) tt index)
         (fun _ => over base) (over base).
Proof.
  intro Hle. unfold median_body.
  do 5 (step_ro; [auto|]).
  now apply assign_item_over.
Qed.

(** [__update_medians] writes to the list it has created only. *)
Lemma update_medians_over base :
  triple (over base) (update_medians support_median) (fun _ => over base) (over base).
Proof.
  unfold update_medians.
  step_ro; [auto|]. step_ro; [auto|].
  eapply triple_bind; [apply empty_lists_owns|].
  intro medians.
  apply triple_exists; intro address. apply triple_exists; intro elements.
  apply triple_pure; intros ->.
  apply triple_weaken with (P' := fun s => over base s /\ length base <= address)
                           (Qp' := fun _ => over base) (E' := over base); auto.
  - eapply triple_bind.
    + apply (triple_loop (median_body support_median (Ref address))
               (fun _ _ s => over base s /\ length base <= address) (over base)).
      intros x rest [] s [Hs Hle].
      pose proof (median_body_over base address x Hle s Hs) as H.
      destruct (median_body support_median (Ref address) tt x s) as [[[]|e] s']; auto.
    + intros _ s [Hs _]. exact Hs.
  - intros s (Hover & Hle & _). auto.
Qed.

Lemma set_clusters_over base v :
  triple (over base) (set_clusters v) (fun _ => over base) (over base).
Proof. intros [self h] Hs. exact Hs. Qed.

Lemma set_medians_over base v :
  triple (over base) (set_medians v) (fun _ => over base) (over base).
Proof. intros [self h] Hs. exact Hs. Qed.

Lemma set_pointer_data_over base v :
  triple (over base) (set_pointer_data v) (fun _ => over base) (over base).
Proof. intros [self h] Hs. exact Hs. Qed.

Lemma set_tolerance_over base t :
  triple (over base) (set_tolerance t) (fun _ => over base) (over base).
Proof. intros [self h] Hs. exact Hs. Qed.

Lemma readonly_displacement updated_centers index :
  readonly (displacement support_distance updated_centers index).
Proof.
  unfold displacement.
  repeat (apply readonly_bind; [auto with ro | intro]). auto with ro.
Qed.

(** One pass of the loop of [process]. *)
Lemma iteration_over base :
  triple (over base) (iteration support_distance support_median)
         (fun _ => over base) (over base).
Proof.
  unfold iteration.
  eapply triple_bind; [apply update_clusters_over | intro clusters].
  eapply triple_bind; [apply set_clusters_over | intros ?].
  eapply triple_bind; [apply update_medians_over | intro updated_centers].
  step_ro; [auto|]. step_ro; [auto|].
  apply triple_bind_readonly; [|auto|intro ds].
  { apply readonly_collect. intro. apply readonly_displacement. }
  eapply triple_bind; [apply alloc_over | intros ?].
  step_ro; [auto|].
  eapply triple_bind; [apply set_medians_over | intros ?].
  intros s Hs. exact Hs.
Qed.

Lemma process_loop_over base fuel changes stop_condition s r s' :
  over base s ->
  process_loop support_distance support_median fuel changes stop_condition s
  = Some (r, s') ->
  over base s'.
Proof.
  revert changes s. induction fuel as [|fuel IH]; intros changes s Hs; simpl.
  - destruct (exceeds _ _); [discriminate|]. intro H. now inversion H; subst.
  - destruct (exceeds _ _); [|intro H; now inversion H; subst].
    pose proof (iteration_over base s Hs) as Hit.
    destruct (iteration support_distance support_median s) as [[c|e] s1].
    + now apply IH.
    + intro H. now inversion H; subst.
Qed.

Lemma readonly_check_dimension : readonly check_dimension.
Proof.
  unfold check_dimension.
  repeat (apply readonly_bind; [auto with ro | intro]).
  destruct (negb _); auto with ro.
Qed.

(** [process] writes to no object that exists when it is called. *)
Lemma process_over base fuel s r s' :
  over base s ->
  process support_distance support_median fuel s = Some (r, s') ->
  over base s'.
Proof.
  intros Hs. unfold process.
  pose proof (readonly_check_dimension s) as Hro.
  destruct (check_dimension s) as [[[]|e] s1]; simpl in Hro; subst s1.
  - now apply process_loop_over.
  - intro H. now inversion H; subst.
Qed.

(** [__init__] creates the list of clusters and the copy of the initial
    centers and writes to nothing else. *)
Lemma init_over base data initial_centers tolerance :
  triple (over base) (__init__ data initial_centers tolerance)
         (fun _ => over base) (over base).
Proof.
  unfold __init__, slice_copy.
  eapply triple_bind; [apply set_pointer_data_over | intros ?].
  eapply triple_bind; [apply alloc_over | intro clusters].
  eapply triple_bind; [apply set_clusters_over | intros ?].
  eapply triple_bind; [| intro medians].
  { step_ro; [auto|]. apply alloc_over. }
  eapply triple_bind; [apply set_medians_over | intros ?].
  apply set_tolerance_over.
Qed.

(** *** The attributes that no method assigns after construction *)

Lemma stable_readonly {A : Type} (c : M A) : readonly c -> stable c.
Proof. intros Hro s. rewrite Hro. auto. Qed.

Lemma stable_bind {A B : Type} (c : M A) (k : A -> M B) :
  stable c -> (forall a, stable (k a)) -> stable (bind c k).
Proof.
  intros Hc Hk s. unfold bind. specialize (Hc s).
  destruct (c s) as [[a|e] s1]; simpl in *; auto.
  destruct (Hk a s1) as [H1 H2]. destruct Hc as [H3 H4]. split; congruence.
Qed.

Lemma stable_loop {A St : Type} (xs : list A) (body : St -> A -> M St) (acc : St) :
  (forall acc x, stable (body acc x)) -> stable (loop xs body acc).
Proof.
  intro Hbody. revert acc. induction xs as [|x t IH]; intro acc; simpl.
  - apply stable_readonly, readonly_ret.
  - apply stable_bind; auto.
Qed.

Lemma stable_collect {A B : Type} (f : A -> M B) (xs : list A) :
  (forall x, stable (f x)) -> stable (collect f xs).
Proof.
  intro Hf. induction xs as [|x t IH]; simpl.
  - apply stable_readonly, readonly_ret.
  - apply stable_bind; auto. intro y.
    apply stable_bind; auto. intro ys. apply stable_readonly, readonly_ret.
Qed.

Lemma stable_alloc elements : stable (alloc elements).
Proof. intro s. simpl. auto. Qed.

Lemma stable_save v elements : stable (save v elements).
Proof.
  intro s. unfold save. destruct v; simpl; auto.
  destruct (address <? length (snd s)); simpl; auto.
Qed.

Lemma stable_set_clusters v : stable (set_clusters v).
Proof. intro s. simpl. auto. Qed.

Lemma stable_set_medians v : stable (set_medians v).
Proof. intro s. simpl. auto. Qed.

#[local] Hint Resolve stable_alloc stable_save stable_set_clusters stable_set_medians : ro.

Ltac stable_steps :=
  repeat lazymatch goal with
    | |- stable (bind _ _) => apply stable_bind; [| intro]
    | |- stable (loop _ _ _) => apply stable_loop; intros
    | |- stable (collect _ _) => apply stable_collect; intros
    | |- _ => first [ solve [auto with ro]
                    | apply stable_readonly; solve [auto with ro] ]
    end.

#[local] Hint Resolve readonly_nearest_body readonly_displacement : ro.

Lemma stable_empty_lists n : stable (empty_lists n).
Proof. unfold empty_lists. stable_steps. Qed.

Lemma stable_append v x : stable (append v x).
Proof. unfold append. stable_steps. Qed.

Lemma stable_assign_item v i x : stable (assign_item v i x).
Proof. unfold assign_item. stable_steps. Qed.

#[local] Hint Resolve stable_empty_lists stable_append stable_assign_item : ro.

Lemma stable_assign_point clusters acc index_point :
  stable (assign_point support_distance clusters acc index_point).
Proof. unfold assign_point. stable_steps. Qed.

Lemma stable_median_body medians acc index :
  stable (median_body support_median medians acc index).
Proof. unfold median_body. stable_steps. Qed.

#[local] Hint Resolve stable_assign_point stable_median_body : ro.

Lemma stable_update_clusters : stable (update_clusters support_distance).
Proof. unfold update_clusters. stable_steps. Qed.

Lemma stable_update_medians : stable (update_medians support_median).
Proof. unfold update_medians. stable_steps. Qed.

#[local] Hint Resolve stable_update_clusters stable_update_medians : ro.

Lemma stable_iteration : stable (iteration support_distance support_median).
Proof. unfold iteration. stable_steps. Qed.

Lemma process_loop_stable fuel changes stop_condition s r s' :
  process_loop support_distance support_median fuel changes stop_condition s
  = Some (r, s') ->
  __pointer_data (fst s') = __pointer_data (fst s) /\
  __tolerance (fst s') = __tolerance (fst s).
Proof.
  revert changes s. induction fuel as [|fuel IH]; intros changes s; simpl.
  - destruct (exceeds _ _); [discriminate|]. intro H. now inversion H; subst.
  - destruct (exceeds _ _); [|intro H; now inversion H; subst].
    pose proof (stable_iteration s) as [H1 H2].
    destruct (iteration support_distance support_median s) as [[c|e] s1]; simpl in *.
    + intro Hrun. apply IH in Hrun as [H3 H4]. split; congruence.
    + intro H. inversion H; subst. auto.
Qed.

Lemma process_stable fuel s r s' :
  process support_distance support_median fuel s = Some (r, s') ->
  __pointer_data (fst s') = __pointer_data (fst s) /\
  __tolerance (fst s') = __tolerance (fst s).
Proof.
  unfold process.
  pose proof (readonly_check_dimension s) as Hro.
  destruct (check_dimension s) as [[[]|e] s1]; simpl in Hro; subst s1.
  - apply process_loop_stable.
  - intro H. inversion H; subst. auto.
Qed.

(** What a completed [__init__] has stored. *)
Lemma init_Ok data initial_centers tolerance h s1 :
  init data initial_centers tolerance h = (Ok tt, s1) ->
  exists address centers,
    initial_centers = Ref address /\
    nth_error (h ++ [[]]) address = Some centers /\
    s1 = ({| __pointer_data := data;
             __clusters := Ref (length h);
             __medians := Ref (S (length h));
             __tolerance := tolerance |},
          h ++ [[]] ++ [centers]).
Proof.
  unfold init, __init__, bind, set_pointer_data, alloc, set_clusters, slice_copy, bind,
    load, set_medians, set_tolerance. simpl.
  destruct initial_centers as [| | |address]; try discriminate.
  destruct (nth_error (h ++ [[]]) address) as [centers|] eqn:Hc; [|discriminate].
  simpl. intro H. inversion H; subst; clear H.
  exists address, centers. repeat split; auto.
  rewrite length_app. simpl. rewrite Nat.add_1_r.
  now rewrite <- app_assoc.
Qed.

End Methods.

(** C7: neither the construction of an engine nor [process] writes to a
    list object of the caller.  Every object that the store holds when the
    engine is built (the dataset, the list of initial centers, the points
    they refer to and anything else) is at its address with its elements
    after [__init__], after [process] however it ends, and after any
    later call on a state reached this way; [process] assigns the
    attributes [__clusters] and [__medians] only; and the constructor
    stores in [__medians] a new list object with the elements of the
    caller's list of initial centers. *)
Theorem C7_caller_objects_untouched :
  forall (support_distance : store -> value -> value -> option Q)
         (support_median : store -> value -> value -> option nat)
         (h : store) (data initial_centers : value) (tolerance : float)
         (r0 : result unit) (s1 : state) (fuel : nat) (r : result unit) (s2 : state),
    init data initial_centers tolerance h = (r0, s1) ->
    process support_distance support_median fuel s1 = Some (r, s2) ->
    preserved h (snd s1) /\
    preserved h (snd s2) /\
    (forall address elements,
        nth_error h address = Some elements ->
        nth_error (snd s1) address = Some elements /\
        nth_error (snd s2) address = Some elements) /\
    (forall s fuel' r' s',
        preserved h (snd s) ->
        process support_distance support_median fuel' s = Some (r', s') ->
        preserved h (snd s')) /\
    (__pointer_data (fst s2) = __pointer_data (fst s1) /\
     __tolerance (fst s2) = __tolerance (fst s1)) /\
    (r0 = Ok tt ->
     __pointer_data (fst s1) = data /\
     exists centers_address medians_address,
       initial_centers = Ref centers_address /\
       __medians (fst s1) = Ref medians_address /\
       length h <= medians_address /\
       forall centers,
         nth_error h centers_address = Some centers ->
         nth_error (snd s1) medians_address = Some centers).
Proof.
  intros sd sm h data ic tol r0 s1 fuel r s2 Hinit Hrun.
  assert (H1 : preserved h (snd s1)).
  { pose proof (init_over h data ic tol (class_attributes, h) (preserved_refl h)) as H.
    unfold init in Hinit. rewrite Hinit in H. destruct r0; exact H. }
  assert (H2 : preserved h (snd s2)) by exact (process_over sd sm h fuel s1 r s2 H1 Hrun).
  split; [exact H1 | split; [exact H2 | split; [|split; [|split]]]].
  - intros address elements Hat. split; eapply preserved_lookup; eauto.
  - intros s fuel' r' s' Hs Hrun'. exact (process_over sd sm h fuel' s r' s' Hs Hrun').
  - exact (process_stable sd sm fuel s1 r s2 Hrun).
  - intros ->. apply init_Ok in Hinit as (address & centers & -> & Hc & ->). simpl.
    split; [reflexivity|].
    exists address, (S (length h)). repeat split; auto.
    intros centers' Hc'.
    rewrite nth_error_app1 in Hc by (apply nth_error_Some; congruence).
    rewrite Hc in Hc'. inversion Hc'; subst.
    rewrite nth_error_app2 by lia.
    replace (S (length h) - length h) with 1 by lia. reflexivity.
Qed.

Lemma C7_witness :
  exists s1 s2,
    init (Ref 8) (Ref 11) (Real (1 # 4)) sample_store = (Ok tt, s1) /\
    process distance_on median_on 5 s1 = Some (Ok tt, s2) /\
    clusters_of (snd s2) (get_clusters (fst s2)) = Some [[0; 1; 2; 3]; [4; 5; 6; 7]] /\
    preserved sample_store (snd s1) /\
    preserved sample_store (snd s2).
Proof.
  eexists. eexists.
  split; [vm_compute; reflexivity|].
  split; [vm_compute; reflexivity|].
  split; [vm_compute; reflexivity|].
  pose proof (C7_caller_objects_untouched distance_on median_on sample_store
                (Ref 8) (Ref 11) (Real (1 # 4)) (Ok tt) _ 5 (Ok tt) _
                ltac:(vm_compute; reflexivity) ltac:(vm_compute; reflexivity))
    as (H1 & H2 & _).
  split; [exact H1 | exact H2].
Defined.

End StoreFacts.

(** ** Further properties of the methods *)

(** *** Degenerate inputs *)

(** X1: the assignment step on an empty dataset returns one empty cluster
    per prototype; without any prototype and with at least one point it
    raises [IndexError] (the subscript [clusters[-1]] on the empty list of
    clusters), the engine being left as it is in both cases. *)
Theorem X1_update_clusters_degenerate :
  forall (dist : point -> point -> option Q) (self : kmedians),
    (__pointer_data self = [] ->
     update_clusters dist self = (Ok (repeat [] (length (__medians self))), self)) /\
    (__medians self = [] -> __pointer_data self <> [] ->
     update_clusters dist self = (Raise IndexError, self)).
Proof.
  intros dist self. unfold update_clusters, bind, attr, lift. split.
  - intros ->. simpl. f_equal. f_equal.
    unfold range. generalize 0.
    induction (length (__medians self)) as [|n IH]; intro a; simpl; [reflexivity|].
    f_equal. apply IH.
  - intros -> Hdata.
    destruct (__pointer_data self) as [|p data]; [congruence|]. reflexivity.
Qed.

Lemma X1_witness :
  update_clusters euclidean_distance_sqrt (init [] [[0]; [1]]%Q (Real 1)) = (Ok [[]; []], init [] [[0]; [1]]%Q (Real 1)) /\
  update_clusters euclidean_distance_sqrt (init sample_line [] (Real 1))
  = (Raise IndexError, init sample_line [] (Real 1)).
Proof.
  split.
  - apply (proj1 (X1_update_clusters_degenerate euclidean_distance_sqrt
                    (init [] [[0]; [1]]%Q (Real 1)))). reflexivity.
  - apply (proj2 (X1_update_clusters_degenerate euclidean_distance_sqrt
                    (init sample_line [] (Real 1)))); [reflexivity | discriminate].
Defined.

(** X2: [process] on an engine with an empty dataset or without any
    prototype ends with [IndexError] (from [data[0]] or [medians[0]] in the
    dimension check) before any pass, and leaves the engine as it is. *)
Theorem X2_process_empty_input :
  forall (dist : point -> point -> option Q)
         (median : list point -> list nat -> option nat)
         (fuel : nat) (self : kmedians),
    __pointer_data self = [] \/ __medians self = [] ->
    process dist median fuel self = Some (Raise IndexError, self).
Proof.
  intros dist median fuel self Hempty. unfold process.
  destruct (check_dimension_cases self)
    as [(_ & p & m & Hp & Hm & _) | [(_ & p & m & Hp & Hm & _) | [Hc _]]].
  - destruct Hempty as [He | He]; rewrite He in *; discriminate.
  - destruct Hempty as [He | He]; rewrite He in *; discriminate.
  - now rewrite Hc.
Qed.

Lemma X2_witness :
  process euclidean_distance_sqrt geometric_median 0 (init [] [[0]; [1]]%Q (Real 1))
  = Some (Raise IndexError, init [] [[0]; [1]]%Q (Real 1)).
Proof.
  apply (X2_process_empty_input euclidean_distance_sqrt geometric_median 0
           (init [] [[0]; [1]]%Q (Real 1))).
  left. reflexivity.
Defined.

(** *** What a returned engine holds *)

(** After a call of [process] that returns after a pass, the prototype of
    each index is the dataset point that the geometric-median collaborator
    selects for the cluster of that index. *)
Lemma process_returns_centers dist median fuel self self' stop :
  float_mul (__tolerance self) (__tolerance self) = Real stop ->
  process dist median fuel self = Some (Ok tt, self') ->
  __pointer_data self' = __pointer_data self /\
  length (__medians self') = length (__clusters self') /\
  forall index cluster,
    nth_error (__clusters self') index = Some cluster ->
    exists meadian_index p,
      median (__pointer_data self) cluster = Some meadian_index /\
      nth_error (__pointer_data self) meadian_index = Some p /\
      nth_error (__medians self') index = Some p.
Proof.
  intros Hstop Hrun.
  destruct (process_returns_passes dist median fuel self self' stop Hstop Hrun)
    as (_ & n & self_n & last & _ & Hp & Hit & _).
  apply passes_state in Hp as (Hd & _ & _).
  apply iteration_Ok in Hit as (clusters & updated & ds & _ & Hum & _ & _ & ->).
  apply update_medians_inv in Hum as [Hlen Hdone]. simpl in *.
  rewrite Hd in *. split; [reflexivity | split; [exact Hlen|]].
  intros index cluster Hc. apply Hdone; auto.
  apply nth_error_Some. congruence.
Qed.

(** X3: when the float product of the tolerance with itself is a real
    number, after a call of [process] that returns the centers and the
    clusters answer each other: there are as many of each, and the center of
    index [i] is the dataset point at the index that the geometric-median
    collaborator gives for cluster [i] of the returned clusters.  So every
    center is a point of the dataset, whatever the initial centers were. *)
Theorem X3_centers_are_cluster_medians :
  forall (dist : point -> point -> option Q)
         (median : list point -> list nat -> option nat)
         (fuel : nat) (self self' : kmedians) (stop : Q),
    float_mul (__tolerance self) (__tolerance self) = Real stop ->
    process dist median fuel self = Some (Ok tt, self') ->
    length (get_centers self') = length (get_clusters self') /\
    (forall index cluster,
        nth_error (get_clusters self') index = Some cluster ->
        exists meadian_index p,
          median (__pointer_data self) cluster = Some meadian_index /\
          nth_error (__pointer_data self) meadian_index = Some p /\
          nth_error (get_centers self') index = Some p) /\
    (forall center, In center (get_centers self') -> In center (__pointer_data self)).
Proof.
  intros dist median fuel self self' stop Hstop Hrun.
  destruct (process_returns_centers dist median fuel self self' stop Hstop Hrun)
    as (_ & Hlen & Hall).
  unfold get_centers, get_clusters. split; [exact Hlen | split; [exact Hall|]].
  intros center Hin. apply In_nth_error in Hin as [index Hindex].
  destruct (nth_error (__clusters self') index) as [cluster|] eqn:Hc.
  - destruct (Hall index cluster Hc) as (mi & p & _ & Hp & Hm).
    rewrite Hindex in Hm. inversion Hm; subst. eapply nth_error_In; eauto.
  - apply nth_error_None in Hc.
    assert (index < length (__medians self')) by (apply nth_error_Some; congruence). lia.
Qed.

Lemma X3_witness :
  length [[0; 0]; [10; 10]]%Q = length [[0; 1; 2; 3]; [4; 5; 6; 7]] /\
  (forall index cluster,
      nth_error [[0; 1; 2; 3]; [4; 5; 6; 7]] index = Some cluster ->
      exists meadian_index p,
        geometric_median sample_squares cluster = Some meadian_index /\
        nth_error sample_squares meadian_index = Some p /\
        nth_error [[0; 0]; [10; 10]]%Q index = Some p) /\
  (forall center, In center [[0; 0]; [10; 10]]%Q -> In center sample_squares).
Proof.
  eapply (X3_centers_are_cluster_medians euclidean_distance_sqrt geometric_median 4
            (init sample_squares [[0; 0]; [1; 1]]%Q (Real (1 # 4)))
            (mk_kmedians sample_squares [[0; 1; 2; 3]; [4; 5; 6; 7]]
                         [[0; 0]; [10; 10]]%Q (Real (1 # 4)))).
  - vm_compute. reflexivity.
  - vm_compute. reflexivity.
Defined.

Lemma length_concat_nonempty {A : Type} (ls : list (list A)) :
  (forall l, In l ls -> l <> []) -> length ls <= length (concat ls).
Proof.
  induction ls as [|l t IH]; intro Hne; simpl; [lia|].
  rewrite length_app.
  assert (Hl : l <> []) by (apply Hne; now left).
  destruct l as [|x l']; [congruence|]. simpl.
  specialize (IH (fun l0 H => Hne l0 (or_intror H))). lia.
Qed.

(** X4: with a geometric-median collaborator that only ever answers with one
    of the indexes it is given, and a tolerance whose float product with
    itself is a real number, a call of [process] that returns leaves no
    cluster empty, and so it returns only when there are at most as many
    prototypes as points. *)
Theorem X4_no_empty_cluster :
  forall (dist : point -> point -> option Q)
         (median : list point -> list nat -> option nat)
         (fuel : nat) (self self' : kmedians) (stop : Q),
    (forall indexes meadian_index,
        median (__pointer_data self) indexes = Some meadian_index ->
        In meadian_index indexes) ->
    float_mul (__tolerance self) (__tolerance self) = Real stop ->
    process dist median fuel self = Some (Ok tt, self') ->
    (forall cluster, In cluster (get_clusters self') -> cluster <> []) /\
    length (get_centers self) <= length (__pointer_data self).
Proof.
  intros dist median fuel self self' stop Hmember Hstop Hrun.
  destruct (process_returns_centers dist median fuel self self' stop Hstop Hrun)
    as (_ & _ & Hall).
  destruct (process_returns_partition dist median fuel self self' stop Hstop Hrun)
    as (Hk & Hperm & _).
  assert (Hne : forall cluster, In cluster (__clusters self') -> cluster <> []).
  { intros cluster Hin. apply In_nth_error in Hin as [index Hindex].
    destruct (Hall index cluster Hindex) as (mi & p & Hmi & _).
    apply Hmember in Hmi. intros ->. destruct Hmi. }
  split; [exact Hne|].
  apply length_concat_nonempty in Hne.
  apply Permutation_length in Hperm. unfold range in Hperm. rewrite length_seq in Hperm.
  unfold get_centers. lia.
Qed.

Lemma median_step_member (data : list point) (indexes candidates : list nat)
    (best : option (option (nat * Q))) (index_median : nat) (distance : Q) :
  fold_left (median_step data indexes) candidates best = Some (Some (index_median, distance)) ->
  In index_median candidates \/ exists d, best = Some (Some (index_median, d)).
Proof.
  revert best. induction candidates as [|c t IH]; intro best; simpl.
  - intro H. right. eauto.
  - intro H. apply IH in H as [Hin | [d Hd]]; [now left; right|].
    unfold median_step in Hd.
    destruct best as [[[m0 d0]|]|]; destruct (distance_sum data indexes c) as [s|];
      try discriminate.
    + destruct (Qlt_bool s d0); inversion Hd; subst; eauto.
    + inversion Hd; subst. auto.
Qed.

Lemma geometric_median_member (data : list point) (indexes : list nat) (meadian_index : nat) :
  geometric_median data indexes = Some meadian_index -> In meadian_index indexes.
Proof.
  unfold geometric_median.
  destruct (fold_left (median_step data indexes) indexes (Some None))
    as [[[m d]|]|] eqn:Hfold; try discriminate.
  intro H. inversion H; subst.
  apply median_step_member in Hfold as [Hin | [d0 Hd]]; [exact Hin | discriminate].
Qed.

Lemma X4_witness :
  (forall cluster, In cluster [[0; 1; 2; 3]; [4; 5; 6; 7]] -> cluster <> []) /\
  length [[0; 0]; [1; 1]]%Q <= length sample_squares.
Proof.
  eapply (X4_no_empty_cluster euclidean_distance_sqrt geometric_median 4
            (init sample_squares [[0; 0]; [1; 1]]%Q (Real (1 # 4)))
            (mk_kmedians sample_squares [[0; 1; 2; 3]; [4; 5; 6; 7]]
                         [[0; 0]; [10; 10]]%Q (Real (1 # 4)))).
  - intros indexes mi. apply geometric_median_member.
  - vm_compute. reflexivity.
  - vm_compute. reflexivity.
Defined.

(** *** An exception inside the loop *)

Lemma iteration_Raise_cases dist median self e self' :
  iteration dist median self = (Raise e, self') ->
  (update_clusters dist self = (Raise e, self) /\ self' = self) \/
  (exists clusters,
      update_clusters dist self = (Ok clusters, self) /\
      self' = with_clusters clusters self).
Proof.
  unfold iteration, bind. intro Hrun.
  pose proof (update_clusters_frame dist self) as Hf1.
  destruct (update_clusters dist self) as [[clusters|e1] s1] eqn:Huc;
    simpl in Hf1; subst s1.
  - right. exists clusters. split; [reflexivity|].
    unfold set_clusters in Hrun.
    set (self1 := mk_kmedians _ clusters _ _) in *.
    pose proof (update_medians_frame median self1) as Hf2.
    destruct (update_medians median self1) as [[updated|e2] s2] eqn:Hum;
      simpl in Hf2; subst s2.
    + unfold attr, lift in Hrun. simpl in Hrun.
      destruct (displacements dist (__medians self) updated) as [ds|e3]; simpl in Hrun.
      * destruct (py_max ds) as [c|e4]; simpl in Hrun; inversion Hrun; subst; reflexivity.
      * inversion Hrun; subst; reflexivity.
    + inversion Hrun; subst; reflexivity.
  - left. inversion Hrun; subst. auto.
Qed.

Lemma process_loop_raises dist median fuel changes stop_condition self e self' :
  process_loop dist median fuel changes stop_condition self = Some (Raise e, self') ->
  exists n self_n,
    n < fuel /\
    passes dist median n stop_condition self = Some self_n /\
    iteration dist median self_n = (Raise e, self').
Proof.
  revert changes self. induction fuel as [|fuel IH]; intros changes self; simpl.
  - destruct (exceeds _ _); discriminate.
  - destruct (exceeds changes stop_condition); [|discriminate].
    destruct (iteration dist median self) as [[c|e1] s1] eqn:Hit.
    + intro Hrun.
      destruct fuel as [|fuel']; [simpl in Hrun; destruct (exceeds _ _); discriminate|].
      assert (Hgo : exceeds (Finite c) stop_condition = true).
      { simpl in Hrun. destruct (exceeds (Finite c) stop_condition); [reflexivity | discriminate]. }
      apply IH in Hrun as (n & self_n & Hn & Hp & Hlast).
      exists (S n), self_n. split; [lia | split; [|exact Hlast]].
      simpl. now rewrite Hit, Hgo.
    + intro H. inversion H; subst.
      exists 0, self. split; [lia | split; [reflexivity | exact Hit]].
Qed.

(** X5: when [process] ends with an exception, either the dimension check
    raised it and the engine is untouched, or a pass of the loop raised it
    after some completed passes.  In the second case the exception is not
    [NameError], the centers are those the last completed pass left (never a
    partly updated list), and the clusters are either those the last
    completed pass left (the assignment step raised) or the fresh assignment
    to these centers (the update step or the computation of [changes]
    raised). *)
Theorem X5_exception_in_process :
  forall (dist : point -> point -> option Q)
         (median : list point -> list nat -> option nat)
         (fuel : nat) (self : kmedians) (e : exception) (self' : kmedians),
    process dist median fuel self = Some (Raise e, self') ->
    (check_dimension self = (Raise e, self) /\ self' = self) \/
    (e <> NameError /\
     exists n self_n,
       n < fuel /\
       passes dist median n (float_mul (__tolerance self) (__tolerance self)) self = Some self_n /\
       get_centers self' = get_centers self_n /\
       ((update_clusters dist self_n = (Raise e, self_n) /\ self' = self_n) \/
        (exists clusters,
            update_clusters dist self_n = (Ok clusters, self_n) /\
            self' = with_clusters clusters self_n))).
Proof.
  intros dist median fuel self e self' Hrun. unfold process in Hrun.
  destruct (check_dimension_cases self) as [[Hc _] | [[Hc _] | [Hc _]]];
    rewrite Hc in Hrun.
  - right. split.
    + intros ->. exact (process_loop_no_NameError dist median _ _ _ _ _ Hrun).
    + apply process_loop_raises in Hrun as (n & self_n & Hn & Hp & Hit).
      exists n, self_n. split; [exact Hn | split; [exact Hp|]].
      apply iteration_Raise_cases in Hit as [[Huc ->] | (clusters & Huc & ->)].
      * split; [reflexivity | left; auto].
      * split; [reflexivity | right; eauto].
  - left. inversion Hrun; subst. auto.
  - left. inversion Hrun; subst. auto.
Qed.

Lemma X5_witness :
  (check_dimension (init [[0]]%Q [[0]; [5]]%Q (Real 1)) = (Raise SupportError, init [[0]]%Q [[0]; [5]]%Q (Real 1)) /\
   mk_kmedians [[0]]%Q [[0]; []] [[0]; [5]]%Q (Real 1) = init [[0]]%Q [[0]; [5]]%Q (Real 1)) \/
  (SupportError <> NameError /\
   exists n self_n,
     n < 3 /\
     passes euclidean_distance_sqrt geometric_median n (float_mul (Real 1) (Real 1)) (init [[0]]%Q [[0]; [5]]%Q (Real 1))
     = Some self_n /\
     get_centers (mk_kmedians [[0]]%Q [[0]; []] [[0]; [5]]%Q (Real 1)) = get_centers self_n /\
     ((update_clusters euclidean_distance_sqrt self_n = (Raise SupportError, self_n) /\
       mk_kmedians [[0]]%Q [[0]; []] [[0]; [5]]%Q (Real 1) = self_n) \/
      (exists clusters,
          update_clusters euclidean_distance_sqrt self_n = (Ok clusters, self_n) /\
          mk_kmedians [[0]]%Q [[0]; []] [[0]; [5]]%Q (Real 1) = with_clusters clusters self_n))).
Proof.
  apply (X5_exception_in_process euclidean_distance_sqrt geometric_median 3
           (init [[0]]%Q [[0]; [5]]%Q (Real 1)) SupportError
           (mk_kmedians [[0]]%Q [[0]; []] [[0]; [5]]%Q (Real 1))).
  vm_compute. reflexivity.
Defined.

(** *** What [process] reads of the engine *)

Lemma iteration_with_tolerance dist median t self r self' :
  iteration dist median self = (r, self') ->
  iteration dist median (with_tolerance t self) = (r, with_tolerance t self').
Proof.
  unfold iteration, bind, update_clusters, update_medians, attr, lift, set_clusters,
    set_medians, ret, with_tolerance. simpl.
  destruct (for_each (range (length (__pointer_data self))) _ _) as [clusters|e1]; simpl.
  - destruct (for_each (range (length clusters)) _ _) as [updated|e2]; simpl.
    + destruct (displacements dist (__medians self) updated) as [ds|e3]; simpl.
      * destruct (py_max ds) as [c|e4]; simpl; intro H; inversion H; subst; reflexivity.
      * intro H; inversion H; subst; reflexivity.
    + intro H; inversion H; subst; reflexivity.
  - intro H; inversion H; subst; reflexivity.
Qed.

Lemma iteration_with_clusters dist median stale self changes self' :
  iteration dist median self = (Ok changes, self') ->
  iteration dist median (with_clusters stale self) = (Ok changes, self').
Proof.
  unfold iteration, bind, update_clusters, update_medians, attr, lift, set_clusters,
    set_medians, ret, with_clusters. simpl.
  destruct (for_each (range (length (__pointer_data self))) _ _) as [clusters|e1]; simpl;
    [|discriminate].
  destruct (for_each (range (length clusters)) _ _) as [updated|e2]; simpl; [|discriminate].
  destruct (displacements dist (__medians self) updated) as [ds|e3]; simpl; [|discriminate].
  destruct (py_max ds) as [c|e4]; simpl; intro H; inversion H; subst; reflexivity.
Qed.

Lemma process_loop_with_tolerance dist median t fuel changes stop self r self' :
  process_loop dist median fuel changes stop self = Some (r, self') ->
  process_loop dist median fuel changes stop (with_tolerance t self)
  = Some (r, with_tolerance t self').
Proof.
  revert changes self.
  induction fuel as [|fuel IH]; intros changes self; simpl.
  - destruct (exceeds changes stop); [discriminate|].
    intro H. inversion H; subst. reflexivity.
  - destruct (exceeds changes stop).
    + destruct (iteration dist median self) as [[c|e] s1] eqn:Hit;
        rewrite (iteration_with_tolerance dist median t _ _ _ Hit).
      * apply IH.
      * intro H. inversion H; subst. reflexivity.
    + intro H. inversion H; subst. reflexivity.
Qed.

Lemma check_dimension_with_tolerance t self r :
  check_dimension self = (r, self) ->
  check_dimension (with_tolerance t self) = (r, with_tolerance t self).
Proof.
  unfold check_dimension, bind, attr, lift, getitem, raise, ret, with_tolerance. simpl.
  destruct (__pointer_data self) as [|p data]; simpl;
    [intro H; inversion H; reflexivity|].
  destruct (__medians self) as [|m medians]; simpl;
    [intro H; inversion H; reflexivity|].
  destruct (negb _); intro H; inversion H; reflexivity.
Qed.

(** X6: the tolerance enters [process] only through its float product with
    itself.  An engine
    with the tolerance [-t] goes through the same passes and ends in the same
    way, with the same clusters and centers, as the engine with the tolerance
    [t]: a negative tolerance is accepted and acts as its absolute value. *)
Theorem X6_tolerance_sign :
  forall (dist : point -> point -> option Q)
         (median : list point -> list nat -> option nat)
         (fuel : nat) (self : kmedians) (r : result unit) (self' : kmedians),
    process dist median fuel self = Some (r, self') ->
    process dist median fuel (with_tolerance (float_opp (__tolerance self)) self)
    = Some (r, with_tolerance (float_opp (__tolerance self)) self').
Proof.
  intros dist median fuel self r self' Hrun. unfold process in *.
  destruct (check_dimension_cases self) as [[Hc _] | [[Hc _] | [Hc _]]];
    rewrite Hc in Hrun;
    rewrite (check_dimension_with_tolerance (float_opp (__tolerance self)) self _ Hc).
  - simpl. rewrite float_mul_opp_opp.
    now apply process_loop_with_tolerance.
  - inversion Hrun; subst. reflexivity.
  - inversion Hrun; subst. reflexivity.
Qed.

Lemma X6_witness :
  process euclidean_distance_sqrt geometric_median 4
    (with_tolerance (float_opp (Real (1 # 4))) (init sample_squares [[0; 0]; [1; 1]]%Q (Real (1 # 4))))
  = Some (Ok tt,
          with_tolerance (float_opp (Real (1 # 4)))
            (mk_kmedians sample_squares [[0; 1; 2; 3]; [4; 5; 6; 7]]
                         [[0; 0]; [10; 10]]%Q (Real (1 # 4)))).
Proof.
  apply (X6_tolerance_sign euclidean_distance_sqrt geometric_median 4
           (init sample_squares [[0; 0]; [1; 1]]%Q (Real (1 # 4))) (Ok tt)
           (mk_kmedians sample_squares [[0; 1; 2; 3]; [4; 5; 6; 7]]
                        [[0; 0]; [10; 10]]%Q (Real (1 # 4)))).
  vm_compute. reflexivity.
Defined.

(** X7: when the float product of the tolerance with itself is a real
    number, the clusters that an engine holds when [process] is called play
    no role: a call that returns ends in the same engine whatever list of
    clusters (stale, empty or ill-formed) the engine held before. *)
Theorem X7_stale_clusters_ignored :
  forall (dist : point -> point -> option Q)
         (median : list point -> list nat -> option nat)
         (fuel : nat) (self self' : kmedians) (stale : list (list nat)) (stop : Q),
    float_mul (__tolerance self) (__tolerance self) = Real stop ->
    process dist median fuel self = Some (Ok tt, self') ->
    process dist median fuel (with_clusters stale self) = Some (Ok tt, self').
Proof.
  intros dist median fuel self self' stale stop Hstop Hrun. unfold process in *.
  destruct (check_dimension_cases self) as [[Hc _] | [[Hc _] | [Hc _]]];
    rewrite Hc in Hrun; try discriminate.
  assert (Hc' : check_dimension (with_clusters stale self) = (Ok tt, with_clusters stale self)).
  { revert Hc. unfold check_dimension, bind, attr, lift, getitem, raise, ret, with_clusters.
    simpl.
    destruct (__pointer_data self) as [|p data]; simpl; [discriminate|].
    destruct (__medians self) as [|m medians]; simpl; [discriminate|].
    destruct (negb _); [discriminate | reflexivity]. }
  rewrite Hc'. change (__tolerance (with_clusters stale self)) with (__tolerance self).
  rewrite Hstop in *.
  destruct fuel as [|fuel]; simpl in *; [discriminate|].
  destruct (iteration dist median self) as [[c|e] s1] eqn:Hit; [|discriminate].
  now rewrite (iteration_with_clusters dist median stale _ _ _ Hit).
Qed.

Lemma X7_witness :
  process euclidean_distance_sqrt geometric_median 4
    (with_clusters [[7; 7]; []; [42]] (init sample_squares [[0; 0]; [1; 1]]%Q (Real (1 # 4))))
  = Some (Ok tt,
          mk_kmedians sample_squares [[0; 1; 2; 3]; [4; 5; 6; 7]]
                      [[0; 0]; [10; 10]]%Q (Real (1 # 4))).
Proof.
  eapply (X7_stale_clusters_ignored euclidean_distance_sqrt geometric_median 4
            (init sample_squares [[0; 0]; [1; 1]]%Q (Real (1 # 4)))).
  - vm_compute. reflexivity.
  - vm_compute. reflexivity.
Defined.

(** *** A single prototype *)

Lemma update_clusters_single dist self m clusters self' :
  __medians self = [m] ->
  update_clusters dist self = (Ok clusters, self') ->
  clusters = [range (length (__pointer_data self))].
Proof.
  intros Hm. unfold update_clusters, bind, attr, lift. rewrite Hm. simpl.
  intro Hrun. injection Hrun as Hloop _.
  apply (for_each_seq_partial (assign_point dist (__pointer_data self) [m])
           (fun n clusters => clusters = [seq 0 n])
           (length (__pointer_data self)) 0 [[]] clusters); auto.
  intros i s s' _ -> Hbody.
  apply assign_point_Ok in Hbody as (c & p & dc & _ & (Hc & _) & ->); [|reflexivity].
  simpl in Hc. assert (c = 0) by lia. subst c.
  change (1 + i) with (S i). rewrite seq_S. reflexivity.
Qed.

(** X8: with a single prototype, an assignment step that completes returns
    one cluster holding every dataset index in order, [[0, 1, ..., N-1]]. *)
Theorem X8_single_prototype_assignment :
  forall (dist : point -> point -> option Q) (self self' : kmedians) (m : point)
         (clusters : list (list nat)),
    __medians self = [m] ->
    update_clusters dist self = (Ok clusters, self') ->
    clusters = [range (length (__pointer_data self))].
Proof.
  intros dist self self' m clusters. apply update_clusters_single.
Qed.

Lemma X8_witness :
  [[0; 1; 2; 3; 4; 5]] = [range (length sample_line)].
Proof.
  apply (X8_single_prototype_assignment euclidean_distance_sqrt
           (init sample_line [[3]]%Q (Real 1)) (init sample_line [[3]]%Q (Real 1)) [3]%Q).
  - reflexivity.
  - vm_compute. reflexivity.
Defined.


(** One pass from an engine with the single prototype [m]. *)
Lemma iteration_single dist median data stale m tolerance meadian_index g changes :
  (forall p, In p data -> exists d, dist p m = Some d) ->
  median data (range (length data)) = Some meadian_index ->
  nth_error data meadian_index = Some g ->
  dist m g = Some changes ->
  iteration dist median (mk_kmedians data stale [m] tolerance)
  = (Ok changes, mk_kmedians data [range (length data)] [g] tolerance).
Proof.
  intros Hdef Hmed Hg Hc.
  set (self := mk_kmedians data stale [m] tolerance).
  destruct (update_clusters_total dist self) as [clusters Huc].
  { simpl. discriminate. }
  { simpl. intros p m' Hp [<- | []]. now apply Hdef. }
  pose proof (update_clusters_single dist self m clusters self eq_refl Huc) as ->.
  unfold iteration, bind. rewrite Huc.
  unfold set_clusters, update_medians, bind, attr, lift, median_body, getitem, setitem,
    set_medians, ret, displacements. simpl.
  rewrite Hmed. simpl. rewrite Hg. simpl. rewrite Hc. reflexivity.
Qed.

(** X9: with a single prototype the loop ends after at most two passes.  If
    the dataset is not empty, its points have the dimension of the prototype,
    the distance collaborator answers on points of equal dimension and gives
    0 from a point to itself, and the geometric-median collaborator selects
    the dataset point [g] for the cluster of all the indexes, then [process]
    returns whenever it may make two passes, with the one cluster
    [[0, ..., N-1]] and the one center [g], for every tolerance whose float
    product with itself is a real number. *)
Theorem X9_single_prototype_converges :
  forall (dist : point -> point -> option Q)
         (median : list point -> list nat -> option nat)
         (fuel : nat) (data : list point) (stale : list (list nat)) (m : point)
         (tolerance : float) (stop : Q) (meadian_index : nat) (g : point),
    float_mul tolerance tolerance = Real stop ->
    data <> [] ->
    (forall p, In p data -> length p = length m) ->
    (forall p q, length p = length q -> exists d, dist p q = Some d) ->
    (forall p, In p data -> exists z, dist p p = Some z /\ (z == 0)%Q) ->
    median data (range (length data)) = Some meadian_index ->
    nth_error data meadian_index = Some g ->
    2 <= fuel ->
    process dist median fuel (mk_kmedians data stale [m] tolerance)
    = Some (Ok tt, mk_kmedians data [range (length data)] [g] tolerance).
Proof.
  intros dist median fuel data stale m tol stop mi g Hstop Hne Hdim Hdef Hzero Hmed Hg Hfuel.
  assert (Hgin : In g data) by (eapply nth_error_In; eauto).
  destruct (Hdef m g) as [c1 Hc1]; [symmetry; now apply Hdim|].
  destruct (Hzero g Hgin) as (z & Hz & Hz0).
  assert (Hit1 : iteration dist median (mk_kmedians data stale [m] tol)
                 = (Ok c1, mk_kmedians data [range (length data)] [g] tol)).
  { apply iteration_single with (meadian_index := mi); auto. }
  assert (Hit2 : iteration dist median (mk_kmedians data [range (length data)] [g] tol)
                 = (Ok z, mk_kmedians data [range (length data)] [g] tol)).
  { apply iteration_single with (meadian_index := mi); auto.
    intros p Hp. apply Hdef. rewrite (Hdim p Hp). symmetry. now apply Hdim. }
  unfold process.
  destruct (check_dimension_cases (mk_kmedians data stale [m] tol))
    as [[Hc _] | [(_ & p0 & m0 & Hp0 & Hm0 & Hmis) | [_ [He | He]]]];
    simpl in *.
  - rewrite Hc. simpl.
    pose proof (square_not_exceeded z tol Hz0) as Hlast.
    rewrite Hstop in *.
    destruct fuel as [|[|fuel]]; try lia. simpl. rewrite Hit1.
    destruct (exceeds (Finite c1) (Real stop)) eqn:Hgo.
    + rewrite Hit2.
      destruct fuel; simpl; now rewrite Hlast.
    + reflexivity.
  - exfalso. inversion Hm0; subst m0. apply Hmis. apply Hdim.
    destruct data; [discriminate|]. inversion Hp0; subst. now left.
  - contradiction.
  - discriminate.
Qed.

Lemma X9_witness :
  process euclidean_distance_sqrt geometric_median 2
    (mk_kmedians sample_squares [] [[0; 0]]%Q (Real (1 # 4)))
  = Some (Ok tt, mk_kmedians sample_squares [range (length sample_squares)] [[1; 1]]%Q (Real (1 # 4))).
Proof.
  eapply (X9_single_prototype_converges euclidean_distance_sqrt geometric_median 2
            sample_squares [] [0; 0]%Q (Real (1 # 4)) _ 3 [1; 1]%Q).
  - vm_compute. reflexivity.
  - discriminate.
  - simpl. intros p Hp.
    repeat (destruct Hp as [<- | Hp]; [reflexivity|]). destruct Hp.
  - exact euclidean_distance_sqrt_defined.
  - intros p _. apply euclidean_distance_sqrt_self.
  - vm_compute. reflexivity.
  - reflexivity.
  - lia.
Defined.

(** *** When the two steps complete *)

Lemma for_each_Ok_each {A St : Type} (xs : list A) (body : St -> A -> result St)
    (acc acc' : St) :
  for_each xs body acc = Ok acc' ->
  forall x, In x xs -> exists s s', body s x = Ok s'.
Proof.
  revert acc. induction xs as [|y t IH]; intros acc Hrun x Hin; simpl in *; [contradiction|].
  destruct (body acc y) as [s1|e] eqn:Hb; [|discriminate].
  destruct Hin as [<- | Hin]; eauto.
Qed.

Lemma for_each_Raise_some {A St : Type} (xs : list A) (body : St -> A -> result St)
    (acc : St) (e : exception) :
  for_each xs body acc = Raise e ->
  exists s x, In x xs /\ body s x = Raise e.
Proof.
  revert acc. induction xs as [|y t IH]; intros acc Hrun; simpl in *; [discriminate|].
  destruct (body acc y) as [s1|e1] eqn:Hb.
  - destruct (IH s1 Hrun) as (s & x & Hin & Hx). eauto.
  - inversion Hrun; subst. exists acc, y. auto.
Qed.

Lemma median_body_Raise median data clusters medians index e :
  median_body median data clusters medians index = Raise e ->
  e = SupportError \/ e = IndexError.
Proof.
  unfold median_body, getitem, support, setitem.
  destruct (nth_error clusters index); simpl; [|intro H; inversion H; auto].
  destruct (median data l); simpl; [|intro H; inversion H; auto].
  destruct (nth_error data n); simpl; [|intro H; inversion H; auto].
  destruct (index <? length medians); intro H; inversion H; auto.
Qed.

(** X10: the update step completes exactly when the geometric-median
    collaborator answers, for every cluster of the engine, with an index
    inside the dataset.  Otherwise it raises the error of the collaborator
    or an [IndexError]; in every case the engine is left as it is. *)
Theorem X10_update_medians_completes_iff :
  forall (median : list point -> list nat -> option nat) (self : kmedians),
    ((exists medians, update_medians median self = (Ok medians, self)) <->
     (forall cluster, In cluster (__clusters self) ->
        exists meadian_index,
          median (__pointer_data self) cluster = Some meadian_index /\
          meadian_index < length (__pointer_data self))) /\
    (forall e self',
        update_medians median self = (Raise e, self') ->
        self' = self /\ (e = SupportError \/ e = IndexError)).
Proof.
  intros median self. split; [split|].
  - intros [medians Hrun] cluster Hin.
    apply update_medians_inv in Hrun as [_ Hdone].
    apply In_nth_error in Hin as [index Hindex].
    destruct (Hdone index cluster) as (mi & p & Hmi & Hp & _); auto.
    { apply nth_error_Some. congruence. }
    exists mi. split; [exact Hmi|]. apply nth_error_Some. congruence.
  - apply update_medians_total.
  - intros e self' Hrun.
    pose proof (update_medians_frame median self) as Hf. rewrite Hrun in Hf. simpl in Hf.
    split; [exact Hf|].
    unfold update_medians, bind, attr, lift in Hrun. injection Hrun as Hloop _.
    apply for_each_Raise_some in Hloop as (s & x & _ & Hbody).
    eapply median_body_Raise; eauto.
Qed.

Lemma X10_witness :
  update_medians geometric_median (mk_kmedians sample_line [[0; 1]; []] [[0]; [9]]%Q (Real 1))
  = (Raise SupportError, mk_kmedians sample_line [[0; 1]; []] [[0]; [9]]%Q (Real 1)) /\
  (SupportError = SupportError \/ SupportError = IndexError).
Proof.
  pose proof (proj2 (X10_update_medians_completes_iff geometric_median
                       (mk_kmedians sample_line [[0; 1]; []] [[0]; [9]]%Q (Real 1)))
                    SupportError
                    (mk_kmedians sample_line [[0; 1]; []] [[0]; [9]]%Q (Real 1))) as H.
  split; [vm_compute; reflexivity|].
  apply H. vm_compute. reflexivity.
Defined.

Lemma nearest_body_Raise dist data medians index_point optim index e :
  nearest_body dist data medians index_point optim index = Raise e ->
  e = SupportError \/ e = IndexError.
Proof.
  unfold nearest_body, getitem, support.
  destruct (nth_error data index_point); simpl; [|intro H; inversion H; auto].
  destruct (nth_error medians index); simpl; [|intro H; inversion H; auto].
  destruct (dist p p0); simpl; [|intro H; inversion H; auto].
  destruct (_ || _); discriminate.
Qed.

Lemma assign_point_Raise dist data medians clusters index_point e :
  assign_point dist data medians clusters index_point = Raise e ->
  e = SupportError \/ e = IndexError.
Proof.
  unfold assign_point.
  destruct (for_each (range (length medians)) _ _) as [optim|e1] eqn:Hloop; simpl.
  - unfold normalize_index. destruct (_ && _)%Z; simpl; intro H; inversion H; auto.
  - intro H. inversion H; subst.
    apply for_each_Raise_some in Hloop as (s & x & _ & Hbody).
    eapply nearest_body_Raise; eauto.
Qed.

(** X11: the assignment step completes exactly when the dataset is empty,
    or there is a prototype and the distance collaborator answers on every
    pair of a dataset point and a prototype.  Otherwise it raises the error
    of the collaborator or an [IndexError]; in every case the engine is left
    as it is. *)
Theorem X11_update_clusters_completes_iff :
  forall (dist : point -> point -> option Q) (self : kmedians),
    ((exists clusters, update_clusters dist self = (Ok clusters, self)) <->
     (__pointer_data self = [] \/
      (__medians self <> [] /\
       forall p m, In p (__pointer_data self) -> In m (__medians self) ->
                   exists d, dist p m = Some d))) /\
    (forall e self',
        update_clusters dist self = (Raise e, self') ->
        self' = self /\ (e = SupportError \/ e = IndexError)).
Proof.
  intros dist self. split; [split|].
  - intros [clusters Hrun].
    assert (Hloop : for_each (range (length (__pointer_data self)))
                      (assign_point dist (__pointer_data self) (__medians self))
                      (map (fun _ => []) (range (length (__medians self)))) = Ok clusters).
    { unfold update_clusters, bind, attr, lift in Hrun. congruence. }
    destruct (__pointer_data self) as [|p0 data] eqn:Hdata; [now left | right].
    split.
    + intro Hm. rewrite Hm in Hloop. discriminate.
    + intros p m Hp Hm.
      apply In_nth_error in Hp as [index_point Hip].
      apply In_nth_error in Hm as [index Hindex].
      assert (Hlt1 : index_point < length (p0 :: data))
        by (apply nth_error_Some; congruence).
      assert (Hin1 : In index_point (range (length (p0 :: data))))
        by (apply in_seq; lia).
      destruct (for_each_Ok_each _ _ _ _ Hloop index_point Hin1) as (s & s' & Hbody).
      unfold assign_point in Hbody.
      apply rbind_Ok in Hbody as (optim & Hinner & _).
      assert (Hlt2 : index < length (__medians self))
        by (apply nth_error_Some; congruence).
      assert (Hin2 : In index (range (length (__medians self))))
        by (apply in_seq; lia).
      destruct (for_each_Ok_each _ _ _ _ Hinner index Hin2) as (st & st' & Hnb).
      unfold nearest_body in Hnb.
      apply rbind_Ok in Hnb as (p' & Hp' & Hnb). apply getitem_Ok in Hp'.
      apply rbind_Ok in Hnb as (m' & Hm' & Hnb). apply getitem_Ok in Hm'.
      apply rbind_Ok in Hnb as (d & Hd & _). apply support_Ok in Hd.
      rewrite Hip in Hp'. rewrite Hindex in Hm'. inversion Hp'; inversion Hm'; subst.
      eauto.
  - intros [Hempty | [Hne Hdef]].
    + unfold update_clusters, bind, attr, lift. rewrite Hempty. simpl. eauto.
    + now apply update_clusters_total.
  - intros e self' Hrun.
    pose proof (update_clusters_frame dist self) as Hf. rewrite Hrun in Hf. simpl in Hf.
    split; [exact Hf|].
    unfold update_clusters, bind, attr, lift in Hrun. injection Hrun as Hloop _.
    apply for_each_Raise_some in Hloop as (s & x & _ & Hbody).
    eapply assign_point_Raise; eauto.
Qed.

Lemma X11_witness :
  update_clusters euclidean_distance_sqrt (init [[0]; [1; 1]]%Q [[0]]%Q (Real 1))
  = (Raise SupportError, init [[0]; [1; 1]]%Q [[0]]%Q (Real 1)) /\
  (SupportError = SupportError \/ SupportError = IndexError).
Proof.
  pose proof (proj2 (X11_update_clusters_completes_iff euclidean_distance_sqrt
                       (init [[0]; [1; 1]]%Q [[0]]%Q (Real 1)))
                    SupportError (init [[0]; [1; 1]]%Q [[0]]%Q (Real 1))) as H.
  split; [vm_compute; reflexivity|].
  apply H. vm_compute. reflexivity.
Defined.

(** *** The clusters and the centers of a returned engine *)

Lemma assigned_inv_first_nearest dist data medians clusters index_point p c :
  assigned_inv dist data medians (length data) clusters ->
  nth_error data index_point = Some p ->
  In index_point (nth c clusters []) <->
  exists dc, first_nearest dist p medians (length medians) c dc.
Proof.
  intros Hinv Hp.
  pose proof (assigned_inv_partition _ _ _ _ Hinv) as (_ & _ & Hone & _).
  destruct Hinv as (_ & _ & _ & Hnear).
  assert (Hfwd : forall c0, In index_point (nth c0 clusters []) ->
            exists dc, first_nearest dist p medians (length medians) c0 dc).
  { intros c0 Hin. apply In_nth_iff in Hin as (cluster & Hc & Hin).
    destruct (Hnear c0 cluster index_point Hc Hin) as (p' & dc & Hp' & Hfirst).
    rewrite Hp in Hp'. inversion Hp'; subst p'. eauto. }
  split; [apply Hfwd|].
  intros [dc Hfirst].
  destruct (Hone index_point) as (c0 & [_ Hin0] & _).
  { apply nth_error_Some. congruence. }
  destruct (Hfwd c0 Hin0) as [dc0 Hfirst0].
  now rewrite (first_nearest_unique dist _ _ _ _ _ _ _ Hfirst Hfirst0).
Qed.

(** X14: when the float product [stop] of the tolerance with itself is a
    real number, after a call of [process] that returns the clusters are the
    assignment of the points to their first nearest prototype among the
    prototypes [previous] that the last pass started from, and these are
    close to the centers that the engine returns: there are as many of them,
    and the squared distance from the previous prototype of an index to the
    center of that index is at most [stop]. *)
Theorem X14_clusters_of_previous_centers :
  forall (dist : point -> point -> option Q)
         (median : list point -> list nat -> option nat)
         (fuel : nat) (self self' : kmedians) (stop : Q),
    float_mul (__tolerance self) (__tolerance self) = Real stop ->
    process dist median fuel self = Some (Ok tt, self') ->
    exists previous,
      length previous = length (get_centers self') /\
      (forall index old new d,
          nth_error previous index = Some old ->
          nth_error (get_centers self') index = Some new ->
          dist old new = Some d ->
          (d <= stop)%Q) /\
      (forall index_point p c,
          nth_error (__pointer_data self) index_point = Some p ->
          In index_point (nth c (get_clusters self') []) <->
          exists dc, first_nearest dist p previous (length previous) c dc).
Proof.
  intros dist median fuel self self' stop Hreal Hrun.
  destruct (process_returns_passes dist median fuel self self' stop Hreal Hrun)
    as (_ & n & self_n & last & _ & Hp & Hit & Hstop).
  apply passes_state in Hp as (Hd & _ & _).
  pose proof (iteration_Ok_state dist median _ _ _ Hit) as (_ & _ & Hl & _).
  apply iteration_Ok in Hit as (clusters & updated & ds & Huc & _ & Hds & Hmax & ->).
  exists (__medians self_n). unfold get_centers, get_clusters. simpl in *.
  split; [congruence | split].
  - intros index old new d Hold Hnew Hdist.
    eapply Qle_trans; [|exact Hstop].
    eapply (proj1 (displacements_max dist _ _ _ _ Hds Hmax)); eauto.
  - intros index_point p c Hpt.
    apply update_clusters_inv in Huc. rewrite Hd in Huc.
    now apply assigned_inv_first_nearest with (data := __pointer_data self).
Qed.

Lemma X14_witness :
  exists stop,
    float_mul (Real 3) (Real 3) = Real stop /\
    (stop == 9)%Q /\
    exists previous,
      length previous = length [[0]; [4]]%Q /\
      (forall index old new d,
          nth_error previous index = Some old ->
          nth_error [[0]; [4]]%Q index = Some new ->
          euclidean_distance_sqrt old new = Some d ->
          (d <= stop)%Q) /\
      (forall index_point p c,
          nth_error sample_line index_point = Some p ->
          In index_point (nth c [[0]; [1; 2; 3; 4; 5]] []) <->
          exists dc, first_nearest euclidean_distance_sqrt p previous (length previous) c dc).
Proof.
  eexists. split; [vm_compute; reflexivity | split; [reflexivity|]].
  apply (X14_clusters_of_previous_centers euclidean_distance_sqrt geometric_median 2
           (init sample_line [[0]; [1]]%Q (Real 3))
           (mk_kmedians sample_line [[0]; [1; 2; 3; 4; 5]] [[0]; [4]]%Q (Real 3))).
  - vm_compute. reflexivity.
  - vm_compute. reflexivity.
Defined.

(** *** A stop condition that nothing exceeds *)

(** The float product of the tolerance with itself is not a number exactly
    for a tolerance that is not a number, and it is plus infinity for an
    infinite tolerance (and for a real one whose square overflows). *)
Lemma float_mul_square_special t :
  (float_mul t t = NotANumber <-> t = NotANumber) /\
  (t = PlusInfinity \/ t = MinusInfinity -> float_mul t t = PlusInfinity).
Proof.
  split; [split|].
  - destruct t as [x| | |]; simpl; try discriminate; auto.
    unfold binary64.
    destruct (x * x ?= 0)%Q; try discriminate;
      destruct (binary64_magnitude _); discriminate.
  - intros ->. reflexivity.
  - intros [-> | ->]; reflexivity.
Qed.

(** X15: when the float product of the tolerance with itself is plus
    infinity or not a number, [process] makes no pass, whatever the number of
    passes it may make: it ends as the dimension check ends (a normal return,
    [NameError] or [IndexError]) and leaves the engine as it was. *)
Theorem X15_process_without_pass :
  forall (dist : point -> point -> option Q)
         (median : list point -> list nat -> option nat)
         (fuel : nat) (self : kmedians),
    float_mul (__tolerance self) (__tolerance self) = PlusInfinity \/
    float_mul (__tolerance self) (__tolerance self) = NotANumber ->
    exists r,
      process dist median fuel self = Some (r, self) /\
      check_dimension self = (r, self) /\
      (r = Ok tt \/ r = Raise NameError \/ r = Raise IndexError).
Proof.
  intros dist median fuel self Hstop.
  destruct (check_dimension_cases self) as [[Hc _] | [[Hc _] | [Hc _]]].
  - exists (Ok tt). split; [|auto].
    now apply process_at_once.
  - exists (Raise NameError). unfold process. rewrite Hc. auto.
  - exists (Raise IndexError). unfold process. rewrite Hc. auto.
Qed.

Lemma X15_witness :
  exists r,
    process euclidean_distance_sqrt geometric_median 7
      (init sample_squares [[0; 0]; [1; 1]]%Q (Real (inject_Z (2 ^ 600))))
    = Some (r, init sample_squares [[0; 0]; [1; 1]]%Q (Real (inject_Z (2 ^ 600)))) /\
    check_dimension (init sample_squares [[0; 0]; [1; 1]]%Q (Real (inject_Z (2 ^ 600))))
    = (r, init sample_squares [[0; 0]; [1; 1]]%Q (Real (inject_Z (2 ^ 600)))) /\
    (r = Ok tt \/ r = Raise NameError \/ r = Raise IndexError).
Proof.
  apply (X15_process_without_pass euclidean_distance_sqrt geometric_median 7
           (init sample_squares [[0; 0]; [1; 1]]%Q (Real (inject_Z (2 ^ 600))))).
  left. vm_compute. reflexivity.
Defined.

(** X17: for a real tolerance whose exact square is at most [2 ^ 1023] (a
    magnitude of at most [2 ^ 511], about 6.7e153, is enough) the stop
    condition is a real number that is not negative; when the square is at
    least [2 ^ -1022] it is within one part in [2 ^ 53] of the square; and
    the clusters of an engine on which [process] has returned are a strict
    partition. *)
Theorem X17_stop_condition_of_moderate_tolerance :
  forall (dist : point -> point -> option Q)
         (median : list point -> list nat -> option nat)
         (fuel : nat) (self self' : kmedians) (x : Q),
    __tolerance self = Real x ->
    (x * x <= 2 ^ 1023)%Q ->
    exists stop,
      float_mul (__tolerance self) (__tolerance self) = Real stop /\
      (0 <= stop)%Q /\
      (2 ^ (-1022) <= x * x ->
       (1 - 2 ^ (-53)) * (x * x) <= stop /\ stop <= (1 + 2 ^ (-53)) * (x * x))%Q /\
      (process dist median fuel self = Some (Ok tt, self') ->
       strict_partition (length (__pointer_data self)) (length (__medians self))
                        (get_clusters self')).
Proof.
  intros dist median fuel self self' x Htol Hsmall.
  destruct (float_mul_square_finite x Hsmall) as (stop & Hstop & Hpos & Hacc).
  exists stop. rewrite Htol.
  split; [exact Hstop | split; [exact Hpos | split; [exact Hacc|]]].
  intro Hrun. unfold get_clusters.
  apply (process_returns_partition dist median fuel self self' stop); [|exact Hrun].
  now rewrite Htol.
Qed.

(** X18: for a real tolerance whose exact square is [2 ^ 1024] or more (a
    magnitude of [2 ^ 512], about 1.34e154, or more) the stop condition is
    plus infinity: [process] makes no pass, ends as the dimension check ends
    and leaves the engine as it was. *)
Theorem X18_no_pass_for_huge_tolerance :
  forall (dist : point -> point -> option Q)
         (median : list point -> list nat -> option nat)
         (fuel : nat) (self : kmedians) (x : Q),
    __tolerance self = Real x ->
    (2 ^ 1024 <= x * x)%Q ->
    exists r,
      process dist median fuel self = Some (r, self) /\
      check_dimension self = (r, self).
Proof.
  intros dist median fuel self x Htol Hbig.
  assert (Hstop : float_mul (__tolerance self) (__tolerance self) = PlusInfinity).
  { rewrite Htol. now apply float_mul_square_overflow. }
  destruct (check_dimension_cases self) as [[Hc _] | [[Hc _] | [Hc _]]].
  - exists (Ok tt). split; [|exact Hc]. apply process_at_once; auto.
  - exists (Raise NameError). unfold process. rewrite Hc. auto.
  - exists (Raise IndexError). unfold process. rewrite Hc. auto.
Qed.

Lemma X17_witness :
  exists stop,
    float_mul (Real (1 # 4)) (Real (1 # 4)) = Real stop /\
    (0 <= stop)%Q /\
    (2 ^ (-1022) <= (1 # 4) * (1 # 4) ->
     (1 - 2 ^ (-53)) * ((1 # 4) * (1 # 4)) <= stop /\
     stop <= (1 + 2 ^ (-53)) * ((1 # 4) * (1 # 4)))%Q /\
    (process euclidean_distance_sqrt geometric_median 4
       (init sample_squares [[0; 0]; [1; 1]]%Q (Real (1 # 4)))
     = Some (Ok tt, mk_kmedians sample_squares [[0; 1; 2; 3]; [4; 5; 6; 7]]
                                [[0; 0]; [10; 10]]%Q (Real (1 # 4))) ->
     strict_partition 8 2 [[0; 1; 2; 3]; [4; 5; 6; 7]]).
Proof.
  apply (X17_stop_condition_of_moderate_tolerance euclidean_distance_sqrt geometric_median 4
           (init sample_squares [[0; 0]; [1; 1]]%Q (Real (1 # 4)))
           (mk_kmedians sample_squares [[0; 1; 2; 3]; [4; 5; 6; 7]]
                        [[0; 0]; [10; 10]]%Q (Real (1 # 4)))
           (1 # 4)).
  - reflexivity.
  - vm_compute. discriminate.
Defined.

Lemma X18_witness :
  exists r,
    process euclidean_distance_sqrt geometric_median 7
      (init sample_squares [[0; 0]; [1; 1]]%Q (Real (inject_Z (2 ^ 512))))
    = Some (r, init sample_squares [[0; 0]; [1; 1]]%Q (Real (inject_Z (2 ^ 512)))) /\
    check_dimension (init sample_squares [[0; 0]; [1; 1]]%Q (Real (inject_Z (2 ^ 512))))
    = (r, init sample_squares [[0; 0]; [1; 1]]%Q (Real (inject_Z (2 ^ 512)))).
Proof.
  apply (X18_no_pass_for_huge_tolerance euclidean_distance_sqrt geometric_median 7
           (init sample_squares [[0; 0]; [1; 1]]%Q (Real (inject_Z (2 ^ 512))))
           (inject_Z (2 ^ 512))).
  - reflexivity.
  - vm_compute. discriminate.
Defined.

(** ** The objects that [process] hands out *)

Module StoreResults.

Import Store.
Import StoreFacts.

#[local] Hint Resolve readonly_ret readonly_raise readonly_lift readonly_attr
  readonly_call readonly_load readonly_len readonly_item readonly_item_signed : ro.

(** *** Computations that assign no attribute *)

Lemma keeps_self_readonly {A : Type} (c : M A) : readonly c -> keeps_self c.
Proof. intros Hro s. now rewrite Hro. Qed.

Lemma keeps_self_bind {A B : Type} (c : M A) (k : A -> M B) :
  keeps_self c -> (forall a, keeps_self (k a)) -> keeps_self (bind c k).
Proof.
  intros Hc Hk s. unfold bind. specialize (Hc s).
  destruct (c s) as [[a|e] s1]; simpl in *; auto.
  rewrite Hk. exact Hc.
Qed.

Lemma keeps_self_loop {A St : Type} (xs : list A) (body : St -> A -> M St) (acc : St) :
  (forall acc x, keeps_self (body acc x)) -> keeps_self (loop xs body acc).
Proof.
  intro Hbody. revert acc. induction xs as [|x t IH]; intro acc; simpl.
  - apply keeps_self_readonly, readonly_ret.
  - apply keeps_self_bind; auto.
Qed.

Lemma keeps_self_collect {A B : Type} (f : A -> M B) (xs : list A) :
  (forall x, keeps_self (f x)) -> keeps_self (collect f xs).
Proof.
  intro Hf. induction xs as [|x t IH]; simpl.
  - apply keeps_self_readonly, readonly_ret.
  - apply keeps_self_bind; auto. intro y.
    apply keeps_self_bind; auto. intro ys. apply keeps_self_readonly, readonly_ret.
Qed.

Lemma keeps_self_alloc elements : keeps_self (alloc elements).
Proof. intro s. reflexivity. Qed.

Lemma keeps_self_save v elements : keeps_self (save v elements).
Proof.
  intro s. unfold save. destruct v; simpl; auto.
  destruct (address <? length (snd s)); reflexivity.
Qed.

#[local] Hint Resolve keeps_self_alloc keeps_self_save : ro.

Ltac keeps_steps :=
  repeat lazymatch goal with
    | |- keeps_self (bind _ _) => apply keeps_self_bind; [| intro]
    | |- keeps_self (loop _ _ _) => apply keeps_self_loop; intros
    | |- keeps_self (collect _ _) => apply keeps_self_collect; intros
    | |- _ => first [ solve [auto with ro]
                    | apply keeps_self_readonly; solve [auto with ro] ]
    end.

Lemma keeps_self_empty_lists n : keeps_self (empty_lists n).
Proof. unfold empty_lists. keeps_steps. Qed.

Lemma keeps_self_append v x : keeps_self (append v x).
Proof. unfold append. keeps_steps. Qed.

Lemma keeps_self_assign_item v i x : keeps_self (assign_item v i x).
Proof. unfold assign_item. keeps_steps. Qed.

#[local] Hint Resolve keeps_self_empty_lists keeps_self_append keeps_self_assign_item : ro.

Section Methods.

Variable support_distance : store -> value -> value -> option Q.
Variable support_median : store -> value -> value -> option nat.

#[local] Hint Resolve readonly_nearest_body readonly_displacement : ro.

Lemma keeps_self_assign_point clusters acc index_point :
  keeps_self (assign_point support_distance clusters acc index_point).
Proof. unfold assign_point. keeps_steps. Qed.

Lemma keeps_self_median_body medians acc index :
  keeps_self (median_body support_median medians acc index).
Proof. unfold median_body. keeps_steps. Qed.

#[local] Hint Resolve keeps_self_assign_point keeps_self_median_body : ro.

Lemma keeps_self_update_clusters : keeps_self (update_clusters support_distance).
Proof. unfold update_clusters. keeps_steps. Qed.

Lemma keeps_self_update_medians : keeps_self (update_medians support_median).
Proof. unfold update_medians. keeps_steps. Qed.

Lemma triple_keeps {A : Type} (P : state -> Prop) (c : M A) (Qp : A -> state -> Prop)
    (E : state -> Prop) (self0 : kmedians) :
  keeps_self c ->
  triple P c Qp E ->
  triple (fun s => P s /\ fst s = self0) c (fun a s => Qp a s /\ fst s = self0) E.
Proof.
  intros Hk Hc s [Hs Hself]. specialize (Hc s Hs). specialize (Hk s).
  destruct (c s) as [[a|e] s1]; simpl in *; auto.
  split; [exact Hc | congruence].
Qed.

(** The list of [[[] for i in range(n)]] is a new object with [n] elements,
    created after every object that the store holds at the start. *)
Lemma empty_lists_sized base lo n :
  triple (fun s => over base s /\ lo <= length (snd s)) (empty_lists n)
         (fun v s => over base s /\
                     exists address elements,
                       v = Ref address /\ length base <= address /\ lo <= address /\
                       nth_error (snd s) address = Some elements /\
                       length elements = n)
         (over base).
Proof.
  unfold empty_lists.
  apply triple_bind with
    (Qm := fun elements s => (over base s /\ lo <= length (snd s)) /\ length elements = n).
  - eapply triple_weaken.
    + apply (triple_collect (fun _ : nat => alloc [])
               (fun rest done s =>
                  (over base s /\ lo <= length (snd s)) /\ length done + length rest = n)
               (over base)) with (done := []).
      intros x rest done [self h] [[Hover Hlo] Hlen]. simpl in *. split; [split|].
      * now apply over_alloc.
      * rewrite length_app. simpl. lia.
      * rewrite length_app. simpl. lia.
    + intros s Hs. split; [exact Hs|]. unfold range. simpl. now rewrite length_seq.
    + intros elements s [Hs Hlen]. simpl in Hlen. split; [exact Hs | lia].
    + auto.
  - intros elements [self h] [[Hover Hlo] Hlen]. simpl in *.
    split; [now apply over_alloc|].
    exists (length h), elements. repeat split; auto.
    + apply preserved_length in Hover. exact Hover.
    + rewrite nth_error_app2 by lia. now rewrite Nat.sub_diag.
Qed.

(** [__update_clusters] returns a list object that it has created. *)
Lemma update_clusters_fresh base :
  triple (over base) (update_clusters support_distance)
         (fun v s => over base s /\
                     exists address, v = Ref address /\ length base <= address < length (snd s))
         (over base).
Proof.
  unfold update_clusters.
  step_ro; [auto|]. step_ro; [auto|].
  eapply triple_bind; [apply empty_lists_owns|].
  intro clusters.
  apply triple_exists; intro address. apply triple_exists; intro elements.
  apply triple_pure; intros ->.
  step_ro; [apply owns_over|]. step_ro; [apply owns_over|].
  eapply triple_bind.
  - apply (triple_loop (assign_point support_distance (Ref address))
             (fun _ _ => owns base address elements) (over base)).
    intros x rest []. apply assign_point_owns.
  - intros u s (Hover & Hle & Hat & _). simpl.
    split; [exact Hover|]. exists address. split; [reflexivity | split; [exact Hle|]].
    apply nth_error_Some. congruence.
Qed.

(** One pass of the loop of [__update_medians]: the element assigned is an
    element of the dataset list. *)
Lemma median_body_filling base self0 d data_elements address K x rest :
  __pointer_data self0 = Ref d ->
  nth_error base d = Some data_elements ->
  length base <= address ->
  triple (filling base self0 data_elements address K (x :: rest))
         (median_body support_median (Ref address) tt x)
         (fun _ => filling base self0 data_elements address K rest)
         (over base).
Proof.
  intros Hdata Hd Hle [self h] Hpre.
  destruct Hpre as ([Hover Hself] & elements & Hat & Hlen & Hrest & Hbound & Hdone).
  simpl in Hself, Hat. subst self.
  assert (Hdat : nth_error h d = Some data_elements)
    by (eapply preserved_lookup; eauto).
  assert (Hx : x = K - S (length rest) /\ rest = seq (S x) (length rest)).
  { simpl in Hrest. injection Hrest as Hx0 Hr. split; [exact Hx0|].
    rewrite Hx0 at 1. exact Hr. }
  destruct Hx as [Hx Hrest'].
  simpl in Hbound.
  cbv [median_body bind attr item load call lift assign_item save getitem setitem
         support fst snd].
  rewrite Hdata.
  destruct (__clusters self0) as [| | |c]; auto.
  destruct (nth_error h c) as [cl|]; auto.
  destruct (nth_error cl x) as [cluster|]; auto.
  destruct (support_median h (Ref d) cluster) as [mi|]; auto.
  rewrite Hdat.
  destruct (nth_error data_elements mi) as [p|] eqn:Hp; auto.
  rewrite Hat.
  replace (x <? length elements) with true by (symmetry; apply Nat.ltb_lt; lia).
  replace (address <? length h) with true
    by (symmetry; apply Nat.ltb_lt; apply nth_error_Some; congruence).
  split; [split; [apply over_save; auto | reflexivity]|].
  exists (update_at elements x (fun _ => p)). simpl.
  split; [|split; [|split; [|split]]].
  - rewrite nth_error_update_at_eq. now rewrite Hat.
  - now rewrite length_update_at.
  - replace (K - length rest) with (S x) by lia. exact Hrest'.
  - lia.
  - intros j y Hj Hy.
    destruct (Nat.eq_dec x j) as [<- | Hne].
    + rewrite nth_error_update_at_eq in Hy.
      destruct (nth_error elements x); [|discriminate].
      simpl in Hy. inversion Hy; subst. eapply nth_error_In; eauto.
    + rewrite nth_error_update_at_ne in Hy by exact Hne.
      apply (Hdone j y); auto. simpl. lia.
Qed.

(** [__update_medians] returns a list object that it has created, whose
    elements are elements of the dataset list. *)
Lemma update_medians_filling base self0 d data_elements lo :
  __pointer_data self0 = Ref d ->
  nth_error base d = Some data_elements ->
  triple (fun s => (over base s /\ lo <= length (snd s)) /\ fst s = self0)
         (update_medians support_median)
         (fun v s => (over base s /\ fst s = self0) /\
                     exists address elements,
                       v = Ref address /\ length base <= address /\ lo <= address /\
                       nth_error (snd s) address = Some elements /\
                       forall x, In x elements -> In x data_elements)
         (over base).
Proof.
  intros Hdata Hd. unfold update_medians.
  step_ro; [intros s [[H _] _]; exact H|].
  step_ro; [intros s [[H _] _]; exact H|].
  rename a0 into K.
  eapply triple_bind.
  { apply triple_keeps; [apply keeps_self_empty_lists | apply (empty_lists_sized base lo K)]. }
  intros medians s ((Hover & address & elements & -> & Hle & Hlo & Hat & Hlen) & Hself).
  assert (Haux : triple (filling base self0 data_elements address K (range K))
                   (bind (loop (range K) (median_body support_median (Ref address)) tt)
                         (fun _ => ret (Ref address)))
                   (fun v s => (over base s /\ fst s = self0) /\
                               exists address' elements',
                                 v = Ref address' /\ length base <= address' /\
                                 lo <= address' /\
                                 nth_error (snd s) address' = Some elements' /\
                                 forall x, In x elements' -> In x data_elements)
                   (over base)).
  { eapply triple_bind.
    - apply (triple_loop (median_body support_median (Ref address))
               (fun rest _ => filling base self0 data_elements address K rest) (over base)).
      intros x rest []. now apply median_body_filling with (d := d).
    - intros u s1 (Hs1 & elements1 & Hat1 & Hlen1 & _ & _ & Hdone). simpl.
      split; [exact Hs1|].
      exists address, elements1. repeat split; auto.
      intros x Hx. apply In_nth_error in Hx as [j Hj].
      apply (Hdone j x); auto. simpl.
      assert (j < length elements1) by (apply nth_error_Some; congruence). lia. }
  apply (Haux s).
  split; [split; assumption|].
  exists elements. unfold range. rewrite length_seq, Nat.sub_diag.
  repeat split; auto. intros j y Hj. lia.
Qed.

(** One pass of the loop of [process]. *)
Lemma iteration_handed_out base self0 d data_elements :
  __pointer_data self0 = Ref d ->
  nth_error base d = Some data_elements ->
  triple (fun s => over base s /\ fst s = self0)
         (iteration support_distance support_median)
         (fun _ => handed_out base (Ref d) data_elements)
         (over base).
Proof.
  intros Hdata Hd. unfold iteration.
  eapply triple_bind.
  { apply triple_keeps; [apply keeps_self_update_clusters | apply (update_clusters_fresh base)]. }
  intros clusters s ((Hover & c & -> & Hc) & Hself).
  set (self1 := mk_kmedians (__pointer_data self0) (Ref c) (__medians self0)
                            (__tolerance self0)).
  assert (Haux :
    triple (fun s => (over base s /\ c < length (snd s)) /\ fst s = self0)
           (bind (set_clusters (Ref c))
              (fun _ => bind (update_medians support_median)
                 (fun updated_centers => bind (attr __medians)
                    (fun medians => bind (len medians)
                       (fun K => bind (collect (displacement support_distance updated_centers)
                                         (range K))
                          (fun ds => bind (alloc (map Float ds))
                             (fun _ => bind (lift (py_max ds))
                                (fun changes => bind (set_medians updated_centers)
                                   (fun _ => ret changes)))))))))
           (fun _ => handed_out base (Ref d) data_elements)
           (over base)).
  { eapply triple_bind with
      (Qm := fun _ s => (over base s /\ S c <= length (snd s)) /\ fst s = self1).
    { intros [self h] [[H1 H2] H3]. simpl in *. subst self. repeat split; auto. }
    intros u.
    eapply triple_bind.
    { apply (update_medians_filling base self1 d data_elements (S c)); auto. }
    intros updated s1.
    intros ((Hover1 & Hself1) & m & elements & -> & Hm & Hcm & Hat & Hin). revert s1 Hover1 Hself1 Hat.
    assert (Hrest :
      triple (fun s => (over base s /\ fst s = self1) /\
                       nth_error (snd s) m = Some elements)
             (bind (attr __medians)
                (fun medians => bind (len medians)
                   (fun K => bind (collect (displacement support_distance (Ref m)) (range K))
                      (fun ds => bind (alloc (map Float ds))
                         (fun _ => bind (lift (py_max ds))
                            (fun changes => bind (set_medians (Ref m))
                               (fun _ => ret changes)))))))
             (fun _ => handed_out base (Ref d) data_elements)
             (over base)).
    { step_ro; [intros s1 [[H _] _]; exact H|].
      step_ro; [intros s1 [[H _] _]; exact H|].
      apply triple_bind_readonly; [| intros s1 [[H _] _]; exact H | intro ds].
      { apply readonly_collect. intro. apply readonly_displacement. }
      eapply triple_bind with
        (Qm := fun _ s => (over base s /\ fst s = self1) /\
                          nth_error (snd s) m = Some elements).
      { intros [self h] [[H1 H2] H3]. simpl in *. repeat split; auto.
        - now apply over_alloc.
        - rewrite nth_error_app1; auto. apply nth_error_Some. congruence. }
      intros u1.
      step_ro; [intros s1 [[H _] _]; exact H|].
      intros [self h] [[H1 H2] H3]. simpl in *. subst self. simpl.
      assert (Hmlt : m < length h) by (apply nth_error_Some; congruence).
      split; [exact H1 | split; [exact Hdata|]].
      exists c, m, elements. simpl. repeat split; auto; lia. }
    intros s1 Hover1 Hself1 Hat. apply (Hrest s1). auto. }
  apply (Haux s). repeat split; auto; lia.
Qed.

Lemma process_loop_handed_out base d data_elements fuel changes stop_condition s s' :
  nth_error base d = Some data_elements ->
  over base s ->
  __pointer_data (fst s) = Ref d ->
  process_loop support_distance support_median fuel changes stop_condition s
  = Some (Ok tt, s') ->
  (exceeds changes stop_condition = false /\ s' = s) \/
  handed_out base (Ref d) data_elements s'.
Proof.
  intro Hd. revert changes s.
  induction fuel as [|fuel IH]; intros changes s Hover Hdata; simpl.
  - destruct (exceeds _ _); [discriminate|]. intro H. inversion H. auto.
  - destruct (exceeds _ _); [|intro H; inversion H; auto].
    pose proof (iteration_handed_out base (fst s) d data_elements Hdata Hd s
                  (conj Hover eq_refl)) as Hit.
    destruct (iteration support_distance support_median s) as [[c|e] s1]; [|discriminate].
    intro Hrun. right.
    destruct (IH (Finite c) s1) as [[_ ->] | H]; auto; try apply Hit.
Qed.

(** A call of [process] that returns after a pass has found the dataset
    list in the store, and has left in the engine what a pass leaves. *)
Lemma process_handed_out fuel s s' stop :
  float_mul (__tolerance (fst s)) (__tolerance (fst s)) = Real stop ->
  process support_distance support_median fuel s = Some (Ok tt, s') ->
  exists d data_elements,
    __pointer_data (fst s) = Ref d /\
    nth_error (snd s) d = Some data_elements /\
    handed_out (snd s) (Ref d) data_elements s'.
Proof.
  unfold process. intros Hstop Hrun. rewrite Hstop in Hrun.
  pose proof (readonly_check_dimension s) as Hro.
  destruct (check_dimension s) as [[u|e] s1] eqn:Hc; simpl in Hro; subst s1;
    try discriminate.
  assert (Hdata : exists d data_elements,
             __pointer_data (fst s) = Ref d /\ nth_error (snd s) d = Some data_elements).
  { revert Hc. cbv [check_dimension bind attr item load].
    destruct (__pointer_data (fst s)) as [| | |d]; try discriminate.
    destruct (nth_error (snd s) d) as [data_elements|] eqn:Hat; [|discriminate].
    intros _. exists d, data_elements. split; [reflexivity | exact Hat]. }
  destruct Hdata as (d & data_elements & Hd & Hat).
  exists d, data_elements. split; [exact Hd | split; [exact Hat|]].
  destruct (process_loop_handed_out (snd s) d data_elements fuel Inf _ s s' Hat
              (preserved_refl (snd s)) Hd Hrun) as [[Hgo _] | H].
  - discriminate.
  - exact H.
Qed.

End Methods.

(** X12: when the float product of the tolerance with itself is a real
    number, a call of [process] that returns leaves in [__clusters] and in
    [__medians] two different list objects that the call has created: both
    are in the store after the call and neither was in the store before it.
    The lists that the engine held before (what [get_clusters] and
    [get_centers] answered before the call) are still in the store with their
    elements. *)
Theorem X12_results_are_new_objects :
  forall (support_distance : store -> value -> value -> option Q)
         (support_median : store -> value -> value -> option nat)
         (fuel : nat) (s s' : state) (stop : Q),
    float_mul (__tolerance (fst s)) (__tolerance (fst s)) = Real stop ->
    process support_distance support_median fuel s = Some (Ok tt, s') ->
    preserved (snd s) (snd s') /\
    exists clusters_address medians_address,
      get_clusters (fst s') = Ref clusters_address /\
      get_centers (fst s') = Ref medians_address /\
      length (snd s) <= clusters_address < length (snd s') /\
      length (snd s) <= medians_address < length (snd s') /\
      clusters_address <> medians_address.
Proof.
  intros sd sm fuel s s' stop Hstop Hrun.
  destruct (process_handed_out sd sm fuel s s' stop Hstop Hrun)
    as (d & data_elements & _ & _ & Hover & _ & c & m & elements & Hc & Hm & Hcb & Hmb & Hne & _).
  split; [exact Hover|].
  exists c, m. unfold get_clusters, get_centers. repeat split; auto; lia.
Qed.

(** X13: when the float product of the tolerance with itself is a real
    number, after a call of [process] that returns every element of the list
    of centers is an element of the dataset list, which is still what it was
    before the call: the centers that [get_centers] hands out are the point
    objects of the caller's dataset themselves, not copies of them. *)
Theorem X13_centers_are_dataset_objects :
  forall (support_distance : store -> value -> value -> option Q)
         (support_median : store -> value -> value -> option nat)
         (fuel : nat) (s s' : state) (stop : Q),
    float_mul (__tolerance (fst s)) (__tolerance (fst s)) = Real stop ->
    process support_distance support_median fuel s = Some (Ok tt, s') ->
    exists data_address data_elements medians_address centers,
      __pointer_data (fst s) = Ref data_address /\
      __pointer_data (fst s') = Ref data_address /\
      nth_error (snd s) data_address = Some data_elements /\
      nth_error (snd s') data_address = Some data_elements /\
      get_centers (fst s') = Ref medians_address /\
      nth_error (snd s') medians_address = Some centers /\
      forall x, In x centers -> In x data_elements.
Proof.
  intros sd sm fuel s s' stop Hstop Hrun.
  destruct (process_handed_out sd sm fuel s s' stop Hstop Hrun)
    as (d & data_elements & Hd & Hat & Hover & Hd' & c & m & elements
        & _ & Hm & _ & _ & _ & Hel & Hin).
  exists d, data_elements, m, elements. unfold get_centers.
  repeat split; auto.
  eapply preserved_lookup; eauto.
Qed.

Lemma X12_witness :
  exists s1 s2,
    init (Ref 8) (Ref 11) (Real (1 # 4)) sample_store = (Ok tt, s1) /\
    process distance_on median_on 5 s1 = Some (Ok tt, s2) /\
    preserved (snd s1) (snd s2) /\
    exists clusters_address medians_address,
      get_clusters (fst s2) = Ref clusters_address /\
      get_centers (fst s2) = Ref medians_address /\
      length (snd s1) <= clusters_address < length (snd s2) /\
      length (snd s1) <= medians_address < length (snd s2) /\
      clusters_address <> medians_address.
Proof.
  eexists. eexists.
  split; [vm_compute; reflexivity|].
  split; [vm_compute; reflexivity|].
  eapply (X12_results_are_new_objects distance_on median_on 5).
  - vm_compute. reflexivity.
  - vm_compute. reflexivity.
Defined.

Lemma X13_witness :
  exists s1 s2,
    init (Ref 8) (Ref 11) (Real (1 # 4)) sample_store = (Ok tt, s1) /\
    process distance_on median_on 5 s1 = Some (Ok tt, s2) /\
    exists data_address data_elements medians_address centers,
      __pointer_data (fst s1) = Ref data_address /\
      __pointer_data (fst s2) = Ref data_address /\
      nth_error (snd s1) data_address = Some data_elements /\
      nth_error (snd s2) data_address = Some data_elements /\
      get_centers (fst s2) = Ref medians_address /\
      nth_error (snd s2) medians_address = Some centers /\
      forall x, In x centers -> In x data_elements.
Proof.
  eexists. eexists.
  split; [vm_compute; reflexivity|].
  split; [vm_compute; reflexivity|].
  eapply (X13_centers_are_dataset_objects distance_on median_on 5).
  - vm_compute. reflexivity.
  - vm_compute. reflexivity.
Defined.

(** On [sample_store] the centers that the engine ends with are the objects
    at the addresses 0 and 4, two points of the caller's dataset. *)
Example store_centers_alias :
  match init (Ref 8) (Ref 11) (Real (1 # 4)) sample_store with
  | (Ok _, s1) =>
      match process distance_on median_on 5 s1 with
      | Some (Ok _, (self, h)) => elements_of h (get_centers self)
      | _ => None
      end
  | _ => None
  end = Some [Ref 0; Ref 4].
Proof. vm_compute. reflexivity. Qed.

End StoreResults.

(** ** The engine over the store and the engine over values *)

Module StoreRefinement.

Import StoreFacts.

(** *** Reading back *)

Lemma all_some_Forall2 {A B : Type} (f : A -> option B) (l : list A) (ys : list B) :
  Store.all_some (map f l) = Some ys <-> Forall2 (fun x y => f x = Some y) l ys.
Proof.
  revert ys. induction l as [|x t IH]; intro ys; simpl.
  - split; intro H; [inversion H; constructor | inversion H; reflexivity].
  - destruct (f x) as [y|] eqn:Hx.
    + destruct (Store.all_some (map f t)) as [ys'|] eqn:Ht; simpl.
      * split; intro H.
        -- inversion H; subst. constructor; auto. now apply IH.
        -- inversion H; subst. apply IH in H4. congruence.
      * split; intro H; [discriminate|].
        inversion H; subst. apply IH in H4. discriminate.
    + split; intro H; [discriminate|]. inversion H; subst. congruence.
Qed.

Lemma Forall2_getitem {A B : Type} (P : A -> B -> Prop) (l : list A) (l' : list B) (i : nat) :
  Forall2 P l l' ->
  match getitem l i, getitem l' i with
  | Ok x, Ok y => P x y
  | Raise e, Raise e' => e = IndexError /\ e' = IndexError
  | _, _ => False
  end.
Proof.
  intro H. revert i. induction H as [|x y l l' Hxy H IH]; intros [|i]; simpl; auto.
  apply IH.
Qed.

Lemma elements_of_preserved h h' v elements :
  Store.preserved h h' -> Store.elements_of h v = Some elements ->
  Store.elements_of h' v = Some elements.
Proof.
  intros Hp. destruct v; simpl; try discriminate. now apply preserved_lookup.
Qed.

Lemma point_of_preserved h h' v p :
  Store.preserved h h' -> Store.point_of h v = Some p -> Store.point_of h' v = Some p.
Proof.
  intros Hp. unfold Store.point_of.
  destruct (Store.elements_of h v) as [elements|] eqn:He; [|discriminate].
  now rewrite (elements_of_preserved h h' v elements Hp He).
Qed.

Lemma indexes_of_preserved h h' v l :
  Store.preserved h h' -> Store.indexes_of h v = Some l -> Store.indexes_of h' v = Some l.
Proof.
  intros Hp. unfold Store.indexes_of.
  destruct (Store.elements_of h v) as [elements|] eqn:He; [|discriminate].
  now rewrite (elements_of_preserved h h' v elements Hp He).
Qed.

Lemma points_of_preserved h h' v points :
  Store.preserved h h' -> Store.points_of h v = Some points -> Store.points_of h' v = Some points.
Proof.
  intros Hp. unfold Store.points_of.
  destruct (Store.elements_of h v) as [elements|] eqn:He; [|discriminate].
  rewrite (elements_of_preserved h h' v elements Hp He).
  rewrite !all_some_Forall2. intro H.
  eapply Forall2_impl; [|exact H]. intros x p. now apply point_of_preserved.
Qed.

Lemma clusters_of_preserved h h' v clusters :
  Store.preserved h h' -> Store.clusters_of h v = Some clusters ->
  Store.clusters_of h' v = Some clusters.
Proof.
  intros Hp. unfold Store.clusters_of.
  destruct (Store.elements_of h v) as [elements|] eqn:He; [|discriminate].
  rewrite (elements_of_preserved h h' v elements Hp He).
  rewrite !all_some_Forall2. intro H.
  eapply Forall2_impl; [|exact H]. intros x p. now apply indexes_of_preserved.
Qed.

Lemma represents_preserved self h h' a :
  Store.preserved h h' -> represents (self, h) a -> represents (self, h') a.
Proof.
  intros Hp (Hd & Hc & Hm & Ht). simpl in *.
  split; [|split; [|split]]; simpl; auto.
  - eapply points_of_preserved; eauto.
  - eapply clusters_of_preserved; eauto.
  - eapply points_of_preserved; eauto.
Qed.

(** What a successful read-back says of the store. *)
Lemma points_of_inv h v points :
  Store.points_of h v = Some points ->
  exists elements,
    Store.elements_of h v = Some elements /\
    Forall2 (fun x p => Store.point_of h x = Some p) elements points.
Proof.
  unfold Store.points_of.
  destruct (Store.elements_of h v) as [elements|]; [|discriminate].
  intro H. exists elements. split; [reflexivity | now apply all_some_Forall2].
Qed.

Lemma clusters_of_inv h v clusters :
  Store.clusters_of h v = Some clusters ->
  exists elements,
    Store.elements_of h v = Some elements /\
    Forall2 (fun x c => Store.indexes_of h x = Some c) elements clusters.
Proof.
  unfold Store.clusters_of.
  destruct (Store.elements_of h v) as [elements|]; [|discriminate].
  intro H. exists elements. split; [reflexivity | now apply all_some_Forall2].
Qed.

Lemma point_of_inv h v p :
  Store.point_of h v = Some p ->
  exists elements,
    Store.elements_of h v = Some elements /\ length elements = length p.
Proof.
  unfold Store.point_of.
  destruct (Store.elements_of h v) as [elements|]; [|discriminate].
  intro H. exists elements. split; [reflexivity|].
  apply all_some_Forall2 in H. now apply Forall2_length in H.
Qed.

Lemma elements_of_address h v elements :
  Store.elements_of h v = Some elements ->
  exists address, v = Store.Ref address /\ nth_error h address = Some elements /\
                  address < length h.
Proof.
  destruct v; simpl; try discriminate. intro H. exists address.
  repeat split; auto. apply nth_error_Some. congruence.
Qed.

(** The primitive reads, on a value that refers to a list object. *)
Lemma load_elements s v elements :
  Store.elements_of (snd s) v = Some elements -> Store.load v s = (Ok elements, s).
Proof.
  unfold Store.load. destruct v; simpl; try discriminate. now intros ->.
Qed.

Lemma len_elements s v elements :
  Store.elements_of (snd s) v = Some elements -> Store.len v s = (Ok (length elements), s).
Proof.
  intro H. unfold Store.len, Store.bind. now rewrite (load_elements s v elements H).
Qed.

Lemma item_elements s v elements i :
  Store.elements_of (snd s) v = Some elements ->
  Store.item v i s = (getitem elements i, s).
Proof.
  intro H. unfold Store.item, Store.bind. rewrite (load_elements s v elements H).
  unfold Store.lift. destruct (getitem elements i); reflexivity.
Qed.

(** [[[] for i in range(n)]] creates [n] empty lists, then the list of
    their references. *)
Lemma collect_alloc_empty {A : Type} (xs : list A) (s : Store.state) :
  Store.collect (fun _ => Store.alloc []) xs s
  = (Ok (map Store.Ref (seq (length (snd s)) (length xs))),
     (fst s, snd s ++ repeat [] (length xs))).
Proof.
  revert s. induction xs as [|x t IH]; intro s; simpl.
  - rewrite app_nil_r. now destruct s.
  - unfold Store.bind at 1. unfold Store.alloc at 1.
    unfold Store.bind. rewrite IH. cbn [fst snd Store.ret].
    rewrite length_app, <- app_assoc. simpl. rewrite Nat.add_1_r. reflexivity.
Qed.

Lemma empty_lists_run (n : nat) (s : Store.state) :
  Store.empty_lists n s
  = (Ok (Store.Ref (length (snd s) + n)),
     (fst s, snd s ++ repeat [] n ++ [map Store.Ref (seq (length (snd s)) n)])).
Proof.
  unfold Store.empty_lists, Store.bind. rewrite collect_alloc_empty.
  unfold range. rewrite length_seq. unfold Store.alloc. cbn [fst snd].
  rewrite length_app, repeat_length, <- app_assoc. reflexivity.
Qed.

Lemma nth_error_repeat_lt {A : Type} (x : A) (n j : nat) :
  j < n -> nth_error (repeat x n) j = Some x.
Proof.
  revert j. induction n as [|n IH]; intros [|j] Hj; simpl; try lia; auto.
  apply IH. lia.
Qed.

Lemma nth_error_map_const {A B : Type} (y : B) (l : list A) (j : nat) (z : B) :
  nth_error (map (fun _ => y) l) j = Some z -> z = y /\ j < length l.
Proof.
  revert j. induction l as [|x t IH]; intros [|j]; simpl; try discriminate.
  - intro H. inversion H. split; [reflexivity | lia].
  - intro H. apply IH in H as [-> Hj]. split; [reflexivity | lia].
Qed.

Lemma clusters_at_empty (h : Store.store) (K : nat) :
  clusters_at (length h) (map (fun _ => []) (range K))
    (h ++ repeat [] K ++ [map Store.Ref (seq (length h) K)]).
Proof.
  unfold clusters_at, range. rewrite length_map, length_seq. split.
  - rewrite nth_error_app2 by lia.
    replace (length h + K - length h) with K by lia.
    rewrite nth_error_app2 by (rewrite repeat_length; lia).
    rewrite repeat_length, Nat.sub_diag. reflexivity.
  - intros j cluster Hj. apply nth_error_map_const in Hj as [-> Hj].
    rewrite length_seq in Hj.
    rewrite nth_error_app2 by lia.
    replace (length h + j - length h) with j by lia.
    rewrite nth_error_app1 by (rewrite repeat_length; lia).
    now apply nth_error_repeat_lt.
Qed.

Lemma clusters_at_read (lo : nat) (clusters : list (list nat)) (h : Store.store) :
  clusters_at lo clusters h ->
  Store.clusters_of h (Store.Ref (lo + length clusters)) = Some clusters.
Proof.
  intros [Hlist Hall]. unfold Store.clusters_of. simpl. rewrite Hlist.
  apply all_some_Forall2.
  clear Hlist. revert lo Hall. induction clusters as [|c t IH]; intros lo Hall; simpl.
  - constructor.
  - constructor.
    + unfold Store.indexes_of. simpl.
      specialize (Hall 0 c eq_refl). rewrite Nat.add_0_r in Hall. rewrite Hall.
      apply all_some_Forall2. clear. induction c; simpl; constructor; auto.
    + apply IH. intros j cluster Hj.
      specialize (Hall (S j) cluster Hj). now rewrite <- Nat.add_succ_comm in Hall.
Qed.

Lemma clusters_at_append (lo : nat) (clusters : list (list nat)) (h : Store.store)
    (j index_point : nat) (cluster : list nat) :
  clusters_at lo clusters h ->
  nth_error clusters j = Some cluster ->
  clusters_at lo (update_at clusters j (fun c => c ++ [index_point]))
    (update_at h (lo + j) (fun _ => map Store.Int cluster ++ [Store.Int index_point])).
Proof.
  intros [Hlist Hall] Hj.
  assert (Hlt : j < length clusters) by (apply nth_error_Some; congruence).
  unfold clusters_at. rewrite length_update_at. split.
  - rewrite nth_error_update_at_ne by lia. exact Hlist.
  - intros j' c' Hj'.
    destruct (Nat.eq_dec j j') as [<- | Hne].
    + rewrite nth_error_update_at_eq in Hj'. rewrite Hj in Hj'. simpl in Hj'.
      inversion Hj'; subst c'.
      rewrite nth_error_update_at_eq, (Hall j cluster Hj). simpl.
      now rewrite map_app.
    + rewrite nth_error_update_at_ne in Hj' by exact Hne.
      rewrite nth_error_update_at_ne by lia. now apply Hall.
Qed.

Lemma point_of_update_other h address f x :
  x <> Store.Ref address ->
  Store.point_of (update_at h address f) x = Store.point_of h x.
Proof.
  intro Hne. unfold Store.point_of, Store.elements_of.
  destruct x as [| | |a]; auto.
  rewrite nth_error_update_at_ne; [reflexivity | congruence].
Qed.

Lemma Forall2_update_at {A B : Type} (P : A -> B -> Prop) (l : list A) (l' : list B)
    (i : nat) (x : A) (y : B) :
  Forall2 P l l' -> P x y ->
  Forall2 P (update_at l i (fun _ => x)) (update_at l' i (fun _ => y)).
Proof.
  intros H Hxy. revert i. induction H as [|a b l l' Hab H IH]; intros [|i]; simpl;
    constructor; auto.
Qed.

Lemma medians_at_empty (h : Store.store) (K : nat) :
  medians_at (length h + K) (map (fun _ => []) (range K))
    (h ++ repeat [] K ++ [map Store.Ref (seq (length h) K)]).
Proof.
  exists (map Store.Ref (seq (length h) K)). split.
  - rewrite nth_error_app2 by lia.
    replace (length h + K - length h) with K by lia.
    rewrite nth_error_app2 by (rewrite repeat_length; lia).
    rewrite repeat_length, Nat.sub_diag. reflexivity.
  - unfold range.
    assert (Hgen : forall n lo k, length h <= lo -> lo + n <= length h + K ->
              Forall2 (fun x p => x <> Store.Ref (length h + K) /\
                         Store.point_of (h ++ repeat [] K ++
                                           [map Store.Ref (seq (length h) K)]) x = Some p)
                      (map Store.Ref (seq lo n)) (map (fun _ => []) (seq k n))).
    { induction n as [|n IH]; intros lo k Hlo Hhi; simpl; constructor.
      - split; [intro H; inversion H; lia|].
        unfold Store.point_of, Store.elements_of.
        rewrite nth_error_app2 by lia.
        rewrite nth_error_app1 by (rewrite repeat_length; lia).
        rewrite nth_error_repeat_lt by lia. reflexivity.
      - apply IH; lia. }
    apply Hgen; lia.
Qed.

Lemma medians_at_read (address : nat) (medians : list point) (h : Store.store) :
  medians_at address medians h ->
  Store.points_of h (Store.Ref address) = Some medians.
Proof.
  intros (elements & Hat & Hall). unfold Store.points_of. simpl. rewrite Hat.
  apply all_some_Forall2. eapply Forall2_impl; [|exact Hall].
  intros x p [_ H]. exact H.
Qed.

Ltac raised e s :=
  exists (Raise e), s; cbn [rbind support];
  split; [reflexivity | split; [reflexivity | split; [assumption | reflexivity]]].

Section Refinement.

Variable support_distance : Store.store -> Store.value -> Store.value -> option Q.
Variable support_median : Store.store -> Store.value -> Store.value -> option nat.
Variable dist : point -> point -> option Q.
Variable median : list point -> list nat -> option nat.

(** The collaborators over the store see the values of their arguments
    only, and answer as the collaborators over values do. *)
Hypothesis distance_reads :
  forall h a b p q,
    Store.point_of h a = Some p -> Store.point_of h b = Some q ->
    support_distance h a b = dist p q.
Hypothesis median_reads :
  forall h d l points indexes,
    Store.points_of h d = Some points -> Store.indexes_of h l = Some indexes ->
    support_median h d l = median points indexes.


Lemma nearest_body_refines s data medians index_point optim index :
  Store.points_of (snd s) (Store.__pointer_data (fst s)) = Some data ->
  Store.points_of (snd s) (Store.__medians (fst s)) = Some medians ->
  Store.nearest_body support_distance index_point optim index s
  = (nearest_body dist data medians index_point optim index, s).
Proof.
  intros Hd Hm.
  apply points_of_inv in Hd as (delements & Hde & Hdf).
  apply points_of_inv in Hm as (melements & Hme & Hmf).
  unfold Store.nearest_body, nearest_body, Store.bind, Store.attr.
  cbn [fst snd]. rewrite (item_elements _ _ _ _ Hde).
  pose proof (Forall2_getitem _ _ _ index_point Hdf) as Hp.
  destruct (getitem delements index_point) as [x|e];
    destruct (getitem data index_point) as [p|e']; try contradiction;
    [|destruct Hp as [-> ->]; reflexivity].
  cbn [fst snd rbind]. rewrite (item_elements _ _ _ _ Hme).
  pose proof (Forall2_getitem _ _ _ index Hmf) as Hq.
  destruct (getitem melements index) as [y|e];
    destruct (getitem medians index) as [m|e']; try contradiction;
    [|destruct Hq as [-> ->]; reflexivity].
  cbn [fst snd rbind]. unfold Store.call. cbn [fst snd].
  rewrite (distance_reads _ _ _ _ _ Hp Hq).
  destruct (dist p m) as [d|]; cbn [support rbind]; [|reflexivity].
  destruct (Qlt_bool d (snd optim) || (index =? 0)); reflexivity.
Qed.

(** A loop whose body only reads runs as the loop over values. *)
Lemma loop_reads {A St : Type} (xs : list A) (body : St -> A -> Store.M St)
    (body' : St -> A -> result St) (s : Store.state) :
  (forall acc x, body acc x s = (body' acc x, s)) ->
  forall acc, Store.loop xs body acc s = (for_each xs body' acc, s).
Proof.
  intro Hbody. induction xs as [|x t IH]; intro acc; simpl; [reflexivity|].
  unfold Store.bind. rewrite Hbody.
  destruct (body' acc x) as [acc'|e]; [apply IH | reflexivity].
Qed.

Lemma collect_reads {A B : Type} (xs : list A) (f : A -> Store.M B)
    (f' : A -> result B) (s : Store.state) :
  (forall x, f x s = (f' x, s)) ->
  Store.collect f xs s = (comprehension f' xs, s).
Proof.
  intro Hf. induction xs as [|x t IH]; simpl; [reflexivity|].
  unfold Store.bind. rewrite Hf.
  destruct (f' x) as [y|e]; [|reflexivity].
  rewrite IH. destruct (comprehension f' t); reflexivity.
Qed.

Lemma check_dimension_refines s a :
  represents s a ->
  Store.check_dimension s = (fst (check_dimension a), s) /\
  snd (check_dimension a) = a.
Proof.
  intros (Hd & _ & Hm & _).
  apply points_of_inv in Hd as (delements & Hde & Hdf).
  apply points_of_inv in Hm as (melements & Hme & Hmf).
  unfold Store.check_dimension, check_dimension, Store.bind, Store.attr, bind, attr, lift.
  cbn [fst snd]. rewrite (item_elements _ _ _ _ Hde).
  pose proof (Forall2_getitem _ _ _ 0 Hdf) as Hp.
  destruct (getitem delements 0) as [x|e];
    destruct (getitem (__pointer_data a) 0) as [p|e']; try contradiction;
    [|destruct Hp as [-> ->]; split; reflexivity].
  apply point_of_inv in Hp as (pelements & Hpe & Hpl).
  cbn [fst snd]. rewrite (len_elements _ _ _ Hpe). rewrite (item_elements _ _ _ _ Hme).
  pose proof (Forall2_getitem _ _ _ 0 Hmf) as Hq.
  destruct (getitem melements 0) as [y|e];
    destruct (getitem (__medians a) 0) as [m|e']; try contradiction;
    [|destruct Hq as [-> ->]; split; reflexivity].
  apply point_of_inv in Hq as (qelements & Hqe & Hql).
  cbn [fst snd]. rewrite (len_elements _ _ _ Hqe). rewrite Hpl, Hql.
  destruct (negb (length p =? length m)); split; reflexivity.
Qed.

Lemma displacement_refines s medians updated updated_centers index :
  Store.points_of (snd s) (Store.__medians (fst s)) = Some medians ->
  Store.points_of (snd s) updated_centers = Some updated ->
  Store.displacement support_distance updated_centers index s
  = ((old <- getitem medians index ;;
      new <- getitem updated index ;;
      support (dist old new))%result, s).
Proof.
  intros Hm Hu.
  apply points_of_inv in Hm as (melements & Hme & Hmf).
  apply points_of_inv in Hu as (uelements & Hue & Huf).
  unfold Store.displacement, Store.bind, Store.attr.
  cbn [fst snd]. rewrite (item_elements _ _ _ _ Hme).
  pose proof (Forall2_getitem _ _ _ index Hmf) as Hp.
  destruct (getitem melements index) as [x|e];
    destruct (getitem medians index) as [p|e']; try contradiction;
    [|destruct Hp as [-> ->]; reflexivity].
  cbn [fst snd rbind]. rewrite (item_elements _ _ _ _ Hue).
  pose proof (Forall2_getitem _ _ _ index Huf) as Hq.
  destruct (getitem uelements index) as [y|e];
    destruct (getitem updated index) as [m|e']; try contradiction;
    [|destruct Hq as [-> ->]; reflexivity].
  cbn [fst snd rbind]. unfold Store.call. cbn [fst snd].
  now rewrite (distance_reads _ _ _ _ _ Hp Hq).
Qed.

(** One step of the outer loop of [__update_clusters]: the store changes
    as the list of clusters does. *)
Lemma assign_point_refines base lo data medians clusters index_point s :
  Store.over base s -> length base <= lo ->
  Store.points_of base (Store.__pointer_data (fst s)) = Some data ->
  Store.points_of base (Store.__medians (fst s)) = Some medians ->
  clusters_at lo clusters (snd s) ->
  exists r s',
    Store.assign_point support_distance (Store.Ref (lo + length clusters)) tt index_point s
    = (r, s') /\
    fst s' = fst s /\ Store.over base s' /\
    match assign_point dist data medians clusters index_point with
    | Ok clusters' => r = Ok tt /\ clusters_at lo clusters' (snd s')
    | Raise e => r = Raise e
    end.
Proof.
  intros Hover Hlo Hd Hm Hat.
  pose proof (points_of_preserved _ _ _ _ Hover Hd) as Hd'.
  pose proof (points_of_preserved _ _ _ _ Hover Hm) as Hm'.
  destruct (points_of_inv _ _ _ Hm') as (melements & Hme & Hmf).
  apply Forall2_length in Hmf.
  unfold Store.assign_point, assign_point, Store.bind, Store.attr.
  cbn [fst snd]. rewrite (len_elements _ _ _ Hme), Hmf.
  rewrite (loop_reads _ _ (nearest_body dist data medians index_point) s)
    by (intros acc x; now apply nearest_body_refines).
  destruct (for_each (range (length medians)) _ _) as [optim|e]; cbn [rbind];
    [|exists (Raise e), s; auto].
  destruct Hat as [Hlist Hall].
  unfold Store.item_signed, Store.bind, Store.load. cbn [fst snd]. rewrite Hlist.
  unfold Store.lift. rewrite length_map, length_seq.
  destruct (normalize_index (length clusters) (fst optim)) as [j|e] eqn:Hj; cbn [rbind];
    [|exists (Raise e), s; auto].
  apply normalize_index_Ok in Hj as [Hjlt _].
  unfold getitem. rewrite nth_error_map, nth_error_seq.
  destruct (Nat.ltb_spec j (length clusters)) as [_|]; [|lia]. cbn [option_map].
  destruct (nth_error clusters j) as [cluster|] eqn:Hc;
    [|apply nth_error_None in Hc; lia].
  unfold Store.append, Store.bind, Store.load, Store.save. cbn [fst snd].
  rewrite (Hall j cluster Hc).
  assert (Hin : lo + j < length (snd s)).
  { apply nth_error_Some. rewrite (Hall j cluster Hc). discriminate. }
  destruct (Nat.ltb_spec (lo + j) (length (snd s))) as [_|]; [|lia].
  eexists. eexists. split; [reflexivity|]. cbn [fst snd].
  split; [reflexivity | split].
  - destruct s as [self h]. cbn [fst snd] in *. apply over_save; [exact Hover | lia].
  - split; [reflexivity|]. now apply clusters_at_append.
Qed.

Lemma assign_loop_refines base lo data medians xs :
  forall clusters s,
    Store.over base s -> length base <= lo ->
    Store.points_of base (Store.__pointer_data (fst s)) = Some data ->
    Store.points_of base (Store.__medians (fst s)) = Some medians ->
    clusters_at lo clusters (snd s) ->
    exists r s',
      Store.loop xs (Store.assign_point support_distance (Store.Ref (lo + length clusters))) tt s
      = (r, s') /\
      fst s' = fst s /\ Store.over base s' /\
      match for_each xs (assign_point dist data medians) clusters with
      | Ok clusters' =>
          r = Ok tt /\ clusters_at lo clusters' (snd s') /\ length clusters' = length clusters
      | Raise e => r = Raise e
      end.
Proof.
  induction xs as [|x t IH]; intros clusters s Hover Hlo Hd Hm Hat; simpl.
  - exists (Ok tt), s. split; [reflexivity | split; [reflexivity | split; [exact Hover|]]].
    split; [reflexivity | split; [exact Hat | reflexivity]].
  - destruct (assign_point_refines base lo data medians clusters x s Hover Hlo Hd Hm Hat)
      as (r1 & s1 & Hrun & Hself & Hover1 & Hres).
    unfold Store.bind. rewrite Hrun.
    destruct (assign_point dist data medians clusters x) as [clusters1|e] eqn:Hstep.
    + destruct Hres as [-> Hat1].
      assert (Hlen : length clusters1 = length clusters).
      { unfold assign_point in Hstep.
        destruct (for_each _ _ _); [|discriminate]. cbn [rbind] in Hstep.
        destruct (normalize_index _ _); [|discriminate]. cbn [rbind] in Hstep.
        inversion Hstep. apply length_update_at. }
      rewrite <- Hself in Hd, Hm.
      destruct (IH clusters1 s1 Hover1 Hlo Hd Hm Hat1) as (r & s' & Hrun' & Hself' & Hover' & Hres').
      rewrite Hlen in Hrun'.
      exists r, s'. split; [exact Hrun' | split; [congruence | split; [exact Hover'|]]].
      destruct (for_each t _ clusters1); auto.
      destruct Hres' as (-> & Hat' & Hlen').
      split; [reflexivity | split; [exact Hat' | now rewrite Hlen']].
    + subst r1. exists (Raise e), s1. auto.
Qed.

(** [__update_clusters] over the store and over values. *)
Lemma update_clusters_refines s data medians a :
  Store.points_of (snd s) (Store.__pointer_data (fst s)) = Some data ->
  Store.points_of (snd s) (Store.__medians (fst s)) = Some medians ->
  __pointer_data a = data -> __medians a = medians ->
  exists r s',
    Store.update_clusters support_distance s = (r, s') /\
    fst s' = fst s /\ Store.preserved (snd s) (snd s') /\
    match fst (update_clusters dist a) with
    | Ok clusters => exists v, r = Ok v /\ Store.clusters_of (snd s') v = Some clusters
    | Raise e => r = Raise e
    end.
Proof.
  intros Hd Hm Hda Hma.
  destruct (points_of_inv _ _ _ Hm) as (melements & Hme & Hmf).
  destruct (points_of_inv _ _ _ Hd) as (delements & Hde & Hdf).
  apply Forall2_length in Hmf. apply Forall2_length in Hdf.
  unfold Store.update_clusters, update_clusters, Store.bind, Store.attr, bind, attr, lift.
  cbn [fst snd]. rewrite (len_elements _ _ _ Hme), empty_lists_run.
  cbn [fst snd]. rewrite Hda, Hma.
  set (h1 := snd s ++ _).
  assert (Hp1 : Store.preserved (snd s) h1) by (eexists; reflexivity).
  rewrite (len_elements (fst s, h1) _ delements)
    by (eapply elements_of_preserved; eauto).
  pose proof (clusters_at_empty (snd s) (length melements)) as Hat. fold h1 in Hat.
  destruct (assign_loop_refines (snd s) (length (snd s)) data medians
              (range (length delements)) _ (fst s, h1) Hp1 (le_n _) Hd Hm Hat)
    as (r & s' & Hrun & Hself & Hover & Hres).
  unfold range in Hrun at 2. rewrite length_map, length_seq in Hrun.
  rewrite Hrun, <- Hmf, <- Hdf.
  destruct (for_each (range (length delements)) _ _) as [clusters|e].
  - destruct Hres as (-> & Hat' & Hlen).
    exists (Ok (Store.Ref (length (snd s) + length melements))), s'.
    repeat split; auto.
    eexists. split; [reflexivity|].
    apply clusters_at_read in Hat'.
    unfold range in Hlen. rewrite length_map, length_seq in Hlen. now rewrite Hlen in Hat'.
  - subst r. exists (Raise e), s'. auto.
Qed.

(** One step of the loop of [__update_medians]. *)
Lemma median_body_refines base address data clusters medians index s :
  Store.over base s -> length base <= address ->
  Store.points_of base (Store.__pointer_data (fst s)) = Some data ->
  Store.clusters_of base (Store.__clusters (fst s)) = Some clusters ->
  medians_at address medians (snd s) ->
  exists r s',
    Store.median_body support_median (Store.Ref address) tt index s = (r, s') /\
    fst s' = fst s /\ Store.over base s' /\
    match median_body median data clusters medians index with
    | Ok medians' => r = Ok tt /\ medians_at address medians' (snd s')
    | Raise e => r = Raise e
    end.
Proof.
  intros Hover Hlo Hd Hc (elements & Hat & Hall).
  pose proof (points_of_preserved _ _ _ _ Hover Hd) as Hd'.
  pose proof (clusters_of_preserved _ _ _ _ Hover Hc) as Hc'.
  destruct (clusters_of_inv _ _ _ Hc') as (celements & Hce & Hcf).
  destruct (points_of_inv _ _ _ Hd) as (delements & Hde & Hdf).
  pose proof (elements_of_preserved _ _ _ _ Hover Hde) as Hde'.
  unfold Store.median_body, median_body, Store.bind, Store.attr.
  cbn [fst snd]. rewrite (item_elements _ _ _ _ Hce).
  pose proof (Forall2_getitem _ _ _ index Hcf) as Hx.
  destruct (getitem celements index) as [x|e];
    destruct (getitem clusters index) as [cluster|e']; try contradiction;
    [|destruct Hx as [-> ->]; raised IndexError s].
  cbn [rbind]. unfold Store.call. cbn [fst snd].
  rewrite (median_reads _ _ _ _ _ Hd' Hx).
  destruct (median data cluster) as [meadian_index|]; cbn [support rbind];
    [|raised SupportError s].
  rewrite (item_elements _ _ _ _ Hde').
  pose proof (Forall2_getitem _ _ _ meadian_index Hdf) as Hy.
  destruct (getitem delements meadian_index) as [y|e];
    destruct (getitem data meadian_index) as [p|e']; try contradiction;
    [|destruct Hy as [-> ->]; raised IndexError s].
  cbn [rbind].
  assert (Hne : y <> Store.Ref address).
  { destruct (point_of_inv _ _ _ Hy) as (yelements & Hye & _).
    destruct (elements_of_address _ _ _ Hye) as (a & -> & _ & Ha).
    intro H. inversion H. lia. }
  pose proof (point_of_preserved _ _ _ _ Hover Hy) as Hy'.
  unfold Store.assign_item, Store.bind, Store.load, Store.lift, Store.save, setitem.
  cbn [fst snd]. rewrite Hat.
  rewrite (Forall2_length Hall).
  destruct (index <? length medians); [|raised IndexError s].
  assert (Hin : address < length (snd s)) by (apply nth_error_Some; congruence).
  destruct (Nat.ltb_spec address (length (snd s))) as [_|]; [|lia].
  eexists. eexists. split; [reflexivity|]. cbn [fst snd].
  split; [reflexivity | split].
  - destruct s as [self h]. cbn [fst snd] in *. now apply over_save.
  - split; [reflexivity|].
    exists (update_at elements index (fun _ => y)). split.
    + now rewrite nth_error_update_at_eq, Hat.
    + apply Forall2_update_at.
      * eapply Forall2_impl; [|exact Hall].
        intros x0 p0 [Hne0 Hp0]. split; [exact Hne0|].
        now rewrite point_of_update_other.
      * split; [exact Hne|]. now rewrite point_of_update_other.
Qed.

Lemma median_loop_refines base address data clusters xs :
  forall medians s,
    Store.over base s -> length base <= address ->
    Store.points_of base (Store.__pointer_data (fst s)) = Some data ->
    Store.clusters_of base (Store.__clusters (fst s)) = Some clusters ->
    medians_at address medians (snd s) ->
    exists r s',
      Store.loop xs (Store.median_body support_median (Store.Ref address)) tt s = (r, s') /\
      fst s' = fst s /\ Store.over base s' /\
      match for_each xs (median_body median data clusters) medians with
      | Ok medians' => r = Ok tt /\ medians_at address medians' (snd s')
      | Raise e => r = Raise e
      end.
Proof.
  induction xs as [|x t IH]; intros medians s Hover Hlo Hd Hc Hat; simpl.
  - exists (Ok tt), s. auto.
  - destruct (median_body_refines base address data clusters medians x s Hover Hlo Hd Hc Hat)
      as (r1 & s1 & Hrun & Hself & Hover1 & Hres).
    unfold Store.bind. rewrite Hrun.
    destruct (median_body median data clusters medians x) as [medians1|e].
    + destruct Hres as [-> Hat1].
      rewrite <- Hself in Hd, Hc.
      destruct (IH medians1 s1 Hover1 Hlo Hd Hc Hat1)
        as (r & s' & Hrun' & Hself' & Hover' & Hres').
      exists r, s'. split; [exact Hrun' | split; [congruence | split; [exact Hover'|]]].
      exact Hres'.
    + subst r1. exists (Raise e), s1. auto.
Qed.

(** [__update_medians] over the store and over values. *)
Lemma update_medians_refines s data clusters a :
  Store.points_of (snd s) (Store.__pointer_data (fst s)) = Some data ->
  Store.clusters_of (snd s) (Store.__clusters (fst s)) = Some clusters ->
  __pointer_data a = data -> __clusters a = clusters ->
  exists r s',
    Store.update_medians support_median s = (r, s') /\
    fst s' = fst s /\ Store.preserved (snd s) (snd s') /\
    match fst (update_medians median a) with
    | Ok medians => exists v, r = Ok v /\ Store.points_of (snd s') v = Some medians
    | Raise e => r = Raise e
    end.
Proof.
  intros Hd Hc Hda Hca.
  destruct (clusters_of_inv _ _ _ Hc) as (celements & Hce & Hcf).
  apply Forall2_length in Hcf.
  unfold Store.update_medians, update_medians, Store.bind, Store.attr, bind, attr, lift.
  cbn [fst snd]. rewrite (len_elements _ _ _ Hce), empty_lists_run.
  cbn [fst snd]. rewrite Hda, Hca.
  set (h1 := snd s ++ _).
  assert (Hp1 : Store.preserved (snd s) h1) by (eexists; reflexivity).
  pose proof (medians_at_empty (snd s) (length celements)) as Hat. fold h1 in Hat.
  destruct (median_loop_refines (snd s) (length (snd s) + length celements) data clusters
              (range (length celements)) _ (fst s, h1) Hp1 (Nat.le_add_r _ _) Hd Hc Hat)
    as (r & s' & Hrun & Hself & Hover & Hres).
  rewrite Hrun, <- Hcf.
  destruct (for_each (range (length celements)) _ _) as [medians|e].
  - destruct Hres as (-> & Hat').
    exists (Ok (Store.Ref (length (snd s) + length celements))), s'.
    repeat split; auto.
    eexists. split; [reflexivity|]. now apply medians_at_read.
  - subst r. exists (Raise e), s'. auto.
Qed.

(** One pass of the loop of [process] over the store and over values. *)
Lemma iteration_refines s a r a' :
  represents s a ->
  iteration dist median a = (r, a') ->
  exists s',
    Store.iteration support_distance support_median s = (r, s') /\
    represents s' a' /\
    Store.preserved (snd s) (snd s').
Proof.
  intros (Hd & Hc & Hm & Ht) Hv.
  destruct (update_clusters_refines s _ _ a
              Hd Hm eq_refl eq_refl)
    as (r1 & s1 & Hrun1 & Hself1 & Hp1 & Hres1).
  unfold Store.iteration, Store.bind. rewrite Hrun1.
  unfold iteration, bind in Hv.
  pose proof (update_clusters_frame dist a) as Hf1.
  destruct (update_clusters dist a) as [[clusters|e] a1]; cbn [fst snd] in Hf1, Hres1;
    subst a1.
  2:{ subst r1. inversion Hv; subst r a'. exists s1.
      split; [reflexivity | split; [|exact Hp1]].
      destruct s as [self h], s1 as [self1 h1]. cbn [fst snd] in *. subst self1.
      apply represents_preserved with (h := h); [exact Hp1|].
      repeat split; assumption. }
  destruct Hres1 as (v & -> & Hcl).
  unfold Store.set_clusters at 1. unfold set_clusters at 1 in Hv. cbn [fst snd].
  set (s2 := (Store.mk_kmedians _ v _ _, snd s1)).
  set (a2 := mk_kmedians _ clusters _ _) in Hv.
  assert (Hd2 : Store.points_of (snd s2) (Store.__pointer_data (fst s2))
                = Some (__pointer_data a)).
  { cbn [fst snd s2 Store.__pointer_data]. rewrite Hself1.
    eapply points_of_preserved; eauto. }
  assert (Hm2 : Store.points_of (snd s2) (Store.__medians (fst s2)) = Some (__medians a)).
  { cbn [fst snd s2 Store.__medians]. rewrite Hself1.
    eapply points_of_preserved; eauto. }
  assert (Ht2 : Store.__tolerance (fst s2) = __tolerance a2).
  { cbn [fst snd s2 a2 Store.__tolerance __tolerance]. now rewrite Hself1. }
  destruct (update_medians_refines s2 _ clusters a2
              Hd2 Hcl eq_refl eq_refl)
    as (r3 & s3 & Hrun3 & Hself3 & Hp3 & Hres3).
  rewrite Hrun3.
  assert (Hrep3 : forall h', Store.preserved (snd s3) h' -> represents (fst s3, h') a2).
  { intros h' Hp'. apply represents_preserved with (h := snd s2).
    - eapply preserved_trans; eauto.
    - rewrite Hself3.
      split; [exact Hd2 | split; [exact Hcl | split; [exact Hm2 | exact Ht2]]]. }
  assert (Hp13 : Store.preserved (snd s) (snd s3)) by (eapply preserved_trans; eauto).
  pose proof (update_medians_frame median a2) as Hf3.
  destruct (update_medians median a2) as [[updated|e] a3]; cbn [fst snd] in Hf3, Hres3;
    subst a3.
  2:{ subst r3. inversion Hv; subst r a'. exists s3.
      split; [reflexivity | split; [|exact Hp13]].
      destruct s3 as [self3 h3]. apply (Hrep3 h3). apply preserved_refl. }
  destruct Hres3 as (v3 & -> & Hup).
  destruct (Hrep3 (snd s3) (preserved_refl _)) as (_ & _ & Hm3 & _). cbn [fst snd] in Hm3.
  unfold Store.attr at 1. unfold attr at 1 in Hv. cbn [fst snd].
  destruct (points_of_inv _ _ _ Hm3) as (melements & Hme & Hmf).
  apply Forall2_length in Hmf.
  rewrite (len_elements _ _ _ Hme), Hmf.
  rewrite (collect_reads _ _
             (fun index =>
                (old <- getitem (__medians a2) index ;;
                 new <- getitem updated index ;;
                 support (dist old new))%result) s3)
    by (intro x; now apply displacement_refines).
  unfold lift, displacements in Hv.
  destruct (comprehension _ (range (length (__medians a2)))) as [ds|e]; cbn [rbind] in Hv.
  2:{ inversion Hv; subst r a'. exists s3.
      split; [reflexivity | split; [|exact Hp13]].
      destruct s3 as [self3 h3]. apply (Hrep3 h3). apply preserved_refl. }
  unfold Store.alloc at 1. cbn [fst snd].
  assert (Hp4 : Store.preserved (snd s3) (snd s3 ++ [map Store.Float ds]))
    by (eexists; reflexivity).
  unfold Store.lift.
  destruct (py_max ds) as [changes|e]; cbn [fst snd] in *.
  2:{ inversion Hv; subst r a'. eexists.
      split; [reflexivity | split].
      - now apply Hrep3.
      - cbn [snd]. eapply preserved_trans; eauto. }
  unfold set_medians, ret in Hv. inversion Hv; subst r a'.
  unfold Store.set_medians, Store.ret. cbn [fst snd].
  eexists. split; [reflexivity | split].
  - destruct (Hrep3 _ Hp4) as (Hd4 & Hc4 & _ & Ht4). cbn [fst snd] in *.
    split; [exact Hd4 | split; [exact Hc4 | split; [|exact Ht4]]].
    cbn [fst snd Store.__medians __medians]. eapply points_of_preserved; eauto.
  - cbn [snd]. eapply preserved_trans; eauto.
Qed.

Lemma process_loop_refines fuel stop_condition :
  forall changes s a base,
    represents s a -> Store.preserved base (snd s) ->
    corresponds base
      (Store.process_loop support_distance support_median fuel changes stop_condition s)
      (process_loop dist median fuel changes stop_condition a).
Proof.
  induction fuel as [|fuel IH]; intros changes s a base Hrep Hbase; simpl.
  - destruct (exceeds changes stop_condition); simpl; auto.
  - destruct (exceeds changes stop_condition); [|simpl; auto].
    destruct (iteration dist median a) as [r a'] eqn:Hv.
    destruct (iteration_refines s a r a' Hrep Hv) as (s' & Hrun & Hrep' & Hp).
    rewrite Hrun. destruct r as [c|e].
    + apply IH; [exact Hrep' | eapply preserved_trans; eauto].
    + simpl. split; [reflexivity | split; [exact Hrep' | eapply preserved_trans; eauto]].
Qed.

(** [process] over the store and over values: the same outcome, from
    states that correspond to states that correspond. *)
Lemma process_refines fuel s a :
  represents s a ->
  corresponds (snd s)
    (Store.process support_distance support_median fuel s)
    (process dist median fuel a).
Proof.
  intro Hrep. unfold Store.process, process.
  destruct (check_dimension_refines s a Hrep) as [Hc Hf].
  rewrite Hc. destruct (check_dimension a) as [[[]|e] a']; cbn [fst snd] in *; subst a'.
  - destruct Hrep as (Hd & Hcl & Hm & Ht). rewrite Ht.
    apply process_loop_refines; [repeat split; assumption | apply preserved_refl].
  - simpl. split; [reflexivity | split; [exact Hrep | apply preserved_refl]].
Qed.

End Refinement.

(** The engine that the constructor builds over the store is the engine
    it builds over values. *)
Lemma init_represents h data_ref centers_ref tolerance s data centers :
  Store.points_of h data_ref = Some data ->
  Store.points_of h centers_ref = Some centers ->
  Store.init data_ref centers_ref tolerance h = (Ok tt, s) ->
  represents s (init data centers tolerance).
Proof.
  intros Hd Hc Hinit.
  apply init_Ok in Hinit as (address & elements & -> & Hat & ->).
  destruct (points_of_inv _ _ _ Hc) as (elements' & He & Hf). simpl in He.
  rewrite nth_error_app1 in Hat by (apply nth_error_Some; congruence).
  rewrite He in Hat. inversion Hat; subst elements'.
  assert (Hp : Store.preserved h (h ++ [[]] ++ [elements])) by (eexists; reflexivity).
  split; [|split; [|split]]; cbn [fst snd Store.__pointer_data Store.__clusters
                                    Store.__medians Store.__tolerance init
                                    __pointer_data __clusters __medians __tolerance].
  - eapply points_of_preserved; eauto.
  - unfold Store.clusters_of. simpl.
    rewrite nth_error_app2 by lia. rewrite Nat.sub_diag. reflexivity.
  - unfold Store.points_of. cbn [Store.elements_of app].
    rewrite nth_error_app2 by lia.
    replace (S (length h) - length h) with 1 by lia. cbn [nth_error].
    apply all_some_Forall2. eapply Forall2_impl; [|exact Hf].
    intros x p. now apply point_of_preserved.
  - reflexivity.
Qed.

(** *** Two engines *)

(** More fuel does not change the outcome of a call that has one. *)
Lemma process_fuel dist median fuel fuel' self r :
  fuel <= fuel' ->
  process dist median fuel self = Some r ->
  process dist median fuel' self = Some r.
Proof.
  intro Hle. unfold process.
  destruct (check_dimension self) as [[u|e] self1]; auto.
  now apply process_loop_fuel.
Qed.

Lemma distance_on_reads h a b p q :
  Store.point_of h a = Some p -> Store.point_of h b = Some q ->
  Store.distance_on h a b = euclidean_distance_sqrt p q.
Proof. intros Hp Hq. unfold Store.distance_on. now rewrite Hp, Hq. Qed.

Lemma median_on_reads h d l points indexes :
  Store.points_of h d = Some points -> Store.indexes_of h l = Some indexes ->
  Store.median_on h d l = geometric_median points indexes.
Proof. intros Hp Hl. unfold Store.median_on. now rewrite Hp, Hl. Qed.

(** X16: [process] on list objects in a store ends as [process] on values
    does.  When the attributes of the engine read back from the store as the
    engine [a] over values, and the collaborators see the values of their
    arguments only, the two calls (with the same number of passes allowed)
    are both out of fuel or both end in the same way, with a normal return or
    with the same exception; the attributes of the engine after the call read
    back as the engine over values after the call; and the objects that were
    in the store before the call are as they were. *)
Theorem X16_process_on_objects_as_on_values :
  forall (support_distance : Store.store -> Store.value -> Store.value -> option Q)
         (support_median : Store.store -> Store.value -> Store.value -> option nat)
         (dist : point -> point -> option Q)
         (median : list point -> list nat -> option nat),
    (forall h a b p q,
        Store.point_of h a = Some p -> Store.point_of h b = Some q ->
        support_distance h a b = dist p q) ->
    (forall h d l points indexes,
        Store.points_of h d = Some points -> Store.indexes_of h l = Some indexes ->
        support_median h d l = median points indexes) ->
    forall (fuel : nat) (s : Store.state) (a : kmedians),
      represents s a ->
      corresponds (snd s)
        (Store.process support_distance support_median fuel s)
        (process dist median fuel a).
Proof.
  intros sd sm dist median Hd Hm fuel s a Hrep.
  now apply process_refines.
Qed.

(** C10: two engines built, in any two stores, from datasets with the same
    points, initial centers with the same points and the same tolerance, and
    run with collaborators that see the values of their arguments only: if
    both calls of [process] end, however many passes each was allowed, they
    end in the same way, and [get_clusters] and [get_centers] answer lists
    that hold the same clusters and the same centers.  The stores may differ
    in everything else: the addresses of the objects, other objects (the
    second store may be the one that the first call left), and which point
    objects the dataset and the centers share. *)
Theorem C10_process_deterministic :
  forall (support_distance : Store.store -> Store.value -> Store.value -> option Q)
         (support_median : Store.store -> Store.value -> Store.value -> option nat)
         (dist : point -> point -> option Q)
         (median : list point -> list nat -> option nat),
    (forall h a b p q,
        Store.point_of h a = Some p -> Store.point_of h b = Some q ->
        support_distance h a b = dist p q) ->
    (forall h d l points indexes,
        Store.points_of h d = Some points -> Store.indexes_of h l = Some indexes ->
        support_median h d l = median points indexes) ->
    forall (h1 h2 : Store.store) (data1 centers1 data2 centers2 : Store.value)
           (tolerance : float) (data centers : list point)
           (s1 s2 : Store.state) (fuel1 fuel2 : nat)
           (r1 r2 : result unit) (s1' s2' : Store.state),
      Store.points_of h1 data1 = Some data ->
      Store.points_of h2 data2 = Some data ->
      Store.points_of h1 centers1 = Some centers ->
      Store.points_of h2 centers2 = Some centers ->
      Store.init data1 centers1 tolerance h1 = (Ok tt, s1) ->
      Store.init data2 centers2 tolerance h2 = (Ok tt, s2) ->
      Store.process support_distance support_median fuel1 s1 = Some (r1, s1') ->
      Store.process support_distance support_median fuel2 s2 = Some (r2, s2') ->
      r1 = r2 /\
      exists clusters medians,
        Store.clusters_of (snd s1') (Store.get_clusters (fst s1')) = Some clusters /\
        Store.clusters_of (snd s2') (Store.get_clusters (fst s2')) = Some clusters /\
        Store.points_of (snd s1') (Store.get_centers (fst s1')) = Some medians /\
        Store.points_of (snd s2') (Store.get_centers (fst s2')) = Some medians.
Proof.
  intros sd sm dist median Hdist Hmedian h1 h2 data1 centers1 data2 centers2 tolerance
    data centers s1 s2 fuel1 fuel2 r1 r2 s1' s2' Hd1 Hd2 Hc1 Hc2 Hinit1 Hinit2 Hrun1 Hrun2.
  pose proof (init_represents _ _ _ _ _ _ _ Hd1 Hc1 Hinit1) as Hrep1.
  pose proof (init_represents _ _ _ _ _ _ _ Hd2 Hc2 Hinit2) as Hrep2.
  pose proof (process_refines sd sm dist median Hdist Hmedian fuel1 s1 _ Hrep1) as H1.
  pose proof (process_refines sd sm dist median Hdist Hmedian fuel2 s2 _ Hrep2) as H2.
  rewrite Hrun1 in H1. rewrite Hrun2 in H2. unfold corresponds in H1, H2.
  destruct (process dist median fuel1 (init data centers tolerance))
    as [[r1' a1]|] eqn:Hv1; [|contradiction].
  destruct (process dist median fuel2 (init data centers tolerance))
    as [[r2' a2]|] eqn:Hv2; [|contradiction].
  destruct H1 as (-> & (_ & Hcl1 & Hm1 & _) & _).
  destruct H2 as (-> & (_ & Hcl2 & Hm2 & _) & _).
  apply (process_fuel dist median fuel1 (Nat.max fuel1 fuel2)) in Hv1; [|lia].
  apply (process_fuel dist median fuel2 (Nat.max fuel1 fuel2)) in Hv2; [|lia].
  rewrite Hv1 in Hv2. inversion Hv2; subst r2' a2.
  split; [reflexivity|].
  exists (__clusters a1), (__medians a1). unfold Store.get_clusters, Store.get_centers.
  repeat split; assumption.
Qed.

(** The second engine is built in the store that the first call of
    [process] left, from the same dataset list and the same list of centers. *)
Lemma C10_witness :
  exists s1 s1' s2 s2',
    Store.init (Store.Ref 8) (Store.Ref 11) (Real (1 # 4)) Store.sample_store = (Ok tt, s1) /\
    Store.process Store.distance_on Store.median_on 5 s1 = Some (Ok tt, s1') /\
    Store.init (Store.Ref 8) (Store.Ref 11) (Real (1 # 4)) (snd s1') = (Ok tt, s2) /\
    Store.process Store.distance_on Store.median_on 9 s2 = Some (Ok tt, s2') /\
    Ok tt = Ok tt :> result unit /\
    exists clusters medians,
      Store.clusters_of (snd s1') (Store.get_clusters (fst s1')) = Some clusters /\
      Store.clusters_of (snd s2') (Store.get_clusters (fst s2')) = Some clusters /\
      Store.points_of (snd s1') (Store.get_centers (fst s1')) = Some medians /\
      Store.points_of (snd s2') (Store.get_centers (fst s2')) = Some medians.
Proof.
  eexists. eexists. eexists. eexists.
  split; [vm_compute; reflexivity|].
  split; [vm_compute; reflexivity|].
  split; [vm_compute; reflexivity|].
  split; [vm_compute; reflexivity|].
  match goal with
  | |- _ /\ exists clusters medians, Store.clusters_of (snd ?s) _ = _ /\ _ =>
      eapply (C10_process_deterministic Store.distance_on Store.median_on
                euclidean_distance_sqrt geometric_median distance_on_reads median_on_reads
                Store.sample_store (snd s)
                (Store.Ref 8) (Store.Ref 11) (Store.Ref 8) (Store.Ref 11)
                (Real (1 # 4)) sample_squares [[0; 0]; [1; 1]]%Q _ _ 5 9)
  end.
  - vm_compute. reflexivity.
  - vm_compute. reflexivity.
  - vm_compute. reflexivity.
  - vm_compute. reflexivity.
  - vm_compute. reflexivity.
  - vm_compute. reflexivity.
  - vm_compute. reflexivity.
  - vm_compute. reflexivity.
Defined.

Lemma X16_witness :
  exists s1,
    Store.init (Store.Ref 8) (Store.Ref 11) (Real (1 # 4)) Store.sample_store = (Ok tt, s1) /\
    corresponds (snd s1)
      (Store.process Store.distance_on Store.median_on 5 s1)
      (process euclidean_distance_sqrt geometric_median 5
         (init sample_squares [[0; 0]; [1; 1]]%Q (Real (1 # 4)))).
Proof.
  eexists. split; [vm_compute; reflexivity|].
  apply (X16_process_on_objects_as_on_values Store.distance_on Store.median_on
           euclidean_distance_sqrt geometric_median distance_on_reads median_on_reads 5).
  split; [|split; [|split]]; vm_compute; reflexivity.
Defined.

End StoreRefinement.
